(** * An LRU cache over an external key-value store, and its memoize adapter

    Shallow embedding of [src/index.ts] (class [LRUCache] and function
    [memoize]).

    Modelling conventions
    - A JavaScript string is a [string]: one [ascii] per UTF-16 code unit
      (code units 0..255), so [String.length] is the [.length] of the source.
    - The storage capability is a finite map from strings to strings
      ([gmap string string]) together with the way its [get] hands back a
      value: at once, as [Map] and [InMemoryStorage] do, or as a promise
      ([backend]).  A call the source awaits is sequencing on either kind; the
      two reads it does not await see a promise on the second kind.
    - The cached value type [V] is instantiated with strings.
    - Numbers kept in the store are integers ([Z]); the source uses doubles,
      which are exact on integers up to [2^53] in absolute value.
    - Every engine operation runs in the monad [M]: it threads the storage,
      may throw, and may run out of fuel where the source has a [while] loop. *)

From Stdlib Require Import Ascii String ZArith DecimalString DecimalPos DecimalZ.
From stdpp Require Import gmap strings list fin_maps.

Local Open Scope string_scope.
Local Open Scope Z_scope.
Local Open Scope list_scope.

(** ** JavaScript values the code inspects dynamically *)

(** Truthiness of a string: only the empty string is falsy. *)
Definition truthy_string (s : string) : bool :=
  match s with EmptyString => false | String _ _ => true end.

(** A value of type [string | undefined] under a truthiness test: the string
    when the test passes, nothing when it fails ([undefined] and [""]). *)
Definition deref_key (o : option string) : option string :=
  match o with
  | Some s => if truthy_string s then Some s else None
  | None => None
  end.

(** Errors a call can raise; [UserError] is whatever the code handed to the
    adapter throws. *)
Inductive exn : Type :=
  | TypeError (msg : string)
  | SyntaxError
  | UserError (msg : string).

(** ** The node record and its JSON codec *)

(** [interface INode<V>] with [V := string]; an absent optional field is
    [None]. *)
Record INode : Type := mkNode {
  next : option string;
  prev : option string;
  value : string;
  key : string;
}.

#[global] Instance INode_eq_dec : EqDecision INode.
Proof. solve_decision. Defined.

Module JSON.

(** The quotation mark, code unit 34. *)
Definition dquote : ascii :=
  Ascii false true false false false true false false.

Definition hex_digit (n : N) : ascii :=
  match n with
  | 0 => "0" | 1 => "1" | 2 => "2" | 3 => "3" | 4 => "4" | 5 => "5"
  | 6 => "6" | 7 => "7" | 8 => "8" | 9 => "9" | 10 => "a" | 11 => "b"
  | 12 => "c" | 13 => "d" | 14 => "e" | _ => "f"
  end%N%char.

Definition hex_value (c : ascii) : option N :=
  (if Ascii.eqb c "0" then Some 0 else if Ascii.eqb c "1" then Some 1
   else if Ascii.eqb c "2" then Some 2 else if Ascii.eqb c "3" then Some 3
   else if Ascii.eqb c "4" then Some 4 else if Ascii.eqb c "5" then Some 5
   else if Ascii.eqb c "6" then Some 6 else if Ascii.eqb c "7" then Some 7
   else if Ascii.eqb c "8" then Some 8 else if Ascii.eqb c "9" then Some 9
   else if Ascii.eqb c "a" then Some 10 else if Ascii.eqb c "b" then Some 11
   else if Ascii.eqb c "c" then Some 12 else if Ascii.eqb c "d" then Some 13
   else if Ascii.eqb c "e" then Some 14 else if Ascii.eqb c "f" then Some 15
   else None)%N%char.

(** QuoteJSONString, one code unit: the two-character escapes, [\u00XX]
    for the other control characters, the unit itself otherwise. *)
Definition escape_char (c : ascii) : string :=
  let n := N_of_ascii c in
  if Ascii.eqb c dquote then String "\" (String dquote EmptyString)
  else if Ascii.eqb c "\" then String "\" (String "\" EmptyString)
  else if (n =? 8)%N then String "\" (String "b" EmptyString)
  else if (n =? 9)%N then String "\" (String "t" EmptyString)
  else if (n =? 10)%N then String "\" (String "n" EmptyString)
  else if (n =? 12)%N then String "\" (String "f" EmptyString)
  else if (n =? 13)%N then String "\" (String "r" EmptyString)
  else if (n <? 32)%N then
    String "\" (String "u" (String "0" (String "0"
      (String (hex_digit (n / 16)) (String (hex_digit (n mod 16)) EmptyString)))))
  else String c EmptyString.

Fixpoint escape (s : string) : string :=
  match s with
  | EmptyString => EmptyString
  | String c s' => escape_char c +:+ escape s'
  end.

(** [JSON.stringify] of a string. *)
Definition quote (s : string) : string :=
  String dquote (escape s +:+ String dquote EmptyString).

(** Reads the body of a string literal up to its closing quote and returns
    the decoded string and the text after the quote. *)
Fixpoint unescape (s : string) : option (string * string) :=
  match s with
  | EmptyString => None
  | String c s' =>
      if Ascii.eqb c dquote then Some (EmptyString, s')
      else if Ascii.eqb c "\" then
        match s' with
        | String e s'' =>
            if Ascii.eqb e "u" then
              match s'' with
              | String "0" (String "0" (String h (String l r))) =>
                  match hex_value h, hex_value l, unescape r with
                  | Some a, Some b, Some (body, rest) =>
                      Some (String (ascii_of_N (16 * a + b)) body, rest)
                  | _, _, _ => None
                  end
              | _ => None
              end
            else
              let d := if Ascii.eqb e "b" then Some (ascii_of_N 8)
                       else if Ascii.eqb e "t" then Some (ascii_of_N 9)
                       else if Ascii.eqb e "n" then Some (ascii_of_N 10)
                       else if Ascii.eqb e "f" then Some (ascii_of_N 12)
                       else if Ascii.eqb e "r" then Some (ascii_of_N 13)
                       else if Ascii.eqb e dquote then Some e
                       else if Ascii.eqb e "\" then Some e
                       else if Ascii.eqb e "/" then Some e
                       else None in
              match d, unescape s'' with
              | Some x, Some (body, rest) => Some (String x body, rest)
              | _, _ => None
              end
        | EmptyString => None
        end
      else if (N_of_ascii c <? 32)%N then None
      else
        match unescape s' with
        | Some (body, rest) => Some (String c body, rest)
        | None => None
        end
  end.

Definition unquote (s : string) : option (string * string) :=
  match s with
  | String c s' => if Ascii.eqb c dquote then unescape s' else None
  | EmptyString => None
  end.

(** Strips a literal prefix. *)
Fixpoint expect (p s : string) : option string :=
  match p, s with
  | EmptyString, _ => Some s
  | String a p', String b s' => if Ascii.eqb a b then expect p' s' else None
  | String _ _, EmptyString => None
  end.

Definition field (name : string) (o : option string) : string :=
  match o with
  | Some s => "," +:+ quote name +:+ ":" +:+ quote s
  | None => ""
  end.

(** [JSON.stringify(node)].  Properties appear in creation order; every
    node object of the engine is created as [{value, key}] and gets [next]
    and [prev] afterwards, and a property holding [undefined] is left out. *)
Definition stringify (n : INode) : string :=
  "{" +:+ quote "value" +:+ ":" +:+ quote (value n)
      +:+ "," +:+ quote "key" +:+ ":" +:+ quote (key n)
      +:+ field "next" (next n) +:+ field "prev" (prev n) +:+ "}".

(** Reads [,"name":"..."] when the text starts with it. *)
Definition parse_field (name s : string) : option (option string * string) :=
  match expect ("," +:+ quote name +:+ ":") s with
  | Some r =>
      match unquote r with
      | Some (v, rest) => Some (Some v, rest)
      | None => None
      end
  | None => Some (None, s)
  end.

(** [JSON.parse(text) as INode<V>], on the texts [_setNode] writes.  [None]
    stands for every other text: there the source throws [SyntaxError] or
    goes on with a value that is not an [INode]. *)
Definition parse (s : string) : option INode :=
  r0 ← expect ("{" +:+ quote "value" +:+ ":") s;
  '(v, r1) ← unquote r0;
  r2 ← expect ("," +:+ quote "key" +:+ ":") r1;
  '(k, r3) ← unquote r2;
  '(nx, r4) ← parse_field "next" r3;
  '(pv, r5) ← parse_field "prev" r4;
  if String.eqb r5 "}" then Some (mkNode nx pv v k) else None.

(** [JSON.stringify] and [String] of an integer. *)
Definition of_number (z : Z) : string := NilZero.string_of_int (Z.to_int z).

End JSON.

(** [Number(x)] for [x : string | undefined]; [None] is [NaN].  Decimal
    integer texts, which are all the engine writes under its counters, are
    read as the source reads them; the other numeric spellings of
    JavaScript (a plus sign, blanks, exponents, hexadecimal, fractions) are
    read as [NaN] here. *)
Definition Number (o : option string) : option Z :=
  match o with
  | None => None
  | Some EmptyString => Some 0
  | Some s => Z.of_int <$> NilZero.int_of_string s
  end.

(** [x || 0] on a number: [NaN] and [0] give [0]. *)
Definition or_zero (o : option Z) : Z := default 0 o.

(** ** The storage capability and the monad of engine operations *)

Abbreviation storage := (gmap string string).

Inductive outcome (A : Type) : Type :=
  | Done (a : A)
  | Threw (e : exn)
  | OutOfFuel.
Arguments Done {A} a.
Arguments Threw {A} e.
Arguments OutOfFuel {A}.

(** A computation over a state [St] that returns, throws, or runs out of
    fuel. *)
Definition ST (St A : Type) : Type := St → outcome A * St.

#[global] Instance ST_ret {St} : MRet (ST St) := λ A a st, (Done a, st).
#[global] Instance ST_bind {St} : MBind (ST St) := λ A B f m st,
  match m st with
  | (Done a, st') => f a st'
  | (Threw e, st') => (Threw e, st')
  | (OutOfFuel, st') => (OutOfFuel, st')
  end.

(** The engine runs over the storage. *)
Abbreviation M := (ST storage).

Definition throw {A} (e : exn) : M A := λ st, (Threw e, st).
Definition out_of_fuel {A} : M A := λ st, (OutOfFuel, st).

(** [IStorage]: [get] hands back [string | undefined] or a promise of it.
    A [Map] is [Immediate]; a store whose [get] is an [async] function is
    [Promising]. *)
Inductive backend : Type := Immediate | Promising.

(** The three methods of [IStorage] where the source awaits them: what the
    caller sees is the same on both kinds of store. *)
Definition storage_get (k : string) : M (option string) :=
  λ st, (Done (st !! k), st).
Definition storage_set (k v : string) : M unit :=
  λ st, (Done tt, <[k:=v]> st).
Definition storage_delete (k : string) : M bool :=
  λ st, (Done (bool_decide (is_Some (st !! k))), delete k st).

(** What [storage.get(key)] evaluates to where the source does not await
    it: the value, or a promise of it. *)
Inductive reply : Type :=
  | Settled (v : option string)
  | Pending (v : option string).

Definition storage_get_unawaited (b : backend) (k : string) : M reply :=
  λ st, (Done match b with
              | Immediate => Settled (st !! k)
              | Promising => Pending (st !! k)
              end, st).

(** [Number(x)] of such a reply: a promise is an object, and [Number] of it
    is [NaN]. *)
Definition Number_of_reply (r : reply) : option Z :=
  match r with
  | Settled v => Number v
  | Pending _ => None
  end.

(** The integers a double holds exactly, and a counter cell as the engine
    leaves it: absent, or the decimal text of such an integer. *)
Definition safe_integer (z : Z) : Prop := - 2 ^ 53 ≤ z ≤ 2 ^ 53.

Definition counter_holds (cell : option string) (z : Z) : Prop :=
  (cell = None ∧ z = 0) ∨ (cell = Some (JSON.of_number z) ∧ safe_integer z).

(** ** class LRUCache *)

(** The constructor's arguments: the storage, of which the engine needs to
    know the kind, and the two capacities. *)
Record LRUCache : Type := mkCache {
  storage_backend : backend;
  capacity : Z;
  charsCapacity : option Z;
}.

(** A cache over a store that hands back values at once. *)
Class Immediate_store (this : LRUCache) : Prop :=
  immediate_store : storage_backend this = Immediate.

#[global] Instance mkCache_immediate c cc :
  Immediate_store (mkCache Immediate c cc).
Proof. reflexivity. Qed.

Definition __headKeyPointer : string := "lru-cache-head-key-pointer".
Definition __tailKeyPointer : string := "lru-cache-tail-key-pointer".
Definition __charsSizeKey : string := "lru-cache-characters-size".
Definition __sizeKey : string := "lru-cache-size".

Definition strlen (s : string) : Z := Z.of_nat (String.length s).

Definition _getNode (key : string) : M (option INode) :=
  serializedNode ← storage_get key;
  match deref_key serializedNode with
  | Some s =>
      match JSON.parse s with
      | Some n => mret (Some n)
      | None => throw SyntaxError
      end
  | None => mret None
  end.

Definition _setNode (key : string) (node : INode) : M unit :=
  storage_set key (JSON.stringify node).

Definition _getTail : M (option INode) :=
  tailKey ← storage_get __tailKeyPointer;
  match deref_key tailKey with
  | Some k => _getNode k
  | None => mret None
  end.

(** The source updates [newTailNode] in place; no caller reads its links
    afterwards. *)
Definition _setTail (newTailNode : INode) : M unit :=
  currentTailNode ← _getTail;
  match currentTailNode with
  | Some cur =>
      if bool_decide (key cur ≠ key newTailNode) then
        _setNode (key cur)
          (mkNode (next cur) (Some (key newTailNode)) (value cur) (key cur));;
        _setNode (key newTailNode)
          (mkNode (Some (key cur)) None (value newTailNode) (key newTailNode));;
        storage_set __tailKeyPointer (key newTailNode)
      else mret tt
  | None => mret tt
  end.

Definition _getHead : M (option INode) :=
  headKey ← storage_get __headKeyPointer;
  match deref_key headKey with
  | Some k => _getNode k
  | None => mret None
  end.

Definition _getMetadataEstimatedCharsSize : Z :=
  strlen __sizeKey + strlen __charsSizeKey + strlen __headKeyPointer
  + strlen __tailKeyPointer + 200.

Definition _initialize (newNode : INode) : M unit :=
  storage_set __tailKeyPointer (key newNode);;
  storage_set __headKeyPointer (key newNode);;
  storage_set __charsSizeKey (JSON.of_number _getMetadataEstimatedCharsSize);;
  _setNode (key newNode) newNode.

Definition _removeHead : M (option INode) :=
  currentHead ← _getHead;
  match currentHead with
  | Some h =>
      match deref_key (prev h) with
      | Some p =>
          newHead ← _getNode p;
          match newHead with
          | Some nh =>
              _setNode (key nh) (mkNode None (prev nh) (value nh) (key nh));;
              storage_set __headKeyPointer (key nh)
          | None => mret tt
          end
      | None => mret tt
      end
  | None => mret tt
  end;;
  match currentHead with
  | Some h =>
      if truthy_string (key h) then storage_delete (key h);; mret tt
      else mret tt
  | None => mret tt
  end;;
  mret currentHead.

(** [Number(this.storage.get(this.__sizeKey)) || 0]: the source does not
    await the read.  On a store that hands back the value this is the
    stored count; on one that hands back a promise [Number] gives [NaN] and
    the count always reads 0. *)
Definition _getSize (this : LRUCache) : M Z :=
  r ← storage_get_unawaited (storage_backend this) __sizeKey;
  mret (or_zero (Number_of_reply r)).

Definition _getCharsSize (this : LRUCache) : M Z :=
  r ← storage_get_unawaited (storage_backend this) __charsSizeKey;
  mret (or_zero (Number_of_reply r)).

Definition _increaseSize (this : LRUCache) : M Z :=
  currentSize ← _getSize this;
  let newSize := currentSize + 1 in
  storage_set __sizeKey (JSON.of_number newSize);;
  mret newSize.

(** [(currentSize - itemsRemoved) || 0] is the difference itself: the
    operands are numbers, and [0 || 0] is [0]. *)
Definition _decreaseSize (this : LRUCache) (itemsRemoved : Z) : M Z :=
  currentSize ← _getSize this;
  let newSize := currentSize - itemsRemoved in
  storage_set __sizeKey (JSON.of_number newSize);;
  mret newSize.

Definition _increaseCharsSize (this : LRUCache) (charsAdded : Z) : M Z :=
  currentSize ← _getCharsSize this;
  let newSize := currentSize + charsAdded in
  storage_set __charsSizeKey (JSON.of_number newSize);;
  mret newSize.

Definition _decreaseCharsSize (this : LRUCache) (charsRemoved : Z) : M Z :=
  currentSize ← _getCharsSize this;
  let newSize := currentSize - charsRemoved in
  storage_set __charsSizeKey (JSON.of_number newSize);;
  mret newSize.

(** Both neighbours are read before either is written. *)
Definition __setAsTop (node : INode) : M unit :=
  previousNode ← match deref_key (prev node) with
                 | Some p => _getNode p
                 | None => mret None
                 end;
  nextNode ← match deref_key (next node) with
             | Some n => _getNode n
             | None => mret None
             end;
  match previousNode with
  | Some pn => _setNode (key pn) (mkNode (next node) (prev pn) (value pn) (key pn))
  | None => mret tt
  end;;
  match nextNode with
  | Some nn => _setNode (key nn) (mkNode (next nn) (prev node) (value nn) (key nn))
  | None => mret tt
  end;;
  match nextNode, previousNode with
  | None, Some pn => storage_set __headKeyPointer (key pn)
  | _, _ => mret tt
  end;;
  _setTail node.

Definition get (k : string) : M (option string) :=
  node ← _getNode k;
  match node with
  | Some n =>
      tailKey ← storage_get __tailKeyPointer;
      (if bool_decide (Some (key n) ≠ tailKey) then __setAsTop n
       else mret tt);;
      mret (Some (value n))
  | None => mret None
  end.

Definition _getNodeCharsSize (node : INode) : Z :=
  strlen (JSON.stringify node) + strlen (key node).

(** The literal [{key, value, next: key, prev: key}] lists its properties
    in another order than a stored node; the length of its JSON text is that
    of the node with the same four fields. *)
Definition _getNewNodeEstimatedSize (key value : string) : Z :=
  _getNodeCharsSize (mkNode (Some key) (Some key) value key).

(** The [while] loop of [_checkCapacity]; [fuel] bounds its iterations. *)
Fixpoint _checkCapacity_loop (fuel : nat)
    (currentCharsSize estimatedNewNodeSize cap removedItems removedChars : Z)
    : M (Z * Z) :=
  if bool_decide (currentCharsSize + estimatedNewNodeSize - removedChars > cap)
  then
    match fuel with
    | O => out_of_fuel
    | S fuel' =>
        removedItem ← _removeHead;
        _checkCapacity_loop fuel' currentCharsSize estimatedNewNodeSize cap
          (removedItems + 1)
          (removedChars + match removedItem with
                          | Some n => _getNodeCharsSize n
                          | None => 0
                          end)
    end
  else mret (removedItems, removedChars).

Definition _checkCapacity (this : LRUCache) (fuel : nat) (newNode : INode)
    : M unit :=
  match charsCapacity this with
  | Some cap =>
      if bool_decide (cap > 0) then
        currentCharsSize ← _getCharsSize this;
        let estimatedNewNodeSize :=
          _getNewNodeEstimatedSize (key newNode) (value newNode) in
        '(removedItems, removedChars) ←
          _checkCapacity_loop fuel currentCharsSize estimatedNewNodeSize cap 0 0;
        _decreaseSize this removedItems;;
        _decreaseCharsSize this removedChars;;
        mret tt
      else mret tt
  | None => mret tt
  end;;
  length ← _getSize this;
  if bool_decide (length + 1 > capacity this) then
    _removeHead;; _decreaseSize this 1;; mret tt
  else mret tt.

Definition _addNewNode (this : LRUCache) (fuel : nat) (key value : string)
    : M unit :=
  let newNode := mkNode None None value key in
  size ← _getSize this;
  let isFirstElement := bool_decide (size = 0) in
  if isFirstElement then
    _initialize newNode;;
    _increaseSize this;;
    _increaseCharsSize this (_getNewNodeEstimatedSize key value);;
    mret tt
  else
    _checkCapacity this fuel newNode;;
    _setTail newNode;;
    _increaseSize this;;
    _increaseCharsSize this (_getNewNodeEstimatedSize key value);;
    mret tt.

Definition set (this : LRUCache) (fuel : nat) (k v : string) : M unit :=
  currentNode ← _getNode k;
  match currentNode with
  | Some cn =>
      _setNode k (mkNode (next cn) (prev cn) v (key cn));;
      get k;;
      mret tt
  | None => _addNewNode this fuel k v
  end.

(** ** The iteration producers *)

(** What one [yield] hands out: [[currentNode?.key, currentNode?.value]]. *)
Definition entry : Type := option string * option string.

Definition entry_of (n : option INode) : entry := (key <$> n, value <$> n).

(** The [while] loop of [entries]; [fuel] bounds the dereferences. *)
Fixpoint entries_loop (fuel : nat) (currentNode : option INode)
    : M (list entry) :=
  match deref_key (currentNode ≫= next) with
  | Some k =>
      match fuel with
      | O => out_of_fuel
      | S fuel' =>
          n ← _getNode k;
          rest ← entries_loop fuel' n;
          mret (entry_of n :: rest)
      end
  | None => mret []
  end.

(** The sequence one run of the generator yields, most recent entry first. *)
Definition entries (fuel : nat) : M (list entry) :=
  currentNode ← _getTail;
  rest ← entries_loop fuel currentNode;
  mret (entry_of currentNode :: rest).

Fixpoint reverseEntries_loop (fuel : nat) (currentNode : option INode)
    : M (list entry) :=
  match deref_key (currentNode ≫= prev) with
  | Some k =>
      match fuel with
      | O => out_of_fuel
      | S fuel' =>
          n ← _getNode k;
          rest ← reverseEntries_loop fuel' n;
          mret (entry_of n :: rest)
      end
  | None => mret []
  end.

Definition reverseEntries (fuel : nat) : M (list entry) :=
  currentNode ← _getHead;
  rest ← reverseEntries_loop fuel currentNode;
  mret (entry_of currentNode :: rest).

(** ** The recency list a store represents *)

(** The four keys the engine keeps its anchors and counters under. *)
Definition reserved (k : string) : Prop :=
  k ∈ [__headKeyPointer; __tailKeyPointer; __charsSizeKey; __sizeKey].

(** A key the engine handles as intended: truthy and not one of its own. *)
Definition user_key (k : string) : Prop := k ≠ "" ∧ ¬ reserved k.

(** The cached pairs, most recently used first. *)
Abbreviation lru := (list (string * string)).

Definition hdk (l : lru) (e : option string) : option string :=
  match l with [] => e | (k, _) :: _ => Some k end.

Fixpoint lastk (l : lru) (p : option string) : option string :=
  match l with [] => p | (k, _) :: l' => lastk l' (Some k) end.

(** The node records of a stretch [l] of the list that follows the key [p]
    and precedes the key [e]. *)
Fixpoint nodes (p : option string) (l : lru) (e : option string)
    : gmap string INode :=
  match l with
  | [] => ∅
  | (k, v) :: l' => <[k := mkNode (hdk l' e) p v k]> (nodes (Some k) l' e)
  end.

Definition size_cell (st : storage) : Z := or_zero (Number (st !! __sizeKey)).
Definition chars_cell (st : storage) : Z :=
  or_zero (Number (st !! __charsSizeKey)).

(** The byte cell of [st] is as the engine leaves it, and the counter, as
    it is and with [a] added, is an integer a double holds exactly: the sums
    of the source are then those of [Z]. *)
Definition bytes_exact (st : storage) (a : Z) : Prop :=
  counter_holds (st !! __charsSizeKey) (chars_cell st) ∧
  safe_integer (chars_cell st + a).

(** [st] holds the list [l], the counter [sz], and nothing else under a user
    key; [skip] names one key whose cell is left unconstrained. *)
Record repr_at (skip : option string) (sz : Z) (l : lru) (st : storage)
    : Prop := mkRepr {
  r_nodup : NoDup l.*1;
  r_user : ∀ k, k ∈ l.*1 → user_key k;
  r_tail : st !! __tailKeyPointer = hdk l None;
  r_head : st !! __headKeyPointer = lastk l None;
  r_size : size_cell st = sz;
  r_nodes : ∀ x, ¬ reserved x → Some x ≠ skip →
            st !! x = JSON.stringify <$> nodes None l None !! x;
}.

(** A well-formed, non-empty cache. *)
Definition repr (l : lru) (st : storage) : Prop :=
  l ≠ [] ∧ repr_at None (Z.of_nat (length l)) l st.

(** A store that holds no entry: the counter reads zero and no user key has a
    cell.  The anchors may hold anything. *)
Definition empty_store (st : storage) : Prop :=
  size_cell st = 0 ∧ ∀ x, ¬ reserved x → st !! x = None.

Definition entries_of (l : lru) : list entry :=
  (λ kv, (Some kv.1, Some kv.2)) <$> l.

(** The pairs of [l] other than the one under [k]. *)
Definition without (k : string) (l : lru) : lru :=
  filter (λ kv, kv.1 ≠ k) l.

(** Sum of the size estimates of the entries of [l]. *)
Definition estimates (l : lru) : Z :=
  foldr (λ kv acc, _getNewNodeEstimatedSize kv.1 kv.2 + acc) 0 l.

(** The byte policy evicts nothing when the new node fits. *)
Definition chars_fit (this : LRUCache) (st : storage) (k v : string) : Prop :=
  match charsCapacity this with
  | Some cap => cap > 0 → chars_cell st + _getNewNodeEstimatedSize k v ≤ cap
  | None => True
  end.

(** ** The cache as the specification describes it *)

Module Spec.

(** The value cached under [k], if any. *)
Fixpoint assoc (k : string) (l : lru) : option string :=
  match l with
  | [] => None
  | (k', v) :: l' => if decide (k' = k) then Some v else assoc k l'
  end.

(** Follows the spec's words: [get] returns nothing for an absent key and
    has no effect; a present key is promoted to the most recent place. *)
Definition get (l : lru) (k : string) : option string * lru :=
  match assoc k l with
  | Some v => (Some v, (k, v) :: without k l)
  | None => (None, l)
  end.

(** Follows the spec's words: [set] on a present key replaces the value and
    promotes; on an absent key it inserts at the most recent place and,
    when the count would exceed [capacity], evicts the least recent
    entry. *)
Definition set (capacity : Z) (l : lru) (k v : string) : lru :=
  match assoc k l with
  | Some _ => (k, v) :: without k l
  | None =>
      if bool_decide (Z.of_nat (length l) + 1 > capacity)
      then (k, v) :: removelast l
      else (k, v) :: l
  end.

End Spec.

(** A public operation and a run of them. *)
Inductive op : Type :=
  | OpSet (k v : string)
  | OpGet (k : string).

Definition op_key (o : op) : string :=
  match o with OpSet k _ => k | OpGet k => k end.

(** What the operation hands back: the value of a [get], nothing for [set]. *)
Definition exec (this : LRUCache) (fuel : nat) (o : op) : M (option string) :=
  match o with
  | OpSet k v => set this fuel k v;; mret None
  | OpGet k => get k
  end.

Fixpoint run (this : LRUCache) (fuel : nat) (ops : list op)
    : M (list (option string)) :=
  match ops with
  | [] => mret []
  | o :: ops' =>
      r ← exec this fuel o;
      rs ← run this fuel ops';
      mret (r :: rs)
  end.

Definition spec_exec (capacity : Z) (l : lru) (o : op) : option string * lru :=
  match o with
  | OpSet k v => (None, Spec.set capacity l k v)
  | OpGet k => Spec.get l k
  end.

Fixpoint spec_run (capacity : Z) (l : lru) (ops : list op)
    : list (option string) * lru :=
  match ops with
  | [] => ([], l)
  | o :: ops' =>
      let '(r, l') := spec_exec capacity l o in
      let '(rs, l'') := spec_run capacity l' ops' in
      (r :: rs, l'')
  end.

(** What a run maintains: the store is empty, or it holds the list of the
    specification and that list respects the capacity. *)
Definition inv (capacity : Z) (l : lru) (st : storage) : Prop :=
  (l = [] ∧ empty_store st) ∨
  (repr l st ∧ Z.of_nat (length l) ≤ capacity).

(** A run that never evicts and never overwrites: every [set] brings a new key
    that both policies admit as the cache stands. *)
Fixpoint quiet (this : LRUCache) (l : lru) (ops : list op) : bool :=
  match ops with
  | [] => true
  | OpGet k :: ops' => quiet this (Spec.get l k).2 ops'
  | OpSet k v :: ops' =>
      bool_decide (Spec.assoc k l = None)
      && bool_decide (Z.of_nat (length l) + 1 ≤ capacity this)
      && match charsCapacity this with
         | Some cap =>
             bool_decide (l = [] ∨
               _getMetadataEstimatedCharsSize + estimates l
               + _getNewNodeEstimatedSize k v ≤ cap)
         | None => true
         end
      && quiet this ((k, v) :: l) ops'
  end.

(** What a quiet run maintains. *)
Definition bytes_inv (l : lru) (st : storage) : Prop :=
  (l = [] ∧ empty_store st) ∨
  (repr l st ∧
   chars_cell st = _getMetadataEstimatedCharsSize + estimates l).

(** ** function memoize *)

Module Memoize.

(** The values that flow through the adapter: arguments, results and
    cached values. *)
Inductive jsval : Type :=
  | VUndefined
  | VNull
  | VBool (b : bool)
  | VNum (z : Z)
  | VStr (s : string).

Definition truthy_val (v : jsval) : bool :=
  match v with
  | VUndefined | VNull => false
  | VBool b => b
  | VNum z => negb (z =? 0)
  | VStr s => truthy_string s
  end.

(** A property as the run-time checks see it. *)
Inductive prop (F : Type) : Type :=
  | PUndefined
  | PNull
  | PFunction (f : F)
  | POther.
Arguments PUndefined {F}.
Arguments PNull {F}.
Arguments PFunction {F} f.
Arguments POther {F}.

(** What a run of the wrapper does that its caller can observe. *)
Inductive event : Type :=
  | CacheUsed (args : list jsval)
  | FuncCalled (args : list jsval)
  | LoggedError (e : exn) (args : list jsval)
  | Invoked (args : list jsval).

Section Adapter.

(** The state of the cache object, whatever it is. *)
Context {C : Type}.

(** [generateKey(JSON.stringify(args))]; [md5] comes from a library. *)
Variable generateKey : list jsval → string.

Definition Func : Type := list jsval → outcome jsval.
Definition KeyResolver : Type := list jsval → outcome string.
Definition Hook : Type := list jsval → outcome unit.
Definition ErrorHook : Type := exn → list jsval → outcome unit.
Definition CacheGet : Type := string → C → outcome jsval * C.
Definition CacheSet : Type := string → jsval → C → outcome unit * C.

Inductive cache_arg : Type :=
  | CacheNullish
  | CacheObject (get : prop CacheGet) (set : prop CacheSet).

(** [LoggerFalsy] is an omitted, [undefined], [null] or otherwise falsy
    [logger]; [LoggerObject] gives what the three properties hold. *)
Inductive logger_arg : Type :=
  | LoggerFalsy
  | LoggerObject (cacheUsed funcCalled : prop Hook) (error : prop ErrorHook).

(** [interface Memoize<T>], as a caller can pass it at run time. *)
Record Memoize : Type := mkMemoize {
  func : prop Func;
  keyResolver : prop KeyResolver;
  cache : cache_arg;
  logger : logger_arg;
}.

(** What the wrapper acts on: the cache and the log of what it did. *)
Record world : Type := mkWorld {
  cache_state : C;
  trace : list event;
}.

(** A run of the wrapper: the world and the local [functionResult]. *)
Record frame : Type := mkFrame {
  outer : world;
  functionResult : jsval;
}.

Abbreviation W := (ST frame).

(** [try { body } catch (error) { handler }] *)
Definition try_catch {A} (body : W A) (handler : exn → W A) : W A := λ fr,
  match body fr with
  | (Threw e, fr') => handler e fr'
  | r => r
  end.

(** The outcome of a call into code the adapter was given. *)
Definition lift {A} (o : outcome A) : W A := λ fr, (o, fr).

Definition emit (e : event) : W unit := λ fr,
  (Done tt,
   mkFrame (mkWorld (cache_state (outer fr)) (trace (outer fr) ++ [e]))
           (functionResult fr)).

Definition assign (v : jsval) : W unit := λ fr,
  (Done tt, mkFrame (outer fr) v).

Definition read : W jsval := λ fr, (Done (functionResult fr), fr).

Definition on_cache {A} (f : C → outcome A * C) : W A := λ fr,
  let '(o, c) := f (cache_state (outer fr)) in
  (o, mkFrame (mkWorld c (trace (outer fr))) (functionResult fr)).

(** [cache.get(key)] and [cache.set(key, v)]; on a [cache] that is
    [null] or [undefined] the property access throws. *)
Definition cache_get (c : option (CacheGet * CacheSet)) (k : string)
    : W jsval :=
  match c with
  | Some (g, _) => on_cache (g k)
  | None => lift (Threw (TypeError "Cannot read properties of undefined"))
  end.

Definition cache_set (c : option (CacheGet * CacheSet)) (k : string)
    (v : jsval) : W unit :=
  match c with
  | Some (_, s) => on_cache (s k v)
  | None => lift (Threw (TypeError "Cannot read properties of undefined"))
  end.

(** The body of [memoized]; [Some v] out of the [try] block is its
    [return v]. *)
Definition memoized_body (func : Func) (keyResolver : option KeyResolver)
    (cache : option (CacheGet * CacheSet))
    (cacheUsed funcCalled : Hook) (logError : ErrorHook)
    (args : list jsval) : W jsval :=
  returned ← try_catch
    (key ← match keyResolver with
           | Some kr => lift (kr args)
           | None => mret (generateKey args)
           end;
     valueFromCache ← cache_get cache key;
     if truthy_val valueFromCache then
       emit (CacheUsed args);;
       lift (cacheUsed args);;
       mret (Some valueFromCache)
     else
       emit (FuncCalled args);;
       lift (funcCalled args);;
       emit (Invoked args);;
       r ← lift (func args);
       assign r;;
       cache_set cache key r;;
       mret None)
    (λ error,
       emit (LoggedError error args);;
       lift (logError error args);;
       mret None);
  match returned with
  | Some v => mret v
  | None =>
      result ← read;
      if truthy_val result then mret result
      else
        emit (FuncCalled args);;
        lift (funcCalled args);;
        emit (Invoked args);;
        lift (func args)
  end.

(** One call of the wrapped callable: [functionResult] starts out
    [undefined] and is gone when the call returns. *)
Definition memoized (func : Func) (keyResolver : option KeyResolver)
    (cache : option (CacheGet * CacheSet))
    (cacheUsed funcCalled : Hook) (logError : ErrorHook)
    (args : list jsval) (w : world) : outcome jsval * world :=
  let '(o, fr) :=
    memoized_body func keyResolver cache cacheUsed funcCalled logError
      args (mkFrame w VUndefined) in
  (o, outer fr).

(** A destructuring default applies to [undefined] only. *)
Definition or_default {F} (d : F) (p : prop F) : prop F :=
  match p with PUndefined => PFunction d | _ => p end.

Definition memoize (m : Memoize)
    : outcome (list jsval → world → outcome jsval * world) :=
  let '(cacheUsed, funcCalled, logError) :=
    match logger m with
    | LoggerObject cu fc er =>
        (or_default (λ _, Done tt) cu, or_default (λ _, Done tt) fc,
         or_default (λ _ _, Done tt) er)
    | LoggerFalsy =>
        (PFunction (λ _, Done tt), PFunction (λ _, Done tt),
         PFunction (λ _ _, Done tt))
    end in
  match func m, keyResolver m with
  | PFunction f, (PUndefined | PNull | PFunction _) =>
      let kr := match keyResolver m with
                | PFunction kr => Some kr
                | _ => None
                end in
      match cache m with
      | CacheObject (PFunction _) (PFunction _) | CacheNullish =>
          let c := match cache m with
                   | CacheObject (PFunction g) (PFunction s) => Some (g, s)
                   | _ => None
                   end in
          match logger m, cacheUsed, funcCalled, logError with
          | LoggerObject _ _ _, PFunction cu, PFunction fc, PFunction er =>
              Done (memoized f kr c cu fc er)
          | _, _, _, _ =>
              Threw (TypeError
                "Expected logger.cacheUsed, logger.funcCalled and logger.error must be functions")
          end
      | CacheObject _ _ => Threw (TypeError "Expected cache")
      end
  | _, _ => Threw (TypeError "Expected a function")
  end.

End Adapter.

End Memoize.

(** A small cache and a function to wrap, for concrete runs of the adapter. *)
Module MemoizeExample.
Import Memoize.

(** A cache that keeps its pairs in a list, newest first. *)
Fixpoint lookup_slot (k : string) (c : list (string * jsval)) : jsval :=
  match c with
  | [] => VUndefined
  | (k', v) :: c' => if String.eqb k' k then v else lookup_slot k c'
  end.

Definition slot_get (k : string) (c : list (string * jsval))
    : outcome jsval * list (string * jsval) :=
  (Done (lookup_slot k c), c).

Definition slot_set (k : string) (v : jsval) (c : list (string * jsval))
    : outcome unit * list (string * jsval) :=
  (Done tt, (k, v) :: c).

(** The sum of the numeric arguments, like [expensiveCalculation]. *)
Definition add : Func :=
  λ args, Done (VNum (foldr (λ a acc, match a with VNum z => z + acc | _ => acc end) 0 args)).

(** A key resolver that names the call by its argument count. *)
Definition arity_key : list jsval → string :=
  λ args, JSON.of_number (Z.of_nat (length args)).

Definition quiet : Hook := λ _, Done tt.
Definition quiet_error : ErrorHook := λ _ _, Done tt.

Definition wrapped : list jsval → world → outcome jsval * world :=
  memoized arity_key add None (Some (slot_get, slot_set))
    quiet quiet quiet_error.

End MemoizeExample.


(** ** The scenarios of the specification *)

(** The store a run leaves behind when it starts from the empty store. *)
Definition state_after (this : LRUCache) (fuel : nat) (ops : list op)
    : storage :=
  (run this fuel ops ∅).2.

Module Scenario.

(** The keys one traversal yields, most recent first. *)
Definition traversal (fuel : nat) : M (list (option string)) :=
  es ← entries fuel; mret (fst <$> es).

(** Capacity 3, no byte capacity. *)
Definition three : LRUCache := mkCache Immediate 3 None.

(** The same, over a store whose [get] hands back promises. *)
Definition promising_three : LRUCache := mkCache Promising 3 None.

(** The scenario of the specification: the four traversals it names. *)
Definition recency_on (this : LRUCache) : M (list (list (option string))) :=
  set this 0 "1" "a";; set this 0 "2" "b";; set this 0 "3" "c";;
  t1 ← traversal 3;
  set this 0 "4" "d";;
  t2 ← traversal 3;
  get "2";;
  t3 ← traversal 3;
  set this 0 "5" "e";;
  t4 ← traversal 3;
  mret [t1; t2; t3; t4].

Definition recency : M (list (list (option string))) := recency_on three.

(** Capacity 1, no byte capacity. *)
Definition one : LRUCache := mkCache Immediate 1 None.

Definition two_sets : list op := [OpSet "1" "a"; OpSet "2" "b"].

(** Capacity 100 and a byte capacity of 100, with a value of 100
    characters. *)
Definition tight : LRUCache := mkCache Immediate 100 (Some 100).

Fixpoint replicate_string (n : nat) (s : string) : string :=
  match n with O => "" | S n' => s +:+ replicate_string n' s end.

Definition large : string := replicate_string 100 "x".

(** The store after the large value went in. *)
Definition tight_one : storage := (set tight 0 "a" large ∅).2.

(** The same store once its only node has been evicted. *)
Definition tight_gone : storage := (_removeHead tight_one).2.

(** Capacity 100 and a byte capacity that three small entries fit in. *)
Definition roomy : LRUCache := mkCache Immediate 100 (Some 10000).

Definition three_ops : list op :=
  [OpSet "1" "a"; OpSet "2" "b"; OpGet "1"].

(** Capacity 2 and a byte capacity far above what is stored. *)
Definition brimful : LRUCache := mkCache Immediate 2 (Some 10000).

(** The store two insertions leave behind at capacity 1: both anchors name
    key 1, which has no record. *)
Definition dangling_anchors : storage := state_after one 0 two_sets.

(** Two entries, 2 before 1, and the record of one of them taken away out
    of band. *)
Definition missing_tail : storage := delete "2" (state_after three 0 two_sets).
Definition missing_head : storage := delete "1" (state_after three 0 two_sets).

(** Key 1, then the empty string as a key. *)
Definition empty_key_second : storage :=
  state_after three 0 [OpSet "1" "a"; OpSet "" "b"].

End Scenario.

(** ** The byte policy on the list of the specification *)

(** The [while] loop of [_checkCapacity], on the list: as long as the new
    node does not fit, the least recent entry goes and the size of its
    record, which by then has a [prev] link and no [next] link, is counted
    as freed.  [None] is a loop that does not return a well-formed cache: it
    ran out of fuel, or it reached the last entry. *)
Fixpoint evict_for_bytes (fuel : nat)
    (currentCharsSize estimatedNewNodeSize cap removedItems removedChars : Z)
    (l : lru) : option (Z * Z * lru) :=
  if bool_decide (currentCharsSize + estimatedNewNodeSize - removedChars > cap)
  then
    match fuel with
    | O => None
    | S fuel' =>
        match reverse l with
        | (h, hv) :: (p, pv) :: rest =>
            evict_for_bytes fuel' currentCharsSize estimatedNewNodeSize cap
              (removedItems + 1)
              (removedChars + _getNodeCharsSize (mkNode None (Some p) hv h))
              (reverse ((p, pv) :: rest))
        | _ => None
        end
    end
  else Some (removedItems, removedChars, l).

(** ** The earlier version of the engine and of the adapter *)

(** [src/unnamed/part_000] holds an earlier [LRUCache] and [memoize].  Its
    [_getNode], [_setNode], [_getTail], [_setTail], [_getHead],
    [_removeHead] (which returns nothing there), [_getSize] (not awaited
    there either), [_increaseSize], [__setAsTop], [get] and the two
    generators read as in [src/index.ts]; what differs is modelled here.
    Its constructor takes the storage and the capacity: [charsCapacity] is
    not read. *)
Module Earlier.

(** No byte counter is kept. *)
Definition _initialize (newNode : INode) : M unit :=
  storage_set __tailKeyPointer (key newNode);;
  storage_set __headKeyPointer (key newNode);;
  _setNode (key newNode) newNode.

(** The new node is linked in first and the capacity is checked after. *)
Definition set (this : LRUCache) (k v : string) : M unit :=
  currentNode ← _getNode k;
  match currentNode with
  | Some cn =>
      _setNode k (mkNode (next cn) (prev cn) v (key cn));;
      get k;;
      mret tt
  | None =>
      let newNode := mkNode None None v k in
      size ← _getSize this;
      let isFirstElement := bool_decide (size = 0) in
      if isFirstElement then
        _initialize newNode;;
        _increaseSize this;;
        mret tt
      else
        _setTail newNode;;
        storageSize ← _getSize this;
        if bool_decide (storageSize + 1 > capacity this) then
          _removeHead;; mret tt
        else
          _increaseSize this;; mret tt
  end.

Definition exec (this : LRUCache) (o : op) : M (option string) :=
  match o with
  | OpSet k v => set this k v;; mret None
  | OpGet k => get k
  end.

Fixpoint run (this : LRUCache) (ops : list op) : M (list (option string)) :=
  match ops with
  | [] => mret []
  | o :: ops' =>
      r ← exec this o;
      rs ← run this ops';
      mret (r :: rs)
  end.

Section Adapter.

Import Memoize.

Context {C : Type}.

(** [JSON.stringify(args)], the key when there is no resolver. *)
Variable stringify_args : list jsval → string.

Definition on_cache {A} (f : C → outcome A * C) : ST (@world C) A := λ w,
  let '(o, c) := f (cache_state w) in (o, mkWorld c (trace w)).

Definition invoke (func : Func) (args : list jsval) : ST (@world C) jsval :=
  λ w, (func args, mkWorld (cache_state w) (trace w ++ [Invoked args])).

(** [cache.get(key)] and [cache.set(key, v)]; [memoize] lets a [cache] that
    is [null] or [undefined] through, and the property access throws. *)
Definition cache_get (c : option (@CacheGet C * @CacheSet C)) (k : string)
    : ST (@world C) jsval :=
  match c with
  | Some (g, _) => on_cache (g k)
  | None => λ w, (Threw (TypeError "Cannot read properties of undefined"), w)
  end.

Definition cache_set (c : option (@CacheGet C * @CacheSet C)) (k : string)
    (v : jsval) : ST (@world C) unit :=
  match c with
  | Some (_, s) => on_cache (s k v)
  | None => λ w, (Threw (TypeError "Cannot read properties of undefined"), w)
  end.

(** The wrapped callable: no hooks, and nothing is caught. *)
Definition memoized (func : Func) (keyResolver : option KeyResolver)
    (cache : option (@CacheGet C * @CacheSet C)) (args : list jsval)
    : ST (@world C) jsval :=
  key ← match keyResolver with
         | Some kr => (λ w, (kr args, w)) : ST (@world C) string
         | None => mret (stringify_args args)
         end;
  valueFromCache ← cache_get cache key;
  if truthy_val valueFromCache then mret valueFromCache
  else
    result ← invoke func args;
    cache_set cache key result;;
    mret result.

End Adapter.

End Earlier.

(** ** The two versions over a store of promises *)

(** Two stores that differ at most in the byte counter, which the earlier
    version does not keep. *)
Definition same_but_chars (st st' : storage) : Prop :=
  ∀ x, x ≠ __charsSizeKey → st !! x = st' !! x.

(** A reference that does not lead to one of the engine's own cells. *)
Definition link_ok (o : option string) : Prop := ∀ y, o = Some y → ¬ reserved y.

Definition node_ok (n : INode) : Prop :=
  ¬ reserved (key n) ∧ link_ok (next n) ∧ link_ok (prev n).

(** Every cell under a key that is not reserved holds a node record, and
    anchors and links stay among those keys.  The list need not be
    well-formed: over a store of promises it is not. *)
Definition linked (st : storage) : Prop :=
  link_ok (st !! __tailKeyPointer) ∧ link_ok (st !! __headKeyPointer) ∧
  ∀ x s, ¬ reserved x → st !! x = Some s →
         ∃ n, s = JSON.stringify n ∧ node_ok n.

(** [m] and [m'] return the same value [a], with [Q a], from stores that
    are linked and differ at most in the byte counter, and leave such
    stores. *)
Definition sim {A} (m m' : M A) (Q : A → Prop) : Prop :=
  ∀ st st', linked st → same_but_chars st st' →
    ∃ a st1 st1',
      m st = (Done a, st1) ∧ m' st' = (Done a, st1') ∧
      linked st1 ∧ same_but_chars st1 st1' ∧ Q a.

(** Capacity 100 and a byte capacity that holds three small entries and
    not a fourth. *)
Definition snug : LRUCache := mkCache Immediate 100 (Some 440).

Definition three_sets : list op :=
  [OpSet "1" "a"; OpSet "2" "b"; OpSet "3" "c"].

(** ** What [memoize] lets through *)

Module Validation.

Import Memoize.

Definition callable {F} (p : prop F) : bool :=
  match p with PFunction _ => true | _ => false end.

(** [p != null] is false for [undefined] and [null] alike. *)
Definition nullish {F} (p : prop F) : bool :=
  match p with PUndefined | PNull => true | _ => false end.

(** A hook that is left out gets the default; one that is [null] does
    not. *)
Definition callable_or_omitted {F} (p : prop F) : bool :=
  match p with PUndefined | PFunction _ => true | _ => false end.

Definition accepted {C : Type} (m : @Memoize C) : bool :=
  callable (func m)
  && (nullish (keyResolver m) || callable (keyResolver m))
  && match cache m with
     | CacheNullish => true
     | CacheObject g s => callable g && callable s
     end
  && match logger m with
     | LoggerFalsy => false
     | LoggerObject cu fc er =>
         callable_or_omitted cu && callable_or_omitted fc
         && callable_or_omitted er
     end.

End Validation.

(** A cache that is down and a function that fails, for concrete runs of
    the adapter. *)
Module AdapterExample.

Import Memoize.

Definition down : exn := UserError "cache is down".

Definition down_get (k : string) (c : list (string * jsval))
    : outcome jsval * list (string * jsval) :=
  (Threw down, c).

Definition down_set (k : string) (v : jsval) (c : list (string * jsval))
    : outcome unit * list (string * jsval) :=
  (Threw down, c).

Definition failing : Func := λ _, Threw (UserError "no result").

(** Always [0], a falsy result. *)
Definition zero : Func := λ _, Done (VNum 0).

End AdapterExample.

(** ** The codec round trips *)

Section Codec.

Lemma append_nil_l (s : string) : "" +:+ s = s.
Proof. reflexivity. Qed.

Lemma append_cons (c : ascii) (a b : string) :
  String c a +:+ b = String c (a +:+ b).
Proof. reflexivity. Qed.

Lemma append_assoc (a b c : string) : (a +:+ b) +:+ c = a +:+ (b +:+ c).
Proof.
  induction a as [|x a IH]; [done |].
  by rewrite !append_cons, IH.
Qed.

Lemma unescape_escape_char (c : ascii) (r : string) :
  JSON.unescape (JSON.escape_char c +:+ r) =
  match JSON.unescape r with
  | Some (body, rest) => Some (String c body, rest)
  | None => None
  end.
Proof. destruct c as [[] [] [] [] [] [] [] []]; reflexivity. Qed.

Lemma unescape_escape (s rest : string) :
  JSON.unescape (JSON.escape s +:+ String JSON.dquote rest) = Some (s, rest).
Proof.
  induction s as [|c s IH]; [done |].
  cbn [JSON.escape]. by rewrite append_assoc, unescape_escape_char, IH.
Qed.

Lemma unquote_quote (s rest : string) :
  JSON.unquote (JSON.quote s +:+ rest) = Some (s, rest).
Proof.
  unfold JSON.quote. rewrite append_cons. cbn [JSON.unquote].
  change (Ascii.eqb JSON.dquote JSON.dquote) with true. cbv iota.
  rewrite append_assoc. apply unescape_escape.
Qed.

Lemma expect_prefix (p s : string) : JSON.expect p (p +:+ s) = Some s.
Proof.
  induction p as [|a p IH]; [done |].
  rewrite append_cons. cbn [JSON.expect]. by rewrite Ascii.eqb_refl.
Qed.

Lemma expect_app (p q s : string) :
  JSON.expect (p +:+ q) (p +:+ s) = JSON.expect q s.
Proof.
  induction p as [|a p IH]; [done |].
  rewrite !append_cons. cbn [JSON.expect]. by rewrite Ascii.eqb_refl.
Qed.

Lemma parse_field_some (name v rest : string) :
  JSON.parse_field name (JSON.field name (Some v) +:+ rest) =
  Some (Some v, rest).
Proof.
  unfold JSON.parse_field, JSON.field.
  rewrite !append_assoc, !expect_app, expect_prefix.
  by rewrite unquote_quote.
Qed.

Lemma parse_stringify (n : INode) : JSON.parse (JSON.stringify n) = Some n.
Proof.
  destruct n as [nx pv v k]. unfold JSON.parse, JSON.stringify.
  cbn [value key next prev].
  rewrite !expect_app, expect_prefix.
  cbn [mbind option_bind]. rewrite unquote_quote. cbn [mbind option_bind].
  rewrite !expect_app, expect_prefix.
  cbn [mbind option_bind]. rewrite unquote_quote. cbn [mbind option_bind].
  destruct nx as [nx|], pv as [pv|];
    rewrite ?parse_field_some; cbn [mbind option_bind];
    rewrite ?parse_field_some; cbn [mbind option_bind]; try reflexivity.
  change (JSON.parse_field "next" _) with
    (Some (@None string, JSON.field "prev" (Some pv) +:+ "}")).
  cbn [mbind option_bind]. by rewrite parse_field_some.
Qed.

Lemma stringify_truthy (n : INode) :
  deref_key (Some (JSON.stringify n)) = Some (JSON.stringify n).
Proof. reflexivity. Qed.

Lemma Number_of_number (z : Z) : Number (Some (JSON.of_number z)) = Some z.
Proof.
  unfold Number, JSON.of_number.
  assert (H : NilZero.int_of_string (NilZero.string_of_int (Z.to_int z)) =
              Some (Z.to_int z)).
  { apply NilZero.isi; destruct z as [|p|p]; try discriminate;
      cbn; intros [= E]; by destruct (DecimalPos.Unsigned.to_uint_nonnil p). }
  destruct (NilZero.string_of_int (Z.to_int z)) eqn:E; [discriminate |].
  rewrite H. cbn. f_equal. apply DecimalZ.of_to.
Qed.

End Codec.

(** ** Running the monad *)

Section Run.

Lemma run_bind {St A B} (m : ST St A) (f : A → ST St B) st a st' :
  m st = (Done a, st') → (m ≫= f) st = f a st'.
Proof. intros H. unfold mbind, ST_bind. by rewrite H. Qed.

Lemma run_ret {St A} (a : A) (st : St) :
  (mret a : ST St A) st = (Done a, st).
Proof. reflexivity. Qed.

Lemma run_storage_get k st : storage_get k st = (Done (st !! k), st).
Proof. reflexivity. Qed.

(** On a store that hands back values the two counters read their cells. *)
Lemma run_getSize `{!Immediate_store this} st :
  _getSize this st = (Done (size_cell st), st).
Proof.
  unfold _getSize, storage_get_unawaited, mbind, ST_bind.
  by rewrite immediate_store.
Qed.

Lemma run_getCharsSize `{!Immediate_store this} st :
  _getCharsSize this st = (Done (chars_cell st), st).
Proof.
  unfold _getCharsSize, storage_get_unawaited, mbind, ST_bind.
  by rewrite immediate_store.
Qed.

Lemma run_getSize_at `{!Immediate_store this} st z :
  size_cell st = z → _getSize this st = (Done z, st).
Proof. intros <-. apply run_getSize. Qed.

Lemma run_getCharsSize_at `{!Immediate_store this} st z :
  chars_cell st = z → _getCharsSize this st = (Done z, st).
Proof. intros <-. apply run_getCharsSize. Qed.

(** On a store that hands back promises they read 0, whatever is stored. *)
Lemma run_getSize_promising this st :
  storage_backend this = Promising → _getSize this st = (Done 0, st).
Proof.
  intros Hp. unfold _getSize, storage_get_unawaited, mbind, ST_bind.
  by rewrite Hp.
Qed.

Lemma run_getCharsSize_promising this st :
  storage_backend this = Promising → _getCharsSize this st = (Done 0, st).
Proof.
  intros Hp. unfold _getCharsSize, storage_get_unawaited, mbind, ST_bind.
  by rewrite Hp.
Qed.

Lemma run_storage_set k v st : storage_set k v st = (Done tt, <[k:=v]> st).
Proof. reflexivity. Qed.

Lemma run_setNode k n st :
  _setNode k n st = (Done tt, <[k:=JSON.stringify n]> st).
Proof. reflexivity. Qed.

End Run.

(** ** Keys *)

Section Keys.

Lemma reserved_head : reserved __headKeyPointer.
Proof. unfold reserved. set_solver. Qed.
Lemma reserved_tail : reserved __tailKeyPointer.
Proof. unfold reserved. set_solver. Qed.
Lemma reserved_chars : reserved __charsSizeKey.
Proof. unfold reserved. set_solver. Qed.
Lemma reserved_size : reserved __sizeKey.
Proof. unfold reserved. set_solver. Qed.

Lemma reserved_distinct :
  __headKeyPointer ≠ __tailKeyPointer ∧ __headKeyPointer ≠ __charsSizeKey ∧
  __headKeyPointer ≠ __sizeKey ∧ __tailKeyPointer ≠ __charsSizeKey ∧
  __tailKeyPointer ≠ __sizeKey ∧ __charsSizeKey ≠ __sizeKey.
Proof. repeat split; discriminate. Qed.

Lemma user_key_truthy k : user_key k → deref_key (Some k) = Some k.
Proof. intros [Hk _]. by destruct k. Qed.

Lemma user_key_truthy_string k : user_key k → truthy_string k = true.
Proof. intros [Hk _]. by destruct k. Qed.

End Keys.

Section Nodes.

Lemma hdk_app l1 l2 e : hdk (l1 ++ l2) e = hdk l1 (hdk l2 e).
Proof. by destruct l1 as [|[] ?]. Qed.

Lemma lastk_app l1 l2 p : lastk (l1 ++ l2) p = lastk l2 (lastk l1 p).
Proof. revert p. induction l1 as [|[k v] l1 IH]; intros p; [done | apply IH]. Qed.

Lemma lastk_nonempty l p q : l ≠ [] → lastk l p = lastk l q.
Proof. by destruct l as [|[] ?]. Qed.

Lemma nodes_app p l1 l2 e :
  nodes p (l1 ++ l2) e = nodes p l1 (hdk l2 e) ∪ nodes (lastk l1 p) l2 e.
Proof.
  revert p. induction l1 as [|[k v] l1 IH]; intros p.
  - cbn [app nodes lastk]. by rewrite (left_id_L ∅ (∪)).
  - cbn [app nodes lastk]. rewrite IH, hdk_app. by rewrite insert_union_l.
Qed.

Lemma nodes_lookup_None p l e x : x ∉ l.*1 → nodes p l e !! x = None.
Proof.
  revert p. induction l as [|[k v] l IH]; intros p Hx; [done |].
  cbn [nodes]. rewrite fmap_cons, not_elem_of_cons in Hx.
  destruct Hx as [Hne Hx]. rewrite lookup_insert_ne by done. by apply IH.
Qed.

Lemma nodes_lookup_Some p l e x n :
  nodes p l e !! x = Some n → x ∈ l.*1 ∧ key n = x.
Proof.
  revert p. induction l as [|[k v] l IH]; intros p; [done |].
  cbn [nodes]. rewrite fmap_cons, lookup_insert. case_decide as Hk.
  - intros [= <-]. subst. split; [left | done].
  - intros H. apply IH in H as [? ?]. split; [by right | done].
Qed.

Lemma nodes_lookup_mid p l1 k v l2 e :
  k ∉ l1.*1 →
  nodes p (l1 ++ (k, v) :: l2) e !! k =
  Some (mkNode (hdk l2 e) (lastk l1 p) v k).
Proof.
  intros Hk. rewrite nodes_app, lookup_union, (nodes_lookup_None _ _ _ _ Hk).
  cbn [nodes]. by rewrite lookup_insert_eq.
Qed.

End Nodes.

Create HintDb lru.
#[local] Hint Resolve reserved_head reserved_tail reserved_chars reserved_size : lru.

Ltac solve_ne :=
  first
    [ done
    | congruence
    | discriminate
    | (intros ->; solve [eauto with lru])
    | (intros <-; solve [eauto with lru])
    | (intros [= ->]; solve [eauto with lru])
    | (intros [= <-]; solve [eauto with lru]) ].

(** Rewrites the lookups through the inserts and deletes of a store whose
    keys are pairwise distinct by the hypotheses at hand. *)
Ltac lookup_ne :=
  repeat first
    [ rewrite lookup_insert_ne by solve_ne
    | rewrite lookup_delete_ne by solve_ne ].

Section Specs.

Lemma repr_at_weaken skip sz l st :
  repr_at None sz l st → repr_at skip sz l st.
Proof. intros [? ? ? ? ? Hn]. split; try done. intros x Hx _. by apply Hn. Qed.

Lemma getNode_spec skip sz l st x :
  repr_at skip sz l st → ¬ reserved x → Some x ≠ skip →
  _getNode x st = (Done (nodes None l None !! x), st).
Proof.
  intros R Hx Hs. unfold _getNode.
  erewrite run_bind by apply run_storage_get.
  rewrite (r_nodes _ _ _ _ R x Hx Hs).
  destruct (nodes None l None !! x) as [n|]; [| done].
  cbn [fmap option_fmap option_map].
  by rewrite stringify_truthy, parse_stringify.
Qed.

Lemma getSize_spec `{!Immediate_store this} skip sz l st :
  repr_at skip sz l st → _getSize this st = (Done sz, st).
Proof. intros R. by rewrite run_getSize, (r_size _ _ _ _ R). Qed.

Lemma repr_at_set_size skip sz l st z :
  repr_at skip sz l st →
  repr_at skip z l (<[__sizeKey := JSON.of_number z]> st).
Proof.
  intros [? ? Ht Hh Hs Hn]. pose proof reserved_distinct as (?&?&?&?&?&?).
  split; try done.
  - by rewrite lookup_insert_ne.
  - by rewrite lookup_insert_ne.
  - unfold size_cell. by rewrite lookup_insert_eq, Number_of_number.
  - intros x Hx Hk. rewrite lookup_insert_ne by solve_ne. by apply Hn.
Qed.

Lemma repr_at_set_chars skip sz l st s :
  repr_at skip sz l st → repr_at skip sz l (<[__charsSizeKey := s]> st).
Proof.
  intros [? ? Ht Hh Hs Hn]. pose proof reserved_distinct as (?&?&?&?&?&?).
  split; try done.
  - by rewrite lookup_insert_ne.
  - by rewrite lookup_insert_ne.
  - unfold size_cell. by rewrite lookup_insert_ne.
  - intros x Hx Hk. rewrite lookup_insert_ne by solve_ne. by apply Hn.
Qed.

Lemma increaseSize_spec `{!Immediate_store this} skip sz l st :
  repr_at skip sz l st →
  ∃ st', _increaseSize this st = (Done (sz + 1), st') ∧
         repr_at skip (sz + 1) l st' ∧ chars_cell st' = chars_cell st.
Proof.
  intros R. eexists. unfold _increaseSize.
  erewrite run_bind by (eapply getSize_spec; exact R).
  erewrite run_bind by apply run_storage_set.
  split; [reflexivity |]. split; [by eapply repr_at_set_size |].
  unfold chars_cell. pose proof reserved_distinct as (?&?&?&?&?&?).
  by rewrite lookup_insert_ne.
Qed.

Lemma decreaseSize_spec `{!Immediate_store this} skip sz l st d :
  repr_at skip sz l st →
  ∃ st', _decreaseSize this d st = (Done (sz - d), st') ∧
         repr_at skip (sz - d) l st' ∧ chars_cell st' = chars_cell st.
Proof.
  intros R. eexists. unfold _decreaseSize.
  erewrite run_bind by (eapply getSize_spec; exact R).
  erewrite run_bind by apply run_storage_set.
  split; [reflexivity |]. split; [by eapply repr_at_set_size |].
  unfold chars_cell. pose proof reserved_distinct as (?&?&?&?&?&?).
  by rewrite lookup_insert_ne.
Qed.

Lemma increaseCharsSize_spec `{!Immediate_store this} skip sz l st d :
  repr_at skip sz l st →
  ∃ st', _increaseCharsSize this d st = (Done (chars_cell st + d), st') ∧
         repr_at skip sz l st' ∧ chars_cell st' = chars_cell st + d.
Proof.
  intros R. eexists. unfold _increaseCharsSize.
  erewrite run_bind by apply run_getCharsSize.
  erewrite run_bind by apply run_storage_set.
  split; [reflexivity |]. split; [by eapply repr_at_set_chars |].
  unfold chars_cell at 1. by rewrite lookup_insert_eq, Number_of_number.
Qed.

Lemma decreaseCharsSize_spec `{!Immediate_store this} skip sz l st d :
  repr_at skip sz l st →
  ∃ st', _decreaseCharsSize this d st = (Done (chars_cell st - d), st') ∧
         repr_at skip sz l st' ∧ chars_cell st' = chars_cell st - d.
Proof.
  intros R. eexists. unfold _decreaseCharsSize.
  erewrite run_bind by apply run_getCharsSize.
  erewrite run_bind by apply run_storage_set.
  split; [reflexivity |]. split; [by eapply repr_at_set_chars |].
  unfold chars_cell at 1. by rewrite lookup_insert_eq, Number_of_number.
Qed.

Lemma getTail_spec skip sz t tv l st :
  repr_at skip sz ((t, tv) :: l) st → Some t ≠ skip →
  _getTail st = (Done (Some (mkNode (hdk l None) None tv t)), st).
Proof.
  intros R Hs. unfold _getTail.
  erewrite run_bind by apply run_storage_get.
  rewrite (r_tail _ _ _ _ R). cbn [hdk].
  assert (Ht : user_key t) by (apply (r_user _ _ _ _ R); left).
  rewrite (user_key_truthy _ Ht).
  erewrite getNode_spec; [| exact R | apply Ht | done].
  cbn [nodes]. by rewrite lookup_insert_eq.
Qed.

Lemma NoDup_snoc_keys (l0 : lru) h hv :
  NoDup ((l0 ++ [(h, hv)]).*1) → (h ∉ l0.*1) ∧ NoDup (l0.*1).
Proof.
  rewrite fmap_app, NoDup_app. intros (Hl & Hd & _). split; [| done].
  intros Hin. apply (Hd _ Hin). cbn. left.
Qed.

Lemma getHead_spec sz l0 h hv st :
  repr_at None sz (l0 ++ [(h, hv)]) st →
  _getHead st = (Done (Some (mkNode None (lastk l0 None) hv h)), st).
Proof.
  intros R. unfold _getHead.
  erewrite run_bind by apply run_storage_get.
  rewrite (r_head _ _ _ _ R), lastk_app. cbn [lastk].
  assert (Hh : user_key h).
  { apply (r_user _ _ _ _ R). rewrite fmap_app, elem_of_app. right. left. }
  rewrite (user_key_truthy _ Hh).
  erewrite getNode_spec; [| exact R | apply Hh | done].
  destruct (NoDup_snoc_keys _ _ _ (r_nodup _ _ _ _ R)) as [Hn _].
  by rewrite nodes_lookup_mid.
Qed.

(** Linking a node in at the most-recent end.  The cell under the node's
    own key may hold anything before. *)
Lemma setTail_spec sz l st nx pv k v :
  repr_at (Some k) sz l st → l ≠ [] → k ∉ l.*1 → user_key k →
  ∃ st', _setTail (mkNode nx pv v k) st = (Done tt, st') ∧
         repr_at None sz ((k, v) :: l) st' ∧
         chars_cell st' = chars_cell st.
Proof.
  intros R Hl Hk Hu. destruct l as [|[t tv] l]; [done |].
  assert (Ht : user_key t) by (apply (r_user _ _ _ _ R); left).
  assert (Hkt : t ≠ k) by (intros ->; apply Hk; left).
  destruct Hu as [Hk0 Hkr]. destruct Ht as [Ht0 Htr].
  pose proof reserved_distinct as (?&?&?&?&?&?).
  eexists. unfold _setTail.
  erewrite run_bind by (eapply getTail_spec; [exact R | congruence]).
  cbn [key value next prev]. rewrite bool_decide_true by done.
  erewrite run_bind by apply run_setNode.
  erewrite run_bind by apply run_setNode.
  rewrite run_storage_set.
  split; [reflexivity |]. split; [split |].
  - cbn. apply NoDup_cons. split; [done | apply (r_nodup _ _ _ _ R)].
  - intros x. rewrite fmap_cons, elem_of_cons. intros [-> | Hx]; [done |].
    by apply (r_user _ _ _ _ R).
  - by rewrite lookup_insert_eq.
  - lookup_ne. rewrite (r_head _ _ _ _ R). reflexivity.
  - unfold size_cell. lookup_ne. apply (r_size _ _ _ _ R).
  - intros x Hx _. cbn [nodes hdk].
    rewrite (lookup_insert_ne _ __tailKeyPointer) by solve_ne.
    destruct (decide (x = k)) as [-> | Hxk].
    { by rewrite !lookup_insert_eq. }
    rewrite !(lookup_insert_ne _ k) by done.
    destruct (decide (x = t)) as [-> | Hxt].
    { by rewrite !lookup_insert_eq. }
    rewrite !(lookup_insert_ne _ t) by done.
    rewrite (r_nodes _ _ _ _ R x Hx) by congruence.
    cbn [nodes]. by rewrite lookup_insert_ne.
  - unfold chars_cell. by lookup_ne.
Qed.

Lemma run_storage_delete k st :
  storage_delete k st = (Done (bool_decide (is_Some (st !! k))), delete k st).
Proof. reflexivity. Qed.

(** Evicting the least recent node of a list of two or more. *)
Lemma removeHead_spec sz l0 p pv h hv st :
  repr_at None sz (l0 ++ [(p, pv); (h, hv)]) st →
  ∃ st', _removeHead st = (Done (Some (mkNode None (Some p) hv h)), st') ∧
         repr_at None sz (l0 ++ [(p, pv)]) st' ∧
         chars_cell st' = chars_cell st.
Proof.
  intros R.
  assert (E : l0 ++ [(p, pv); (h, hv)] = (l0 ++ [(p, pv)]) ++ [(h, hv)])
    by by rewrite <- app_assoc.
  assert (R' := R). rewrite E in R'.
  destruct (NoDup_snoc_keys _ _ _ (r_nodup _ _ _ _ R')) as [Hh ND].
  destruct (NoDup_snoc_keys _ _ _ ND) as [Hp ND0].
  assert (Hhp : h ≠ p).
  { intros ->. apply Hh. rewrite fmap_app, elem_of_app. right. left. }
  assert (Hh0 : h ∉ l0.*1).
  { intros Hin. apply Hh. rewrite fmap_app, elem_of_app. by left. }
  assert (Uh : user_key h).
  { apply (r_user _ _ _ _ R'). rewrite fmap_app, elem_of_app. right. left. }
  assert (Up : user_key p).
  { apply (r_user _ _ _ _ R). rewrite fmap_app, elem_of_app. right. left. }
  pose proof reserved_distinct as (?&?&?&?&?&?).
  eexists. unfold _removeHead.
  erewrite run_bind by (eapply getHead_spec; exact R').
  rewrite lastk_app. cbn [lastk prev key].
  rewrite (user_key_truthy _ Up), (user_key_truthy_string _ Uh).
  erewrite run_bind; cycle 1.
  { erewrite run_bind;
      [| eapply getNode_spec; [exact R | apply Up | done] ].
    rewrite nodes_lookup_mid by done. cbn [hdk key value prev next].
    erewrite run_bind by apply run_setNode. apply run_storage_set. }
  erewrite run_bind; cycle 1.
  { erewrite run_bind by apply run_storage_delete. apply run_ret. }
  rewrite run_ret. destruct Uh as [_ Uh], Up as [_ Up].
  split; [reflexivity |]. split; [split |].
  - done.
  - intros x Hx. apply (r_user _ _ _ _ R). rewrite E, fmap_app, elem_of_app.
    by left.
  - lookup_ne. rewrite (r_tail _ _ _ _ R). by rewrite !hdk_app.
  - lookup_ne. by rewrite lookup_insert_eq, lastk_app.
  - unfold size_cell. lookup_ne. apply (r_size _ _ _ _ R).
  - intros x Hx _. rewrite !nodes_app, !lookup_union. cbn [nodes hdk].
    destruct (decide (x = h)) as [-> | Hxh].
    { rewrite lookup_delete_eq, (nodes_lookup_None _ _ _ _ Hh0).
      by rewrite lookup_insert_ne, lookup_empty by done. }
    lookup_ne.
    destruct (decide (x = p)) as [-> | Hxp].
    { rewrite !lookup_insert_eq, (nodes_lookup_None _ _ _ _ Hp).
      by rewrite !(left_id_L None (∪)). }
    lookup_ne. rewrite (r_nodes _ _ _ _ R x Hx) by done.
    rewrite nodes_app, lookup_union. cbn [nodes hdk]. by lookup_ne.
  - unfold chars_cell. by lookup_ne.
Qed.

Lemma NoDup_mid_keys (l1 : lru) k v (l2 : lru) :
  NoDup ((l1 ++ (k, v) :: l2).*1) →
  (k ∉ l1.*1) ∧ (k ∉ l2.*1) ∧ NoDup ((l1 ++ l2).*1).
Proof.
  rewrite !fmap_app, fmap_cons, !NoDup_app, NoDup_cons. cbn [fst].
  intros (H1 & Hd & Hk & H2). repeat split; try done.
  - intros Hin. apply (Hd _ Hin). left.
  - intros x Hx Hx2. apply (Hd _ Hx). by right.
Qed.

(** Unlinking the least recent node [k] from its neighbour [p]; the cell of
    [k] stays behind. *)
Lemma unlink_last sz l1 p pv k v st :
  repr_at None sz (l1 ++ [(p, pv); (k, v)]) st →
  repr_at (Some k) sz (l1 ++ [(p, pv)])
    (<[__headKeyPointer := p]>
       (<[p := JSON.stringify (mkNode None (lastk l1 None) pv p)]> st)).
Proof.
  intros R.
  assert (E : l1 ++ [(p, pv); (k, v)] = (l1 ++ [(p, pv)]) ++ [(k, v)])
    by by rewrite <- app_assoc.
  assert (R' := R). rewrite E in R'.
  destruct (NoDup_snoc_keys _ _ _ (r_nodup _ _ _ _ R')) as [Hk ND].
  destruct (NoDup_snoc_keys _ _ _ ND) as [Hp ND0].
  assert (Up : user_key p).
  { apply (r_user _ _ _ _ R). rewrite fmap_app, elem_of_app. right. left. }
  destruct Up as [_ Up].
  pose proof reserved_distinct as (?&?&?&?&?&?).
  split.
  - done.
  - intros x Hx. apply (r_user _ _ _ _ R). rewrite E, fmap_app, elem_of_app.
    by left.
  - lookup_ne. rewrite (r_tail _ _ _ _ R). by rewrite !hdk_app.
  - by rewrite lookup_insert_eq, lastk_app.
  - unfold size_cell. lookup_ne. apply (r_size _ _ _ _ R).
  - intros x Hx Hxk. rewrite !nodes_app, !lookup_union. cbn [nodes hdk].
    lookup_ne.
    destruct (decide (x = p)) as [-> | Hxp].
    { rewrite !lookup_insert_eq, (nodes_lookup_None _ _ _ _ Hp).
      by rewrite !(left_id_L None (∪)). }
    lookup_ne. rewrite (r_nodes _ _ _ _ R x Hx) by done.
    rewrite nodes_app, lookup_union. cbn [nodes hdk]. by lookup_ne.
Qed.

(** Unlinking a node [k] that has neighbours on both sides. *)
Lemma unlink_mid sz l1 p pv k v n nv l2 st :
  repr_at None sz (l1 ++ (p, pv) :: (k, v) :: (n, nv) :: l2) st →
  repr_at (Some k) sz (l1 ++ (p, pv) :: (n, nv) :: l2)
    (<[n := JSON.stringify (mkNode (hdk l2 None) (Some p) nv n)]>
       (<[p := JSON.stringify (mkNode (Some n) (lastk l1 None) pv p)]> st)).
Proof.
  intros R.
  assert (E : l1 ++ (p, pv) :: (k, v) :: (n, nv) :: l2 =
              (l1 ++ [(p, pv)]) ++ (k, v) :: (n, nv) :: l2)
    by by rewrite <- app_assoc.
  pose proof (r_nodup _ _ _ _ R) as ND. rewrite E in ND.
  apply NoDup_mid_keys in ND as (Hk1 & Hk2 & ND).
  rewrite <- app_assoc in ND. cbn [app] in ND.
  pose proof (NoDup_mid_keys _ _ _ _ ND) as (Hp1 & Hp2 & ND').
  pose proof (NoDup_mid_keys l1 p pv ((k, v) :: (n, nv) :: l2)
                (r_nodup _ _ _ _ R)) as (_ & Hp3 & _).
  assert (Hnp : n ≠ p) by (intros ->; apply Hp2; left).
  assert (Hn1 : n ∉ l1.*1).
  { pose proof (NoDup_mid_keys (l1 ++ [(p, pv)]) n nv l2) as Hx.
    rewrite <- app_assoc in Hx. destruct (Hx ND) as (Hn & _).
    intros Hin. apply Hn. rewrite fmap_app, elem_of_app. by left. }
  assert (Up : user_key p).
  { apply (r_user _ _ _ _ R). rewrite fmap_app, elem_of_app. right. left. }
  assert (Un : user_key n).
  { apply (r_user _ _ _ _ R). rewrite fmap_app, elem_of_app. right.
    do 2 right. left. }
  destruct Up as [_ Up], Un as [_ Un].
  pose proof reserved_distinct as (?&?&?&?&?&?).
  split.
  - done.
  - intros x Hx. apply (r_user _ _ _ _ R).
    rewrite fmap_app, elem_of_app in Hx. rewrite fmap_app, elem_of_app.
    destruct Hx as [Hx | Hx]; [by left | right].
    rewrite !fmap_cons, !elem_of_cons in Hx. rewrite !fmap_cons, !elem_of_cons.
    tauto.
  - lookup_ne. rewrite (r_tail _ _ _ _ R). by rewrite !hdk_app.
  - lookup_ne. rewrite (r_head _ _ _ _ R). by rewrite !lastk_app.
  - unfold size_cell. lookup_ne. apply (r_size _ _ _ _ R).
  - intros x Hx Hxk. rewrite !nodes_app, !lookup_union. cbn [nodes hdk].
    destruct (decide (x = n)) as [-> | Hxn].
    { rewrite lookup_insert_eq, (nodes_lookup_None _ _ _ _ Hn1).
      lookup_ne. by rewrite lookup_insert_eq, !(left_id_L None (∪)). }
    lookup_ne.
    destruct (decide (x = p)) as [-> | Hxp].
    { rewrite !lookup_insert_eq, (nodes_lookup_None _ _ _ _ Hp1).
      by rewrite !(left_id_L None (∪)). }
    lookup_ne. rewrite (r_nodes _ _ _ _ R x Hx) by done.
    rewrite nodes_app, lookup_union. cbn [nodes hdk]. by lookup_ne.
Qed.

Lemma lru_snoc (l : lru) : l ≠ [] → ∃ l' p pv, l = l' ++ [(p, pv)].
Proof.
  destruct l as [|x l] using rev_ind; [done |]. intros _.
  destruct x as [p pv]. by exists l, p, pv.
Qed.

(** Promoting a node that is not the most recent one. *)
Lemma setAsTop_spec sz l1 k v l2 st :
  repr_at None sz (l1 ++ (k, v) :: l2) st → l1 ≠ [] →
  ∃ st', __setAsTop (mkNode (hdk l2 None) (lastk l1 None) v k) st
           = (Done tt, st') ∧
         repr_at None sz ((k, v) :: l1 ++ l2) st' ∧
         chars_cell st' = chars_cell st.
Proof.
  intros R Hl1. destruct (lru_snoc _ Hl1) as (l0 & p & pv & ->).
  rewrite <- app_assoc in R. cbn [app] in R.
  pose proof (NoDup_mid_keys (l0 ++ [(p, pv)]) k v l2) as HK.
  rewrite <- !app_assoc in HK. cbn [app] in HK.
  destruct (HK (r_nodup _ _ _ _ R)) as (Hk1 & Hk2 & ND). clear HK.
  pose proof (NoDup_mid_keys l0 p pv ((k, v) :: l2) (r_nodup _ _ _ _ R))
    as (Hp0 & Hp2 & _).
  assert (Up : user_key p).
  { apply (r_user _ _ _ _ R). rewrite fmap_app, elem_of_app. right. left. }
  assert (Uk : user_key k).
  { apply (r_user _ _ _ _ R). rewrite fmap_app, elem_of_app. right.
    right. left. }
  assert (Hkin : k ∉ ((l0 ++ [(p, pv)]) ++ l2).*1).
  { rewrite fmap_app, elem_of_app. tauto. }
  assert (Hne : (l0 ++ [(p, pv)]) ++ l2 ≠ []) by by destruct l0.
  unfold __setAsTop. rewrite lastk_app. cbn [lastk prev next].
  rewrite (user_key_truthy _ Up).
  erewrite run_bind; [| eapply getNode_spec; [exact R | apply Up | done] ].
  rewrite nodes_lookup_mid by done. cbn [hdk].
  destruct l2 as [|[n nv] l2].
  - cbn [hdk deref_key].
    erewrite run_bind by apply run_ret. cbn [key value prev next].
    erewrite run_bind by apply run_setNode.
    erewrite run_bind by apply run_ret.
    erewrite run_bind by apply run_storage_set.
    rewrite app_nil_r in *.
    pose proof (unlink_last _ _ _ _ _ _ _ R) as R2.
    destruct (setTail_spec _ _ _ None (Some p) k v R2 Hne Hkin Uk)
      as (st' & Hrun & Hrep & Hch).
    exists st'. split; [exact Hrun |]. split; [done |].
    rewrite Hch. unfold chars_cell. destruct Up as [_ Up].
    pose proof reserved_distinct as (?&?&?&?&?&?). by lookup_ne.
  - assert (Un : user_key n).
    { apply (r_user _ _ _ _ R). rewrite fmap_app, elem_of_app. right.
      do 2 right. left. }
    cbn [hdk]. rewrite (user_key_truthy _ Un).
    erewrite run_bind; [| eapply getNode_spec; [exact R | apply Un | done] ].
    pose proof (NoDup_mid_keys (l0 ++ [(p, pv); (k, v)]) n nv l2) as HN.
    rewrite <- !app_assoc in HN. cbn [app] in HN.
    destruct (HN (r_nodup _ _ _ _ R)) as (Hn1 & _). clear HN.
    assert (E : l0 ++ (p, pv) :: (k, v) :: (n, nv) :: l2 =
                (l0 ++ [(p, pv); (k, v)]) ++ (n, nv) :: l2)
      by by rewrite <- app_assoc.
    rewrite E, nodes_lookup_mid, lastk_app by done.
    cbn [lastk key value prev next].
    erewrite run_bind by apply run_setNode.
    erewrite run_bind by apply run_setNode.
    erewrite run_bind by apply run_ret.
    rewrite <- app_assoc in *. cbn [app] in *.
    pose proof (unlink_mid _ _ _ _ _ _ _ _ _ _ R) as R2.
    destruct (setTail_spec _ _ _ (Some n) (Some p) k v R2 Hne Hkin Uk)
      as (st' & Hrun & Hrep & Hch).
    exists st'. split; [exact Hrun |]. split; [done |].
    rewrite Hch. unfold chars_cell. destruct Up as [_ Up], Un as [_ Un].
    by lookup_ne.
Qed.

Lemma get_hit sz l1 k v l2 st :
  repr_at None sz (l1 ++ (k, v) :: l2) st →
  ∃ st', get k st = (Done (Some v), st') ∧
         repr_at None sz ((k, v) :: l1 ++ l2) st' ∧
         chars_cell st' = chars_cell st.
Proof.
  intros R.
  destruct (NoDup_mid_keys _ _ _ _ (r_nodup _ _ _ _ R)) as (Hk1 & Hk2 & ND).
  assert (Uk : user_key k).
  { apply (r_user _ _ _ _ R). rewrite fmap_app, elem_of_app. right. left. }
  unfold get.
  erewrite run_bind; [| eapply getNode_spec; [exact R | apply Uk | done] ].
  rewrite nodes_lookup_mid by done.
  erewrite run_bind by apply run_storage_get.
  rewrite (r_tail _ _ _ _ R). cbn [key value].
  destruct l1 as [|[t tv] l1].
  - cbn [app hdk]. rewrite bool_decide_false by (by intros []).
    erewrite run_bind by apply run_ret. by exists st.
  - cbn [app hdk].
    assert (Hkt : k ≠ t) by (intros ->; apply Hk1; left).
    rewrite bool_decide_true by congruence.
    destruct (setAsTop_spec _ _ _ _ _ _ R) as (st' & Hrun & R' & Hch); [done |].
    erewrite run_bind by exact Hrun. by exists st'.
Qed.

Lemma get_miss sz l k st :
  repr_at None sz l st → k ∉ l.*1 → ¬ reserved k →
  get k st = (Done None, st).
Proof.
  intros R Hk Hr. unfold get.
  erewrite run_bind; [| eapply getNode_spec; [exact R | done ..] ].
  by rewrite nodes_lookup_None.
Qed.

Lemma replace_value sz l1 k v0 v l2 st :
  repr_at None sz (l1 ++ (k, v0) :: l2) st →
  repr_at None sz (l1 ++ (k, v) :: l2)
    (<[k := JSON.stringify (mkNode (hdk l2 None) (lastk l1 None) v k)]> st).
Proof.
  intros R.
  destruct (NoDup_mid_keys _ _ _ _ (r_nodup _ _ _ _ R)) as (Hk1 & Hk2 & ND).
  assert (E : (l1 ++ (k, v) :: l2).*1 = (l1 ++ (k, v0) :: l2).*1)
    by by rewrite !fmap_app, !fmap_cons.
  assert (Uk : user_key k).
  { apply (r_user _ _ _ _ R). rewrite fmap_app, elem_of_app. right. left. }
  destruct Uk as [_ Uk].
  pose proof reserved_distinct as (?&?&?&?&?&?).
  split.
  - rewrite E. apply (r_nodup _ _ _ _ R).
  - rewrite E. apply (r_user _ _ _ _ R).
  - lookup_ne. rewrite (r_tail _ _ _ _ R). by rewrite !hdk_app.
  - lookup_ne. rewrite (r_head _ _ _ _ R). by rewrite !lastk_app.
  - unfold size_cell. lookup_ne. apply (r_size _ _ _ _ R).
  - intros x Hx _. rewrite nodes_app, lookup_union. cbn [nodes].
    destruct (decide (x = k)) as [-> | Hxk].
    { rewrite !lookup_insert_eq, (nodes_lookup_None _ _ _ _ Hk1).
      by rewrite (left_id_L None (∪)). }
    lookup_ne. rewrite (r_nodes _ _ _ _ R x Hx) by done.
    rewrite nodes_app, lookup_union. cbn [nodes]. by lookup_ne.
Qed.

Lemma set_existing this fuel sz l1 k v0 v l2 st :
  repr_at None sz (l1 ++ (k, v0) :: l2) st →
  ∃ st', set this fuel k v st = (Done tt, st') ∧
         repr_at None sz ((k, v) :: l1 ++ l2) st' ∧
         chars_cell st' = chars_cell st.
Proof.
  intros R.
  destruct (NoDup_mid_keys _ _ _ _ (r_nodup _ _ _ _ R)) as (Hk1 & Hk2 & ND).
  assert (Uk : user_key k).
  { apply (r_user _ _ _ _ R). rewrite fmap_app, elem_of_app. right. left. }
  unfold set.
  erewrite run_bind; [| eapply getNode_spec; [exact R | apply Uk | done] ].
  rewrite nodes_lookup_mid by done. cbn [key value next prev].
  erewrite run_bind by apply run_setNode.
  destruct (get_hit _ _ _ _ _ _ (replace_value _ _ _ _ v _ _ R))
    as (st' & Hrun & R' & Hch).
  erewrite run_bind by exact Hrun. rewrite run_ret.
  exists st'. split; [done |]. split; [done |]. rewrite Hch.
  unfold chars_cell. destruct Uk as [_ Uk]. by lookup_ne.
Qed.

Lemma metadata_size : _getMetadataEstimatedCharsSize = 291.
Proof. reflexivity. Qed.

(** The first insertion, into a store that holds no entry. *)
Lemma set_first this `{!Immediate_store this} fuel k v st :
  empty_store st → user_key k →
  ∃ st', set this fuel k v st = (Done tt, st') ∧
         repr_at None 1 [(k, v)] st' ∧
         chars_cell st' = 291 + _getNewNodeEstimatedSize k v.
Proof.
  intros [Hsz Hemp] [Hk0 Hkr].
  pose proof reserved_distinct as (?&?&?&?&?&?).
  eexists. unfold set, _getNode.
  erewrite run_bind;
    [| erewrite run_bind by apply run_storage_get;
       rewrite (Hemp k Hkr); apply run_ret ].
  unfold _addNewNode.
  erewrite run_bind by apply run_getSize.
  rewrite Hsz, bool_decide_true by done.
  unfold _initialize. cbn [key].
  erewrite run_bind; cycle 1.
  { erewrite run_bind by apply run_storage_set.
    erewrite run_bind by apply run_storage_set.
    erewrite run_bind by apply run_storage_set.
    apply run_setNode. }
  unfold _increaseSize.
  erewrite run_bind; cycle 1.
  { erewrite run_bind
      by (apply run_getSize_at; unfold size_cell; lookup_ne; exact Hsz).
    erewrite run_bind by apply run_storage_set. apply run_ret. }
  unfold _increaseCharsSize.
  erewrite run_bind; cycle 1.
  { erewrite run_bind
      by (apply run_getCharsSize_at; unfold chars_cell; lookup_ne;
          by rewrite lookup_insert_eq, Number_of_number).
    erewrite run_bind by apply run_storage_set. apply run_ret. }
  rewrite run_ret, metadata_size.
  split; [reflexivity |]. split; [split |].
  - cbn. apply NoDup_singleton.
  - intros x. cbn. rewrite list_elem_of_singleton. by intros ->.
  - lookup_ne. by rewrite lookup_insert_eq.
  - lookup_ne. by rewrite lookup_insert_eq.
  - unfold size_cell. lookup_ne. by rewrite lookup_insert_eq, Number_of_number.
  - intros x Hx _. cbn [nodes hdk]. lookup_ne.
    destruct (decide (x = k)) as [-> | Hxk].
    { by rewrite !lookup_insert_eq. }
    lookup_ne. by rewrite lookup_empty, Hemp.
  - unfold chars_cell. by rewrite lookup_insert_eq, Number_of_number.
Qed.

Lemma checkCapacity_loop_quiet fuel c e cap ri rc st :
  c + e - rc ≤ cap →
  _checkCapacity_loop fuel c e cap ri rc st = (Done (ri, rc), st).
Proof.
  intros H. destruct fuel; cbn [_checkCapacity_loop];
    by rewrite bool_decide_false by lia.
Qed.

Lemma checkCapacity_chars this `{!Immediate_store this} fuel sz l st nx pv
    k v :
  repr_at None sz l st → chars_fit this st k v →
  ∃ st',
    match charsCapacity this with
    | Some cap =>
        if bool_decide (cap > 0) then
          currentCharsSize ← _getCharsSize this;
          let estimatedNewNodeSize :=
            _getNewNodeEstimatedSize (key (mkNode nx pv v k))
              (value (mkNode nx pv v k)) in
          '(removedItems, removedChars) ←
            _checkCapacity_loop fuel currentCharsSize estimatedNewNodeSize
              cap 0 0;
          _decreaseSize this removedItems;;
          _decreaseCharsSize this removedChars;;
          mret tt
        else mret tt
    | None => mret tt
    end st = (Done tt, st') ∧
    repr_at None sz l st' ∧ chars_cell st' = chars_cell st.
Proof.
  intros R Hfit. unfold chars_fit in Hfit.
  destruct (charsCapacity this) as [cap|]; [| by exists st].
  case_bool_decide as Hcap; [| by exists st].
  specialize (Hfit Hcap).
  erewrite run_bind by apply run_getCharsSize.
  cbn [key value].
  erewrite run_bind; cycle 1.
  { apply checkCapacity_loop_quiet. lia. }
  cbn beta iota.
  destruct (decreaseSize_spec (this := this) _ _ _ _ 0 R)
    as (st1 & Hrun1 & R1 & Hch1).
  erewrite run_bind by exact Hrun1.
  destruct (decreaseCharsSize_spec (this := this) _ _ _ _ 0 R1)
    as (st2 & Hrun2 & R2 & Hch2).
  erewrite run_bind by exact Hrun2.
  exists st2. rewrite Z.sub_0_r in R2. rewrite Hch2, Hch1.
  split; [done |]. split; [exact R2 | lia].
Qed.

Lemma checkCapacity_fits this `{!Immediate_store this} fuel sz l st nx pv
    k v :
  repr_at None sz l st → chars_fit this st k v → sz + 1 ≤ capacity this →
  ∃ st', _checkCapacity this fuel (mkNode nx pv v k) st = (Done tt, st') ∧
         repr_at None sz l st' ∧ chars_cell st' = chars_cell st.
Proof.
  intros R Hfit Hcap.
  destruct (checkCapacity_chars this fuel _ _ _ nx pv k v R Hfit)
    as (st1 & Hrun & R1 & Hch).
  exists st1. unfold _checkCapacity.
  erewrite run_bind by exact Hrun.
  erewrite run_bind by (eapply getSize_spec; exact R1).
  by rewrite bool_decide_false by lia.
Qed.

Lemma checkCapacity_evict this `{!Immediate_store this} fuel sz l0 p pv h hv
    st nx pv' k v :
  repr_at None sz (l0 ++ [(p, pv); (h, hv)]) st → chars_fit this st k v →
  sz + 1 > capacity this →
  ∃ st', _checkCapacity this fuel (mkNode nx pv' v k) st = (Done tt, st') ∧
         repr_at None (sz - 1) (l0 ++ [(p, pv)]) st' ∧
         chars_cell st' = chars_cell st.
Proof.
  intros R Hfit Hcap.
  destruct (checkCapacity_chars this fuel _ _ _ nx pv' k v R Hfit)
    as (st1 & Hrun & R1 & Hch).
  destruct (removeHead_spec _ _ _ _ _ _ _ R1) as (st2 & Hrun2 & R2 & Hch2).
  destruct (decreaseSize_spec (this := this) _ _ _ _ 1 R2)
    as (st3 & Hrun3 & R3 & Hch3).
  exists st3. unfold _checkCapacity.
  erewrite run_bind by exact Hrun.
  erewrite run_bind by (eapply getSize_spec; exact R1).
  rewrite bool_decide_true by lia.
  erewrite run_bind by exact Hrun2.
  erewrite run_bind by exact Hrun3.
  split; [done |]. split; [done | congruence].
Qed.

Lemma addNewNode_rest this `{!Immediate_store this} sz l st nx pv k v :
  repr_at None sz l st → l ≠ [] → k ∉ l.*1 → user_key k →
  ∃ st', (_setTail (mkNode nx pv v k);;
          _increaseSize this;;
          _increaseCharsSize this (_getNewNodeEstimatedSize k v);;
          mret tt) st = (Done tt, st') ∧
         repr_at None (sz + 1) ((k, v) :: l) st' ∧
         chars_cell st' = chars_cell st + _getNewNodeEstimatedSize k v.
Proof.
  intros R Hl Hk Uk.
  destruct (setTail_spec _ _ _ nx pv k v (repr_at_weaken (Some k) _ _ _ R)
              Hl Hk Uk) as (st1 & Hrun1 & R1 & Hch1).
  destruct (increaseSize_spec (this := this) _ _ _ _ R1)
    as (st2 & Hrun2 & R2 & Hch2).
  destruct (increaseCharsSize_spec (this := this) _ _ _ _
              (_getNewNodeEstimatedSize k v) R2)
    as (st3 & Hrun3 & R3 & Hch3).
  exists st3.
  erewrite run_bind by exact Hrun1.
  erewrite run_bind by exact Hrun2.
  erewrite run_bind by exact Hrun3.
  split; [done |]. split; [done | congruence].
Qed.

(** Inserting a new key when neither policy has to evict. *)
Lemma set_new_fits this `{!Immediate_store this} fuel sz l st k v :
  repr_at None sz l st → l ≠ [] → sz ≠ 0 → k ∉ l.*1 → user_key k →
  chars_fit this st k v → sz + 1 ≤ capacity this →
  ∃ st', set this fuel k v st = (Done tt, st') ∧
         repr_at None (sz + 1) ((k, v) :: l) st' ∧
         chars_cell st' = chars_cell st + _getNewNodeEstimatedSize k v.
Proof.
  intros R Hl Hsz Hk Uk Hfit Hcap.
  destruct (checkCapacity_fits this fuel _ _ _ None None k v R Hfit Hcap)
    as (st1 & Hrun1 & R1 & Hch1).
  destruct (addNewNode_rest this _ _ _ None None k v R1 Hl Hk Uk)
    as (st2 & Hrun2 & R2 & Hch2).
  exists st2. unfold set.
  erewrite run_bind; [| eapply getNode_spec; [exact R | apply Uk | done] ].
  rewrite nodes_lookup_None by done. unfold _addNewNode.
  erewrite run_bind by (eapply getSize_spec; exact R).
  rewrite bool_decide_false by done.
  erewrite run_bind by exact Hrun1.
  split; [exact Hrun2 |]. split; [done | congruence].
Qed.

(** Inserting a new key into a full cache of two or more entries. *)
Lemma set_new_evict this `{!Immediate_store this} fuel sz l0 p pv h hv st
    k v :
  repr_at None sz (l0 ++ [(p, pv); (h, hv)]) st → sz ≠ 0 →
  k ∉ (l0 ++ [(p, pv); (h, hv)]).*1 → user_key k →
  chars_fit this st k v → sz + 1 > capacity this →
  ∃ st', set this fuel k v st = (Done tt, st') ∧
         repr_at None sz ((k, v) :: l0 ++ [(p, pv)]) st' ∧
         chars_cell st' = chars_cell st + _getNewNodeEstimatedSize k v.
Proof.
  intros R Hsz Hk Uk Hfit Hcap.
  destruct (checkCapacity_evict this fuel _ _ _ _ _ _ _ None None k v
              R Hfit Hcap) as (st1 & Hrun1 & R1 & Hch1).
  assert (Hk' : k ∉ (l0 ++ [(p, pv)]).*1).
  { intros Hin. apply Hk. rewrite fmap_app, elem_of_app in Hin.
    rewrite fmap_app, elem_of_app. destruct Hin as [? | Hin]; [by left |].
    right. apply list_elem_of_singleton in Hin as ->. left. }
  assert (Hl : l0 ++ [(p, pv)] ≠ []) by by destruct l0.
  destruct (addNewNode_rest this _ _ _ None None k v R1 Hl Hk' Uk)
    as (st2 & Hrun2 & R2 & Hch2).
  exists st2. unfold set.
  erewrite run_bind; [| eapply getNode_spec; [exact R | apply Uk | done] ].
  rewrite nodes_lookup_None by done. unfold _addNewNode.
  erewrite run_bind by (eapply getSize_spec; exact R).
  rewrite bool_decide_false by done.
  erewrite run_bind by exact Hrun1.
  split; [exact Hrun2 |]. replace (sz - 1 + 1) with sz in R2 by lia.
  split; [done | congruence].
Qed.

End Specs.

Section Traversal.

Lemma entries_loop_spec sz st (l2 : lru) :
  ∀ (l1 : lru) k v fuel,
    repr_at None sz (l1 ++ (k, v) :: l2) st → (length l2 ≤ fuel)%nat →
    entries_loop fuel (Some (mkNode (hdk l2 None) (lastk l1 None) v k)) st
    = (Done (entries_of l2), st).
Proof.
  induction l2 as [|[k2 v2] l2 IH]; intros l1 k v fuel R Hf.
  - by destruct fuel.
  - destruct fuel as [|fuel]; [cbn in Hf; lia |].
    assert (U2 : user_key k2).
    { apply (r_user _ _ _ _ R). rewrite fmap_app, elem_of_app. right.
      right. left. }
    assert (E : l1 ++ (k, v) :: (k2, v2) :: l2 =
                (l1 ++ [(k, v)]) ++ (k2, v2) :: l2) by by rewrite <- app_assoc.
    cbn [entries_loop mbind option_bind next hdk].
    rewrite (user_key_truthy _ U2).
    erewrite run_bind; [| eapply getNode_spec; [exact R | apply U2 | done] ].
    rewrite E in R |- *.
    destruct (NoDup_mid_keys _ _ _ _ (r_nodup _ _ _ _ R)) as (Hk & _ & _).
    rewrite nodes_lookup_mid by done.
    erewrite run_bind; [| apply (IH _ _ _ _ R); cbn in Hf; lia ].
    by rewrite run_ret.
Qed.

(** A well-formed store is traversed in recency order. *)
Lemma entries_spec sz l st fuel :
  repr_at None sz l st → l ≠ [] → (length l ≤ S fuel)%nat →
  entries fuel st = (Done (entries_of l), st).
Proof.
  intros R Hl Hf. destruct l as [|[t tv] l]; [done |]. unfold entries.
  erewrite run_bind by (eapply getTail_spec; [exact R | done]).
  erewrite run_bind;
    [| apply (entries_loop_spec sz st l [] t tv); [exact R | cbn in Hf; lia] ].
  by rewrite run_ret.
Qed.

Lemma reverseEntries_loop_spec sz st (l1 : lru) :
  ∀ (l2 : lru) k v fuel,
    repr_at None sz (l1 ++ (k, v) :: l2) st → (length l1 ≤ fuel)%nat →
    reverseEntries_loop fuel
      (Some (mkNode (hdk l2 None) (lastk l1 None) v k)) st
    = (Done (entries_of (reverse l1)), st).
Proof.
  induction l1 as [|[p pv] l1 IH] using rev_ind; intros l2 k v fuel R Hf.
  - by destruct fuel.
  - rewrite length_app in Hf. cbn in Hf.
    destruct fuel as [|fuel]; [lia |].
    assert (Up : user_key p).
    { apply (r_user _ _ _ _ R). rewrite !fmap_app, !elem_of_app. left.
      right. left. }
    rewrite <- app_assoc in R. cbn [app] in R.
    rewrite lastk_app. cbn [lastk reverseEntries_loop mbind option_bind prev].
    rewrite (user_key_truthy _ Up).
    erewrite run_bind; [| eapply getNode_spec; [exact R | apply Up | done] ].
    destruct (NoDup_mid_keys _ _ _ _ (r_nodup _ _ _ _ R)) as (Hp & _ & _).
    rewrite nodes_lookup_mid by done.
    erewrite run_bind; [| apply (IH _ _ _ _ R); lia ].
    by rewrite run_ret, reverse_snoc.
Qed.

Lemma reverseEntries_spec sz l st fuel :
  repr_at None sz l st → l ≠ [] → (length l ≤ S fuel)%nat →
  reverseEntries fuel st = (Done (entries_of (reverse l)), st).
Proof.
  intros R Hl Hf. destruct (lru_snoc _ Hl) as (l0 & h & hv & ->).
  rewrite length_app in Hf. cbn in Hf. unfold reverseEntries.
  erewrite run_bind by (eapply getHead_spec; exact R).
  erewrite run_bind;
    [| apply (reverseEntries_loop_spec sz st l0 [] h hv); [exact R | lia] ].
  by rewrite run_ret, reverse_snoc.
Qed.

End Traversal.

Lemma repr_at_sz skip sz sz' l st :
  repr_at skip sz l st → sz = sz' → repr_at skip sz' l st.
Proof. by intros R <-. Qed.

Ltac len_lia :=
  cbn [length] in *; rewrite ?length_app in *; cbn [length] in *; lia.

Ltac resize R :=
  eapply repr_at_sz;
  [ exact R | cbn [length]; rewrite ?length_app; cbn [length]; lia ].

Section Refinement.

Lemma assoc_None k (l : lru) : Spec.assoc k l = None → k ∉ l.*1.
Proof.
  induction l as [|[k' v'] l IH]; cbn [Spec.assoc].
  - intros _. apply not_elem_of_nil.
  - case_decide as Hk; [done |]. intros H. rewrite fmap_cons.
    apply not_elem_of_cons. split; [by cbn | by apply IH].
Qed.

Lemma without_notin k (l : lru) : k ∉ l.*1 → without k l = l.
Proof.
  induction l as [|[k' v'] l IH]; [done |].
  rewrite fmap_cons, not_elem_of_cons. cbn [fst]. intros [Hk Hin].
  unfold without in *. rewrite filter_cons_True by (cbn; congruence).
  by rewrite IH.
Qed.

Lemma assoc_split k v (l : lru) :
  Spec.assoc k l = Some v → NoDup l.*1 →
  ∃ l1 l2, l = l1 ++ (k, v) :: l2 ∧ without k l = l1 ++ l2.
Proof.
  induction l as [|[k' v'] l IH]; [done |]. cbn [Spec.assoc].
  rewrite fmap_cons, NoDup_cons. cbn [fst]. intros H [Hk' ND].
  case_decide as Hk.
  - injection H as ->. subst k'. exists [], l. split; [done |].
    unfold without. rewrite filter_cons_False by (cbn; tauto).
    by apply without_notin.
  - destruct (IH H ND) as (l1 & l2 & -> & Hw).
    exists ((k', v') :: l1), l2. split; [done |].
    unfold without in *. rewrite filter_cons_True by done.
    by rewrite Hw.
Qed.

Lemma lru_snoc2 (l : lru) :
  (2 ≤ length l)%nat → ∃ l0 p pv h hv, l = l0 ++ [(p, pv); (h, hv)].
Proof.
  intros Hl. destruct (lru_snoc l) as (l' & h & hv & ->).
  { destruct l; [cbn in Hl; lia | done]. }
  rewrite length_app in Hl. cbn in Hl.
  destruct (lru_snoc l') as (l0 & p & pv & ->).
  { destruct l'; [cbn in Hl; lia | done]. }
  exists l0, p, pv, h, hv. by rewrite <- app_assoc.
Qed.

Lemma get_empty k st :
  empty_store st → ¬ reserved k → get k st = (Done None, st).
Proof.
  intros [_ He] Hk. unfold get, _getNode.
  erewrite run_bind;
    [| erewrite run_bind by apply run_storage_get;
       rewrite (He k Hk); apply run_ret ].
  done.
Qed.

Context (this : LRUCache) `{!Immediate_store this} (fuel : nat).
Hypothesis no_bytes : charsCapacity this = None.
Hypothesis room : 2 ≤ capacity this.

Lemma chars_fit_disabled st k v : chars_fit this st k v.
Proof. unfold chars_fit. by rewrite no_bytes. Qed.

(** One operation on the code does what the specification says, for a
    capacity of two or more and no byte capacity. *)
Lemma exec_refines l st o :
  inv (capacity this) l st → user_key (op_key o) →
  ∃ st', exec this fuel o st = (Done (spec_exec (capacity this) l o).1, st') ∧
         inv (capacity this) (spec_exec (capacity this) l o).2 st'.
Proof.
  intros Hinv Uk. destruct o as [k v | k]; cbn [op_key] in Uk;
    cbn [exec spec_exec fst snd].
  - (* set *)
    destruct Hinv as [[-> He] | [[Hl R] Hcap]].
    + destruct (set_first this fuel k v st He Uk) as (st' & Hrun & R & _).
      exists st'. erewrite run_bind by exact Hrun. split; [done |].
      unfold Spec.set. cbn [Spec.assoc length].
      rewrite bool_decide_false by lia.
      right. split; [split; [done | exact R] | cbn; lia].
    + unfold Spec.set. destruct (Spec.assoc k l) as [v0|] eqn:Ha.
      * destruct (assoc_split _ _ _ Ha (r_nodup _ _ _ _ R))
          as (l1 & l2 & -> & ->).
        destruct (set_existing this fuel _ _ _ _ v _ _ R)
          as (st' & Hrun & R' & _).
        exists st'. erewrite run_bind by exact Hrun. split; [done |].
        right. rewrite length_app in *. cbn [length] in *.
        rewrite length_app.
        split; [split; [done | resize R'] | len_lia].
      * apply assoc_None in Ha.
        assert (Hsz : Z.of_nat (length l) ≠ 0) by (destruct l; [done | cbn; lia]).
        case_bool_decide as Hfull.
        -- destruct (lru_snoc2 l) as (l0 & p & pv & h & hv & ->); [lia |].
           destruct (set_new_evict this fuel _ _ _ _ _ _ st k v R Hsz Ha Uk
                       (chars_fit_disabled _ _ _) Hfull)
             as (st' & Hrun & R' & _).
           exists st'. erewrite run_bind by exact Hrun. split; [done |].
           replace (l0 ++ [(p, pv); (h, hv)])
             with ((l0 ++ [(p, pv)]) ++ [(h, hv)]) in *
             by by rewrite <- app_assoc.
           rewrite removelast_last. rewrite !length_app in *.
           cbn [length] in *. right.
           split; [split; [done | resize R'] | len_lia].
        -- destruct (set_new_fits this fuel _ _ st k v R Hl Hsz Ha Uk
                       (chars_fit_disabled _ _ _)) as (st' & Hrun & R' & _);
             [lia |].
           exists st'. erewrite run_bind by exact Hrun. split; [done |].
           right. cbn [length].
           split; [split; [done | resize R'] | len_lia].
  - (* get *)
    unfold Spec.get. destruct Hinv as [[-> He] | [[Hl R] Hcap]].
    + exists st. cbn [Spec.assoc fst snd]. split; [| by left].
      apply get_empty; [done | apply Uk].
    + destruct (Spec.assoc k l) as [v0|] eqn:Ha; cbn [fst snd].
      * destruct (assoc_split _ _ _ Ha (r_nodup _ _ _ _ R))
          as (l1 & l2 & -> & ->).
        destruct (get_hit _ _ _ _ _ _ R) as (st' & Hrun & R' & _).
        exists st'. split; [done |].
        right. rewrite length_app in *. cbn [length] in *.
        rewrite length_app.
        split; [split; [done | resize R'] | len_lia].
      * exists st. split; [| by right].
        apply (get_miss _ _ _ _ R); [by apply assoc_None | apply Uk].
Qed.

(** So does every run: the results agree and the store keeps representing
    the list of the specification, which never grows beyond the capacity. *)
Lemma run_refines ops : ∀ l st,
  inv (capacity this) l st → Forall (λ o, user_key (op_key o)) ops →
  ∃ st', run this fuel ops st = (Done (spec_run (capacity this) l ops).1, st') ∧
         inv (capacity this) (spec_run (capacity this) l ops).2 st'.
Proof.
  induction ops as [|o ops IH]; intros l st Hinv Hk.
  - exists st. by split.
  - apply Forall_cons in Hk as [Ho Hk].
    destruct (exec_refines l st o Hinv Ho) as (st1 & Hrun1 & Hinv1).
    cbn [run spec_run].
    destruct (spec_exec (capacity this) l o) as [r l1]. cbn [fst snd] in *.
    destruct (IH l1 st1 Hinv1 Hk) as (st2 & Hrun2 & Hinv2).
    destruct (spec_run (capacity this) l1 ops) as [rs l2]. cbn [fst snd] in *.
    exists st2. erewrite run_bind by exact Hrun1.
    erewrite run_bind by exact Hrun2. by split.
Qed.

End Refinement.

Section Bytes.

Lemma estimates_cons k v (l : lru) :
  estimates ((k, v) :: l) = _getNewNodeEstimatedSize k v + estimates l.
Proof. reflexivity. Qed.

Lemma estimates_app (l1 l2 : lru) :
  estimates (l1 ++ l2) = estimates l1 + estimates l2.
Proof.
  induction l1 as [|[k v] l1 IH]; [done |].
  cbn [app]. rewrite !estimates_cons, IH. lia.
Qed.

Lemma estimates_promote (l1 l2 : lru) k v :
  estimates ((k, v) :: l1 ++ l2) = estimates (l1 ++ (k, v) :: l2).
Proof.
  rewrite estimates_cons, !estimates_app, estimates_cons. lia.
Qed.

Context (this : LRUCache) `{!Immediate_store this} (fuel : nat).

(** One operation of a quiet run keeps the byte estimate in step. *)
Lemma exec_quiet l st o ops :
  bytes_inv l st → user_key (op_key o) → quiet this l (o :: ops) = true →
  ∃ st', exec this fuel o st = (Done (spec_exec (capacity this) l o).1, st') ∧
         bytes_inv (spec_exec (capacity this) l o).2 st' ∧
         quiet this (spec_exec (capacity this) l o).2 ops = true.
Proof.
  intros Hinv Uk Hq. destruct o as [k v | k]; cbn [op_key] in Uk;
    cbn [exec spec_exec fst snd quiet] in *.
  - apply andb_prop in Hq as [Hq Hrest]. apply andb_prop in Hq as [Hq Hbytes].
    apply andb_prop in Hq as [Hnew Hroom].
    apply bool_decide_eq_true in Hnew, Hroom.
    unfold Spec.set. rewrite Hnew, bool_decide_false by lia.
    destruct Hinv as [[-> He] | [[Hl R] Hch]].
    + destruct (set_first this fuel k v st He Uk) as (st' & Hrun & R & Hch).
      exists st'. erewrite run_bind by exact Hrun. split; [done |].
      split; [| done]. right. split; [by split |].
      rewrite Hch, metadata_size, estimates_cons. cbn. lia.
    + assert (Hsz : Z.of_nat (length l) ≠ 0) by (destruct l; [done | cbn; lia]).
      assert (Hfit : chars_fit this st k v).
      { unfold chars_fit. destruct (charsCapacity this) as [cap|]; [| done].
        intros _. apply bool_decide_eq_true in Hbytes as [-> | Hb]; [done |].
        rewrite Hch. lia. }
      destruct (set_new_fits this fuel _ _ st k v R Hl Hsz
                  (assoc_None _ _ Hnew) Uk Hfit Hroom)
        as (st' & Hrun & R' & Hch').
      exists st'. erewrite run_bind by exact Hrun. split; [done |].
      split; [| done]. right. split; [split; [done | resize R'] |].
      rewrite Hch', Hch, estimates_cons. lia.
  - unfold Spec.get in *. destruct Hinv as [[-> He] | [[Hl R] Hch]].
    + exists st. cbn [Spec.assoc fst snd] in *. split; [| split; [by left | done]].
      apply get_empty; [done | apply Uk].
    + destruct (Spec.assoc k l) as [v0|] eqn:Ha; cbn [fst snd] in *.
      * destruct (assoc_split _ _ _ Ha (r_nodup _ _ _ _ R))
          as (l1 & l2 & -> & Hw).
        rewrite Hw in *.
        destruct (get_hit _ _ _ _ _ _ R) as (st' & Hrun & R' & Hch').
        exists st'. split; [done |]. split; [| done].
        right. split; [split; [done | resize R'] |].
        by rewrite Hch', Hch, estimates_promote.
      * exists st. split; [| split; [by right | done]].
        apply (get_miss _ _ _ _ R); [by apply assoc_None | apply Uk].
Qed.

Lemma run_quiet ops : ∀ l st,
  bytes_inv l st → Forall (λ o, user_key (op_key o)) ops →
  quiet this l ops = true →
  ∃ st', run this fuel ops st = (Done (spec_run (capacity this) l ops).1, st') ∧
         bytes_inv (spec_run (capacity this) l ops).2 st'.
Proof.
  induction ops as [|o ops IH]; intros l st Hinv Hk Hq.
  - exists st. by split.
  - apply Forall_cons in Hk as [Ho Hk].
    destruct (exec_quiet l st o ops Hinv Ho Hq) as (st1 & Hrun1 & Hinv1 & Hq1).
    cbn [run spec_run].
    destruct (spec_exec (capacity this) l o) as [r l1]. cbn [fst snd] in *.
    destruct (IH l1 st1 Hinv1 Hk Hq1) as (st2 & Hrun2 & Hinv2).
    destruct (spec_run (capacity this) l1 ops) as [rs l2]. cbn [fst snd] in *.
    exists st2. erewrite run_bind by exact Hrun1.
    erewrite run_bind by exact Hrun2. by split.
Qed.

End Bytes.

Section MemoizeFacts.
Import Memoize.
Context {C : Type} (generateKey : list jsval → string).

Lemma try_catch_done {A} (body : ST (@frame C) A)
    (handler : exn → ST (@frame C) A) (fr fr' : @frame C) (a : A) :
  body fr = (Done a, fr') → try_catch body handler fr = (Done a, fr').
Proof. intros H. unfold try_catch. by rewrite H. Qed.

Lemma lift_done {A} (o : outcome A) (a : A) (fr : @frame C) :
  o = Done a → lift o fr = (Done a, fr).
Proof. by intros ->. Qed.

Lemma key_step (kr : option KeyResolver) args k (fr : @frame C) :
  match kr with Some kr => kr args | None => Done (generateKey args) end
    = Done k →
  match kr with
  | Some kr => lift (kr args)
  | None => mret (generateKey args)
  end fr = (Done k, fr).
Proof. destruct kr; [apply lift_done | by intros [= <-]]. Qed.

Lemma cache_get_step (g : @CacheGet C) s k c st1 (fr : frame) :
  g k (cache_state (outer fr)) = (Done c, st1) →
  cache_get (Some (g, s)) k fr
  = (Done c, mkFrame (mkWorld st1 (trace (outer fr))) (functionResult fr)).
Proof. intros H. unfold cache_get, on_cache. by rewrite H. Qed.

Lemma cache_set_step g (s : @CacheSet C) k v st2 (fr : frame) :
  s k v (cache_state (outer fr)) = (Done tt, st2) →
  cache_set (Some (g, s)) k v fr
  = (Done tt, mkFrame (mkWorld st2 (trace (outer fr))) (functionResult fr)).
Proof. intros H. unfold cache_set, on_cache. by rewrite H. Qed.

End MemoizeFacts.

Section Reachable.

Lemma empty_store_empty : empty_store ∅.
Proof. split; [reflexivity | intros x _; apply lookup_empty]. Qed.

Lemma inv_repr capacity l st : inv capacity l st → l ≠ [] → repr l st.
Proof. intros [[-> _] | [R _]] Hl; [done | exact R]. Qed.

(** A run from the empty store, at a capacity of two or more and without
    a byte capacity, leaves the list of the specification behind and hands
    back what the specification says. *)
Lemma state_after_inv this `{!Immediate_store this} fuel ops :
  charsCapacity this = None → 2 ≤ capacity this →
  Forall (λ o, user_key (op_key o)) ops →
  (run this fuel ops ∅).1 = Done (spec_run (capacity this) [] ops).1 ∧
  inv (capacity this) (spec_run (capacity this) [] ops).2
    (state_after this fuel ops).
Proof.
  intros Hb Hc Hk.
  destruct (run_refines this fuel Hb Hc ops [] ∅) as (st' & Hrun & Hinv);
    [left; split; [done | apply empty_store_empty] | done |].
  unfold state_after. by rewrite Hrun.
Qed.

Lemma user_key_intro k :
  bool_decide (k ≠ "" ∧ ¬ reserved k) = true → user_key k.
Proof. apply bool_decide_eq_true. Qed.

Lemma not_reserved_intro k : bool_decide (reserved k) = false → ¬ reserved k.
Proof. apply bool_decide_eq_false. Qed.

(** A store all of whose cells sit under reserved keys holds no record. *)
Lemma no_record_intro (st : storage) :
  bool_decide (Forall (λ kv, reserved kv.1) (map_to_list st)) = true →
  ∀ x, ¬ reserved x → st !! x = None.
Proof.
  intros H x Hx. apply bool_decide_eq_true in H.
  destruct (st !! x) as [v|] eqn:E; [| done].
  apply elem_of_map_to_list in E. rewrite Forall_forall in H.
  by destruct (Hx (H _ E)).
Qed.

Lemma anchor_intro (st : storage) (a k : string) :
  st !! a = Some k → bool_decide (reserved k) = false →
  ∀ t, st !! a = Some t → ¬ reserved t.
Proof.
  intros E Hk t Et. rewrite E in Et. injection Et as <-.
  by apply not_reserved_intro.
Qed.

End Reachable.

Lemma safe_integer_intro (z : Z) :
  (- 2 ^ 53 <=? z) && (z <=? 2 ^ 53) = true → safe_integer z.
Proof.
  intros H. apply andb_prop in H as [H1 H2].
  apply Z.leb_le in H1, H2. by split.
Qed.

Lemma bytes_exact_intro (st : storage) (a z : Z) :
  st !! __charsSizeKey = Some (JSON.of_number z) →
  (- 2 ^ 53 <=? z) && (z <=? 2 ^ 53) = true →
  (- 2 ^ 53 <=? z + a) && (z + a <=? 2 ^ 53) = true →
  bytes_exact st a.
Proof.
  intros Hc Hz Ha. apply safe_integer_intro in Hz, Ha.
  unfold bytes_exact, chars_cell. rewrite Hc, Number_of_number.
  cbn [or_zero default]. split; [by right | done].
Qed.

Ltac user_keys :=
  repeat (apply Forall_cons_2; [apply user_key_intro; vm_compute; reflexivity |]);
  apply Forall_nil_2.


(** ** Properties of the specification, checked on the code *)

(** C1: at capacity 1 the second insertion of a distinct key evicts key 1
    and does not store key 2 either: the store holds no entry, while the
    specification keeps the entry just inserted. *)
Theorem capacity_one_loses_the_new_entry :
  (run Scenario.one 0 Scenario.two_sets ∅).1 = Done [None; None] ∧
  state_after Scenario.one 0 Scenario.two_sets !! "1" = None ∧
  state_after Scenario.one 0 Scenario.two_sets !! "2" = None ∧
  size_cell (state_after Scenario.one 0 Scenario.two_sets) = 1 ∧
  (entries 1 (state_after Scenario.one 0 Scenario.two_sets)).1
    = Done [(None, None)] ∧
  (spec_run (capacity Scenario.one) [] Scenario.two_sets).2 = [("2", "b")].
Proof. repeat split; vm_compute; reflexivity. Qed.

(** C2: capacity 3, no byte capacity.  On a store that hands back values
    the four traversals are those of the specification: 3, 2, 1; then 4, 3, 2
    with key 1 evicted; then 2, 4, 3; then 5, 2, 4 with key 3 evicted.  On a
    store whose [get] hands back promises [_getSize], which does not await
    the read, sees a count of 0 at every insertion: each new key starts the
    list afresh, nothing is evicted, and the traversals are 3; 4; 2, 4; 5,
    with the records of keys 1 and 3 still in the store. *)
Theorem recency_scenario :
  (Scenario.recency ∅).1 =
  Done [ [Some "3"; Some "2"; Some "1"];
         [Some "4"; Some "3"; Some "2"];
         [Some "2"; Some "4"; Some "3"];
         [Some "5"; Some "2"; Some "4"] ] ∧
  (Scenario.recency ∅).2 !! "1" = None ∧
  (Scenario.recency ∅).2 !! "3" = None ∧
  (Scenario.recency_on Scenario.promising_three ∅).1 =
  Done [ [Some "3"];
         [Some "4"];
         [Some "2"; Some "4"];
         [Some "5"] ] ∧
  (Scenario.recency_on Scenario.promising_three ∅).2 !! "1"
  = Some (JSON.stringify (mkNode None None "a" "1")) ∧
  (Scenario.recency_on Scenario.promising_three ∅).2 !! "3"
  = Some (JSON.stringify (mkNode None None "c" "3")).
Proof. repeat split; vm_compute; reflexivity. Qed.

(** C3: a cache that holds no record, be it fresh or emptied by eviction,
    is not traversed as the empty sequence.  Each producer yields
    [[currentNode?.key, currentNode?.value]] before it has looked whether a
    node was found, so the sequence is one pair of [undefined]. *)
Theorem entries_of_empty_store (fuel : nat) (st : storage) :
  (∀ x, ¬ reserved x → st !! x = None) →
  (∀ t, st !! __tailKeyPointer = Some t → ¬ reserved t) →
  (∀ h, st !! __headKeyPointer = Some h → ¬ reserved h) →
  entries fuel st = (Done [(None, None)], st) ∧
  reverseEntries fuel st = (Done [(None, None)], st) ∧
  (entries fuel st).1 ≠ Done [] ∧ (reverseEntries fuel st).1 ≠ Done [].
Proof.
  intros Hemp Ht Hh.
  assert (Hnode : ∀ a, (∀ t, a = Some t → ¬ reserved t) →
            match deref_key a with
            | Some k => _getNode k
            | None => mret None
            end st = (Done None, st)).
  { intros [t|] Ha; [| done]. cbn [deref_key].
    destruct (truthy_string t); [| done]. unfold _getNode.
    erewrite run_bind by apply run_storage_get.
    by rewrite (Hemp t (Ha t eq_refl)). }
  assert (He : entries fuel st = (Done [(None, None)], st)).
  { unfold entries, _getTail.
    erewrite run_bind;
      [| erewrite run_bind by apply run_storage_get; by apply Hnode ].
    by destruct fuel. }
  assert (Hr : reverseEntries fuel st = (Done [(None, None)], st)).
  { unfold reverseEntries, _getHead.
    erewrite run_bind;
      [| erewrite run_bind by apply run_storage_get; by apply Hnode ].
    by destruct fuel. }
  rewrite He, Hr. by repeat split.
Qed.

Lemma entries_of_empty_store_witness :
  (entries 5 ∅ = (Done [(None, None)], ∅) ∧
   reverseEntries 5 ∅ = (Done [(None, None)], ∅) ∧
   (entries 5 ∅).1 ≠ Done [] ∧ (reverseEntries 5 ∅).1 ≠ Done []) ∧
  (let st := state_after Scenario.one 0 Scenario.two_sets in
   entries 5 st = (Done [(None, None)], st) ∧
   reverseEntries 5 st = (Done [(None, None)], st) ∧
   (entries 5 st).1 ≠ Done [] ∧ (reverseEntries 5 st).1 ≠ Done []).
Proof.
  split.
  - apply (entries_of_empty_store 5 ∅); intros x; by rewrite ?lookup_empty.
  - apply (entries_of_empty_store 5
             (state_after Scenario.one 0 Scenario.two_sets)).
    + apply no_record_intro. vm_compute. reflexivity.
    + apply (anchor_intro _ _ "1"); vm_compute; reflexivity.
    + apply (anchor_intro _ _ "1"); vm_compute; reflexivity.
Defined.

(** C4: evicting the only node deletes its record and leaves both anchors
    pointing at the deleted key. *)
Theorem removeHead_single_keeps_anchors (k v : string) (st : storage) :
  repr [(k, v)] st →
  _removeHead st = (Done (Some (mkNode None None v k)), delete k st) ∧
  delete k st !! k = None ∧
  delete k st !! __tailKeyPointer = Some k ∧
  delete k st !! __headKeyPointer = Some k.
Proof.
  intros [_ R].
  assert (Uk : user_key k) by (apply (r_user _ _ _ _ R); left).
  pose proof (getHead_spec _ [] k v st R) as Hhead.
  split; [| split; [apply lookup_delete_eq |]].
  - unfold _removeHead. erewrite run_bind by exact Hhead.
    cbn [lastk prev key deref_key].
    erewrite run_bind by apply run_ret.
    rewrite (user_key_truthy_string _ Uk).
    erewrite run_bind; cycle 1.
    { erewrite run_bind by apply run_storage_delete. apply run_ret. }
    apply run_ret.
  - destruct Uk as [_ Uk]. split; lookup_ne.
    + apply (r_tail _ _ _ _ R).
    + apply (r_head _ _ _ _ R).
Qed.

Lemma one_entry_repr :
  repr [("1", "a")] (state_after Scenario.three 0 [OpSet "1" "a"]).
Proof.
  apply (inv_repr 3); [| done].
  apply (state_after_inv Scenario.three 0 [OpSet "1" "a"]);
    [reflexivity | done | user_keys].
Qed.

Lemma removeHead_single_keeps_anchors_witness :
  let st := state_after Scenario.three 0 [OpSet "1" "a"] in
  _removeHead st = (Done (Some (mkNode None None "a" "1")), delete "1" st) ∧
  delete "1" st !! "1" = None ∧
  delete "1" st !! __tailKeyPointer = Some "1" ∧
  delete "1" st !! __headKeyPointer = Some "1".
Proof. apply (removeHead_single_keeps_anchors "1" "a"), one_entry_repr. Defined.

(** After the first insertion the tracked estimate is 291 more than the
    estimate of the one live node: [_initialize] starts the counter at the
    size it reckons for the metadata. *)
Lemma byte_estimate_counts_metadata :
  let st := state_after Scenario.roomy 0 [OpSet "1" "a"] in
  (entries 1 st).1 = Done [(Some "1", Some "a")] ∧
  chars_cell st = 291 + estimates [("1", "a")].
Proof. split; vm_compute; reflexivity. Qed.

Lemma two_entries_repr :
  repr [("2", "b"); ("1", "a")]
    (state_after Scenario.three 0 Scenario.two_sets).
Proof.
  apply (inv_repr 3); [| done].
  apply (state_after_inv Scenario.three 0 Scenario.two_sets);
    [reflexivity | done | unfold Scenario.two_sets; user_keys].
Qed.

Lemma estimate_positive k v : 0 < _getNewNodeEstimatedSize k v.
Proof.
  unfold _getNewNodeEstimatedSize, _getNodeCharsSize, strlen.
  pose proof (stringify_truthy (mkNode (Some k) (Some k) v k)) as E.
  destruct (JSON.stringify (mkNode (Some k) (Some k) v k)); [done |].
  cbn [String.length key]. lia.
Qed.

(** C5: the tracked estimate does not stay the sum of the estimates of the
    live entries, with or without the 291 of metadata.  On a store that
    hands back values and a well-formed cache of two or more entries that is
    full under the count policy, whose byte counter is as the engine leaves
    it and stays an integer a double holds exactly, [set] of a new key,
    neither empty nor reserved, that the byte policy admits evicts the
    least recent entry and frees none of its bytes: whatever offset [c] the
    counter had over the live entries, it has grown by the estimate of the
    evicted entry.  And [set] on a present key replaces the value and leaves
    the counter as it was, so the offset moves by the difference of the two
    estimates. *)
Theorem byte_estimate_drifts (this : LRUCache) (fuel : nat) (l : lru)
    (h hv : string) (st : storage) (k v : string) (c : Z) :
  storage_backend this = Immediate →
  repr (l ++ [(h, hv)]) st → l ≠ [] → user_key k →
  k ∉ (l ++ [(h, hv)]).*1 → chars_fit this st k v →
  bytes_exact st (_getNewNodeEstimatedSize k v) →
  Z.of_nat (length (l ++ [(h, hv)])) + 1 > capacity this →
  chars_cell st = c + estimates (l ++ [(h, hv)]) →
  (∃ st',
     set this fuel k v st = (Done tt, st') ∧
     repr ((k, v) :: l) st' ∧
     chars_cell st'
     = c + estimates ((k, v) :: l) + _getNewNodeEstimatedSize h hv ∧
     0 < _getNewNodeEstimatedSize h hv) ∧
  (∀ v', ∃ st',
     set this fuel h v' st = (Done tt, st') ∧
     repr ((h, v') :: l) st' ∧
     chars_cell st'
     = c + estimates ((h, v') :: l)
       + (_getNewNodeEstimatedSize h hv - _getNewNodeEstimatedSize h v')).
Proof.
  intros Hsync [_ R] Hl Uk Hk Hfit _ Hfull Hc.
  pose proof (Hsync : Immediate_store this) as HS.
  split.
  - destruct (lru_snoc _ Hl) as (l0 & p & pv & ->).
    rewrite <- app_assoc in R, Hk, Hfull, Hc. cbn [app] in R, Hk, Hfull, Hc.
    assert (Hsz : Z.of_nat (length (l0 ++ [(p, pv); (h, hv)])) ≠ 0).
    { rewrite length_app. cbn. lia. }
    destruct (set_new_evict this fuel _ _ _ _ _ _ st k v R Hsz Hk Uk Hfit
                Hfull) as (st' & Hrun & R' & Hch).
    exists st'. split; [exact Hrun |].
    split; [split; [done | resize R'] |].
    split; [| apply estimate_positive].
    rewrite Hch, Hc, estimates_cons, !estimates_app, !estimates_cons.
    cbn [estimates foldr]. lia.
  - intros v'.
    destruct (set_existing this fuel _ _ _ _ v' _ _ R) as (st' & Hrun & R' & Hch).
    rewrite app_nil_r in R'.
    exists st'. split; [exact Hrun |].
    split; [split; [done | resize R'] |].
    rewrite Hch, Hc, estimates_cons, estimates_app, estimates_cons.
    cbn [estimates foldr]. lia.
Qed.

Lemma brimful_two_sets :
  state_after Scenario.brimful 0 Scenario.two_sets
  = state_after Scenario.three 0 Scenario.two_sets.
Proof. vm_compute. reflexivity. Qed.

Lemma byte_estimate_drifts_witness :
  let this := Scenario.brimful in
  let st := state_after this 0 Scenario.two_sets in
  chars_cell st = 291 + estimates [("2", "b"); ("1", "a")] ∧
  (∃ st',
     set this 0 "3" "c" st = (Done tt, st') ∧
     repr [("3", "c"); ("2", "b")] st' ∧
     chars_cell st'
     = 291 + estimates [("3", "c"); ("2", "b")]
       + _getNewNodeEstimatedSize "1" "a" ∧
     0 < _getNewNodeEstimatedSize "1" "a") ∧
  (∀ v', ∃ st',
     set this 0 "1" v' st = (Done tt, st') ∧
     repr [("1", v'); ("2", "b")] st' ∧
     chars_cell st'
     = 291 + estimates [("1", v'); ("2", "b")]
       + (_getNewNodeEstimatedSize "1" "a" - _getNewNodeEstimatedSize "1" v')).
Proof.
  cbv zeta. rewrite brimful_two_sets. split; [vm_compute; reflexivity |].
  apply (byte_estimate_drifts Scenario.brimful 0
           [("2", "b")] "1" "a"
           (state_after Scenario.three 0 Scenario.two_sets) "3" "c" 291).
  - reflexivity.
  - apply two_entries_repr.
  - done.
  - apply user_key_intro. vm_compute. reflexivity.
  - vm_compute. intros H. repeat (apply elem_of_cons in H as [H | H]; [done |]).
    by apply elem_of_nil in H.
  - intros _. vm_compute. discriminate.
  - apply (bytes_exact_intro _ _ 383); vm_compute; reflexivity.
  - vm_compute. reflexivity.
  - vm_compute. reflexivity.
Defined.

Section ByteLoop.

Lemma run_bind_fuel {St A B} (m : ST St A) (f : A → ST St B) st :
  (m st).1 = OutOfFuel → ((m ≫= f) st).1 = OutOfFuel.
Proof.
  unfold mbind, ST_bind. destruct (m st) as [[a | e |] st']; by cbn.
Qed.

(** Once [_removeHead] finds nothing to evict, the loop of
    [_checkCapacity] makes no progress. *)
Lemma checkCapacity_loop_stuck st c e cap :
  _removeHead st = (Done None, st) →
  ∀ fuel ri rc, c + e - rc > cap →
    (_checkCapacity_loop fuel c e cap ri rc st).1 = OutOfFuel.
Proof.
  intros Hrm. induction fuel as [|fuel IH]; intros ri rc Hover;
    cbn [_checkCapacity_loop]; rewrite bool_decide_true by done; [done |].
  erewrite run_bind by exact Hrm. apply IH. lia.
Qed.

End ByteLoop.

Lemma tight_one_steps :
  _getNode "b" Scenario.tight_one = (Done None, Scenario.tight_one) ∧
  _getSize Scenario.tight Scenario.tight_one = (Done 1, Scenario.tight_one) ∧
  _getCharsSize Scenario.tight Scenario.tight_one
  = (Done 436, Scenario.tight_one) ∧
  _removeHead Scenario.tight_one
  = (Done (Some (mkNode None None Scenario.large "a")), Scenario.tight_gone) ∧
  _removeHead Scenario.tight_gone = (Done None, Scenario.tight_gone).
Proof. repeat split; vm_compute; reflexivity. Qed.

(** C6: capacity 100, byte capacity 100.  Setting one value of 100
    characters succeeds and the cache holds that one entry; the next [set]
    of a new key never completes, whatever fuel its eviction loop gets. *)
Theorem byte_capacity_loop_never_ends :
  (set Scenario.tight 0 "a" Scenario.large ∅).1 = Done tt ∧
  (entries 1 Scenario.tight_one).1 = Done [(Some "a", Some Scenario.large)] ∧
  ∀ fuel, (set Scenario.tight fuel "b" "y" Scenario.tight_one).1 = OutOfFuel.
Proof.
  split; [vm_compute; reflexivity |]. split; [vm_compute; reflexivity |].
  intros fuel.
  destruct tight_one_steps as (Hnode & Hsize & Hchars & Hrm & Hgone).
  unfold set. erewrite run_bind by exact Hnode.
  unfold _addNewNode. erewrite run_bind by exact Hsize.
  rewrite bool_decide_false by discriminate.
  apply run_bind_fuel. unfold _checkCapacity. apply run_bind_fuel.
  cbn [Scenario.tight charsCapacity]. rewrite bool_decide_true by reflexivity.
  erewrite run_bind by exact Hchars.
  apply run_bind_fuel. cbn [key value].
  destruct fuel as [|fuel]; cbn [_checkCapacity_loop];
    rewrite bool_decide_true by (vm_compute; reflexivity); [reflexivity |].
  erewrite run_bind by exact Hrm.
  apply checkCapacity_loop_stuck; [exact Hgone | vm_compute; reflexivity].
Qed.




(** C8: the empty string is a key, and once the cache holds it the claim
    fails for the other keys.  After [set 1; set ""] the tail anchor holds
    the empty string, which the engine takes for no anchor: [set] on key 1
    replaces the value and keeps the count, but links nothing, so key 1 is
    not moved to the most recent place and a traversal yields one pair of
    [undefined]. *)
Theorem set_existing_key_not_promoted :
  let st := Scenario.empty_key_second in
  let st' := (set Scenario.three 0 "1" "z" st).2 in
  st !! "1" = Some (JSON.stringify (mkNode None (Some "") "a" "1")) ∧
  st !! "" = Some (JSON.stringify (mkNode (Some "1") None "b" "")) ∧
  (set Scenario.three 0 "1" "z" st).1 = Done tt ∧
  st' !! "1" = Some (JSON.stringify (mkNode None (Some "") "z" "1")) ∧
  size_cell st' = size_cell st ∧
  st' !! __tailKeyPointer = Some "" ∧
  st' !! __headKeyPointer = Some "1" ∧
  (entries 5 st').1 = Done [(None, None)].
Proof. repeat split; vm_compute; reflexivity. Qed.

(** X27: on a well-formed cache, whose keys are neither empty nor
    reserved, [set] on a key that is present leaves the count as it was, puts
    the key at the most recent place and replaces its value, on either kind
    of store. *)
Theorem set_existing_key (this : LRUCache) (fuel : nat) (l : lru)
    (st : storage) (k v : string) :
  repr l st → k ∈ l.*1 →
  ∃ st',
    set this fuel k v st = (Done tt, st') ∧
    repr ((k, v) :: without k l) st' ∧
    size_cell st' = size_cell st ∧
    length ((k, v) :: without k l) = length l ∧
    st' !! __tailKeyPointer = Some k ∧
    entries (length l) st' = (Done (entries_of ((k, v) :: without k l)), st') ∧
    get k st' = (Done (Some v), st').
Proof.
  intros [Hl R] Hin.
  destruct (Spec.assoc k l) as [v0|] eqn:Ha;
    [| by apply assoc_None in Ha].
  destruct (assoc_split _ _ _ Ha (r_nodup _ _ _ _ R)) as (l1 & l2 & -> & ->).
  destruct (set_existing this fuel _ _ _ _ v _ _ R) as (st' & Hrun & R' & _).
  assert (Hlen : length ((k, v) :: l1 ++ l2) = length (l1 ++ (k, v0) :: l2)).
  { cbn [length]. rewrite !length_app. cbn [length]. lia. }
  assert (Rn : repr ((k, v) :: l1 ++ l2) st').
  { split; [done |]. by rewrite Hlen. }
  exists st'. split; [exact Hrun |]. split; [exact Rn |].
  split; [by rewrite (r_size _ _ _ _ R'), (r_size _ _ _ _ R) |].
  split; [exact Hlen |]. split; [apply (r_tail _ _ _ _ R') |]. split.
  - apply (entries_spec _ _ _ _ R'); [done | rewrite Hlen; lia].
  - destruct (NoDup_mid_keys [] k v (l1 ++ l2) (r_nodup _ _ _ _ R'))
      as (_ & Hk2 & _).
    assert (Uk : user_key k) by (apply (r_user _ _ _ _ R'); left).
    unfold get.
    erewrite run_bind;
      [| eapply getNode_spec; [exact R' | apply Uk | done] ].
    change ((k, v) :: l1 ++ l2) with ([] ++ (k, v) :: l1 ++ l2) at 1.
    rewrite (nodes_lookup_mid None [] k v (l1 ++ l2) None)
      by apply not_elem_of_nil.
    erewrite run_bind by apply run_storage_get.
    rewrite (r_tail _ _ _ _ R'). cbn [hdk key value].
    rewrite bool_decide_false by (by intros []).
    by erewrite run_bind by apply run_ret.
Qed.

Lemma set_existing_key_witness :
  let st := state_after Scenario.three 0 Scenario.two_sets in
  ∃ st',
    set Scenario.promising_three 0 "1" "z" st = (Done tt, st') ∧
    repr [("1", "z"); ("2", "b")] st' ∧
    size_cell st' = size_cell st ∧
    length [("1", "z"); ("2", "b")] = length [("2", "b"); ("1", "a")] ∧
    st' !! __tailKeyPointer = Some "1" ∧
    entries 2 st' = (Done [(Some "1", Some "z"); (Some "2", Some "b")], st') ∧
    get "1" st' = (Done (Some "z"), st').
Proof.
  apply (set_existing_key Scenario.promising_three 0 [("2", "b"); ("1", "a")]
           (state_after Scenario.three 0 Scenario.two_sets) "1" "z").
  - apply two_entries_repr.
  - vm_compute. right. left.
Defined.




(** C10: a call of [memoize] whose [logger] is omitted or falsy throws a
    [TypeError], whatever the other fields hold, so no wrapped callable
    comes out of it. *)
Theorem memoize_without_logger_throws {C : Type}
    (generateKey : list Memoize.jsval → string)
    (f : Memoize.prop Memoize.Func) (kr : Memoize.prop Memoize.KeyResolver)
    (c : @Memoize.cache_arg C) :
  ∃ msg, Memoize.memoize generateKey
           (Memoize.mkMemoize f kr c Memoize.LoggerFalsy)
         = Threw (TypeError msg).
Proof. destruct f, kr, c as [|[] []]; cbn; eauto. Qed.

(** ** Further properties of the engine *)

(** X1: a node written with [_setNode] is read back unchanged by
    [_getNode], whatever its key, value and links contain and whatever the
    store held before. *)
Theorem setNode_then_getNode (k : string) (n : INode) (st : storage) :
  (_setNode k n;; _getNode k) st
  = (Done (Some n), <[k := JSON.stringify n]> st).
Proof.
  erewrite run_bind by apply run_setNode. unfold _getNode.
  erewrite run_bind by apply run_storage_get.
  by rewrite lookup_insert_eq, stringify_truthy, parse_stringify.
Qed.

Section Counters.

Lemma size_cell_insert st z :
  size_cell (<[__sizeKey := JSON.of_number z]> st) = z.
Proof. unfold size_cell. by rewrite lookup_insert_eq, Number_of_number. Qed.

Lemma chars_cell_insert st z :
  chars_cell (<[__charsSizeKey := JSON.of_number z]> st) = z.
Proof. unfold chars_cell. by rewrite lookup_insert_eq, Number_of_number. Qed.

Lemma counter_holds_size st z :
  counter_holds (st !! __sizeKey) z → size_cell st = z.
Proof.
  unfold size_cell. intros [[-> ->] | [-> _]]; [done |].
  by rewrite Number_of_number.
Qed.

Lemma counter_holds_chars st z :
  counter_holds (st !! __charsSizeKey) z → chars_cell st = z.
Proof.
  unfold chars_cell. intros [[-> ->] | [-> _]]; [done |].
  by rewrite Number_of_number.
Qed.

End Counters.

(** X2: on a store that hands back values, the counters survive their
    trip through the store as text.  Where the cells are as the engine
    leaves them and every number involved is an integer a double holds
    exactly, after [_increaseSize] and [_decreaseSize d] the size reads one
    more and [d] less than before, below zero too, and no other cell has
    changed; the same holds for the byte counter. *)
Theorem counters_read_back (this : LRUCache) (st : storage) (z c d a : Z) :
  storage_backend this = Immediate →
  counter_holds (st !! __sizeKey) z →
  counter_holds (st !! __charsSizeKey) c →
  safe_integer d → safe_integer a →
  safe_integer (z + 1) → safe_integer (z + 1 - d) →
  safe_integer (c + a) → safe_integer (c + a - d) →
  (∃ st', (_increaseSize this;; _decreaseSize this d;; _getSize this) st
          = (Done (z + 1 - d), st') ∧
          ∀ k, k ≠ __sizeKey → st' !! k = st !! k) ∧
  (∃ st', (_increaseCharsSize this a;; _decreaseCharsSize this d;;
           _getCharsSize this) st
          = (Done (c + a - d), st') ∧
          ∀ k, k ≠ __charsSizeKey → st' !! k = st !! k).
Proof.
  intros Hsync Hz Hc _ _ _ _ _ _.
  pose proof (Hsync : Immediate_store this) as HS.
  apply counter_holds_size in Hz. apply counter_holds_chars in Hc.
  split; eexists.
  - unfold _increaseSize, _decreaseSize.
    erewrite run_bind; cycle 1.
    { erewrite run_bind by (apply run_getSize_at; exact Hz).
      erewrite run_bind by apply run_storage_set. apply run_ret. }
    erewrite run_bind; cycle 1.
    { erewrite run_bind by (apply run_getSize_at, size_cell_insert).
      erewrite run_bind by apply run_storage_set. apply run_ret. }
    rewrite run_getSize, !size_cell_insert. split; [reflexivity |].
    intros k Hk. by rewrite !lookup_insert_ne.
  - unfold _increaseCharsSize, _decreaseCharsSize.
    erewrite run_bind; cycle 1.
    { erewrite run_bind by (apply run_getCharsSize_at; exact Hc).
      erewrite run_bind by apply run_storage_set. apply run_ret. }
    erewrite run_bind; cycle 1.
    { erewrite run_bind by (apply run_getCharsSize_at, chars_cell_insert).
      erewrite run_bind by apply run_storage_set. apply run_ret. }
    rewrite run_getCharsSize, !chars_cell_insert. split; [reflexivity |].
    intros k Hk. by rewrite !lookup_insert_ne.
Qed.

Lemma counters_read_back_witness :
  (∃ st', (_increaseSize Scenario.three;; _decreaseSize Scenario.three 1;;
           _getSize Scenario.three) ∅
          = (Done (0 + 1 - 1), st') ∧
          ∀ k, k ≠ __sizeKey → st' !! k = (∅ : storage) !! k) ∧
  (∃ st', (_increaseCharsSize Scenario.three 46;;
           _decreaseCharsSize Scenario.three 1;;
           _getCharsSize Scenario.three) ∅
          = (Done (0 + 46 - 1), st') ∧
          ∀ k, k ≠ __charsSizeKey → st' !! k = (∅ : storage) !! k).
Proof.
  apply (counters_read_back Scenario.three ∅ 0 0 1 46);
    first [reflexivity | by left | (unfold safe_integer; lia)].
Defined.

(** X3: [get] of a key under which the store holds nothing, or the empty
    text, returns [undefined] and leaves the store as it was. *)
Theorem get_absent_key (st : storage) (k : string) :
  deref_key (st !! k) = None → get k st = (Done None, st).
Proof.
  intros Hk. unfold get, _getNode.
  erewrite run_bind;
    [| erewrite run_bind by apply run_storage_get; rewrite Hk; apply run_ret ].
  reflexivity.
Qed.

Lemma get_absent_key_witness :
  get "a" (state_after Scenario.three 0 Scenario.two_sets)
  = (Done None, state_after Scenario.three 0 Scenario.two_sets).
Proof. apply get_absent_key. vm_compute. reflexivity. Defined.

Section Members.

Lemma assoc_elem (l : lru) k v :
  NoDup l.*1 → (k, v) ∈ l → Spec.assoc k l = Some v.
Proof.
  induction l as [|[k' v'] l IH]; [by intros _ ?%elem_of_nil |].
  rewrite fmap_cons, NoDup_cons, elem_of_cons. cbn [fst Spec.assoc].
  intros [Hk' ND] [[= -> ->] | Hin].
  - by rewrite decide_True.
  - rewrite decide_False; [by apply IH |].
    intros ->. apply Hk'. apply list_elem_of_fmap. by exists (k, v).
Qed.

Lemma assoc_keys (l : lru) k :
  k ∈ l.*1 → ∃ v, Spec.assoc k l = Some v.
Proof.
  intros Hin. destruct (Spec.assoc k l) as [v|] eqn:E; [by exists v |].
  by apply assoc_None in E.
Qed.

End Members.

(** X4: [get] of a cached key returns its value and moves the entry to the
    most recent place; the order of the other entries, the count and the
    byte counter stay as they were. *)
Theorem get_promotes (l : lru) (st : storage) (k v : string) :
  repr l st → (k, v) ∈ l →
  ∃ st',
    get k st = (Done (Some v), st') ∧
    repr ((k, v) :: without k l) st' ∧
    size_cell st' = size_cell st ∧
    chars_cell st' = chars_cell st ∧
    entries (length l) st' = (Done (entries_of ((k, v) :: without k l)), st').
Proof.
  intros [Hl R] Hin.
  pose proof (assoc_elem _ _ _ (r_nodup _ _ _ _ R) Hin) as Ha.
  destruct (assoc_split _ _ _ Ha (r_nodup _ _ _ _ R)) as (l1 & l2 & -> & ->).
  destruct (get_hit _ _ _ _ _ _ R) as (st' & Hrun & R' & Hch).
  assert (Hlen : length ((k, v) :: l1 ++ l2) = length (l1 ++ (k, v) :: l2)).
  { cbn [length]. rewrite !length_app. cbn [length]. lia. }
  exists st'. split; [exact Hrun |].
  split; [split; [done | by rewrite Hlen] |].
  split; [by rewrite (r_size _ _ _ _ R'), (r_size _ _ _ _ R) |].
  split; [exact Hch |].
  apply (entries_spec _ _ _ _ R'); [done | rewrite Hlen; lia].
Qed.

Lemma get_promotes_witness :
  ∃ st',
    get "1" (state_after Scenario.three 0 Scenario.two_sets)
    = (Done (Some "a"), st') ∧
    repr [("1", "a"); ("2", "b")] st' ∧
    size_cell st' = size_cell (state_after Scenario.three 0 Scenario.two_sets) ∧
    chars_cell st'
    = chars_cell (state_after Scenario.three 0 Scenario.two_sets) ∧
    entries 2 st' = (Done [(Some "1", Some "a"); (Some "2", Some "b")], st').
Proof.
  apply (get_promotes [("2", "b"); ("1", "a")]
           (state_after Scenario.three 0 Scenario.two_sets) "1" "a").
  - apply two_entries_repr.
  - right. left.
Defined.

Section MostRecent.

(** [get] of the most recent key writes nothing. *)
Lemma get_most_recent sz k v (l : lru) st :
  repr_at None sz ((k, v) :: l) st → get k st = (Done (Some v), st).
Proof.
  intros R.
  assert (Uk : user_key k) by (apply (r_user _ _ _ _ R); left).
  unfold get.
  erewrite run_bind; [| eapply getNode_spec; [exact R | apply Uk | done] ].
  cbn [nodes]. rewrite lookup_insert_eq.
  erewrite run_bind by apply run_storage_get.
  rewrite (r_tail _ _ _ _ R). cbn [hdk key value].
  rewrite bool_decide_false by (by intros []).
  by erewrite run_bind by apply run_ret.
Qed.

End MostRecent.

(** X5: a second [get] of the same key changes nothing: it returns the same
    value and leaves the store the first [get] produced. *)
Theorem get_twice (l : lru) (st : storage) (k : string) :
  repr l st → k ∈ l.*1 →
  ∃ v st', get k st = (Done (Some v), st') ∧
           (get k;; get k) st = (Done (Some v), st').
Proof.
  intros [Hl R] Hin. destruct (assoc_keys _ _ Hin) as [v Ha].
  destruct (assoc_split _ _ _ Ha (r_nodup _ _ _ _ R)) as (l1 & l2 & -> & _).
  destruct (get_hit _ _ _ _ _ _ R) as (st' & Hrun & R' & _).
  exists v, st'. split; [exact Hrun |].
  erewrite run_bind by exact Hrun. apply (get_most_recent _ _ _ _ _ R').
Qed.

Lemma get_twice_witness :
  ∃ v st',
    get "1" (state_after Scenario.three 0 Scenario.two_sets)
    = (Done (Some v), st') ∧
    (get "1";; get "1") (state_after Scenario.three 0 Scenario.two_sets)
    = (Done (Some v), st').
Proof.
  apply (get_twice [("2", "b"); ("1", "a")]).
  - apply two_entries_repr.
  - right. left.
Defined.

(** X6: on a well-formed cache the two generators yield the same entries in
    opposite orders, [entries] from the most recent one, and neither changes
    the store. *)
Theorem traversals_mirror (l : lru) (st : storage) (fuel : nat) :
  repr l st → (length l ≤ S fuel)%nat →
  entries fuel st = (Done (entries_of l), st) ∧
  reverseEntries fuel st = (Done (reverse (entries_of l)), st).
Proof.
  intros [Hl R] Hf. split.
  - by apply (entries_spec _ _ _ _ R).
  - rewrite (reverseEntries_spec _ _ _ _ R) by done.
    unfold entries_of. by rewrite fmap_reverse.
Qed.

Lemma traversals_mirror_witness :
  entries 1 (state_after Scenario.three 0 Scenario.two_sets)
  = (Done [(Some "2", Some "b"); (Some "1", Some "a")],
     state_after Scenario.three 0 Scenario.two_sets) ∧
  reverseEntries 1 (state_after Scenario.three 0 Scenario.two_sets)
  = (Done [(Some "1", Some "a"); (Some "2", Some "b")],
     state_after Scenario.three 0 Scenario.two_sets).
Proof.
  apply (traversals_mirror [("2", "b"); ("1", "a")]).
  - apply two_entries_repr.
  - cbn. lia.
Defined.

(** X7: on a store that hands back values, [set] of a new key, neither
    empty nor reserved, into a well-formed cache that has room under both
    policies, and whose byte counter is as the engine leaves it and stays an
    integer a double holds exactly, puts the entry at the most recent place,
    adds one to the count and the entry's estimate to the byte counter, and
    keeps every other entry in its order; [get] of the key then returns the
    value. *)
Theorem set_new_key_with_room (this : LRUCache) (fuel : nat) (l : lru)
    (st : storage) (k v : string) :
  storage_backend this = Immediate →
  repr l st → user_key k → k ∉ l.*1 → chars_fit this st k v →
  bytes_exact st (_getNewNodeEstimatedSize k v) →
  Z.of_nat (length l) + 1 ≤ capacity this →
  ∃ st',
    set this fuel k v st = (Done tt, st') ∧
    repr ((k, v) :: l) st' ∧
    size_cell st' = size_cell st + 1 ∧
    chars_cell st' = chars_cell st + _getNewNodeEstimatedSize k v ∧
    get k st' = (Done (Some v), st').
Proof.
  intros Hsync [Hl R] Uk Hk Hfit _ Hroom.
  pose proof (Hsync : Immediate_store this) as HS.
  assert (Hsz : Z.of_nat (length l) ≠ 0) by (destruct l; [done | cbn; lia]).
  destruct (set_new_fits this fuel _ _ st k v R Hl Hsz Hk Uk Hfit Hroom)
    as (st' & Hrun & R' & Hch).
  exists st'. split; [exact Hrun |].
  split; [split; [done | resize R'] |].
  split; [by rewrite (r_size _ _ _ _ R'), (r_size _ _ _ _ R) |].
  split; [exact Hch |]. apply (get_most_recent _ _ _ _ _ R').
Qed.

Lemma set_new_key_with_room_witness :
  ∃ st',
    set Scenario.three 0 "3" "c"
      (state_after Scenario.three 0 Scenario.two_sets) = (Done tt, st') ∧
    repr [("3", "c"); ("2", "b"); ("1", "a")] st' ∧
    size_cell st'
    = size_cell (state_after Scenario.three 0 Scenario.two_sets) + 1 ∧
    chars_cell st'
    = chars_cell (state_after Scenario.three 0 Scenario.two_sets)
      + _getNewNodeEstimatedSize "3" "c" ∧
    get "3" st' = (Done (Some "c"), st').
Proof.
  apply (set_new_key_with_room Scenario.three 0 [("2", "b"); ("1", "a")]).
  - reflexivity.
  - apply two_entries_repr.
  - apply user_key_intro. vm_compute. reflexivity.
  - vm_compute. intros H. repeat (apply elem_of_cons in H as [H | H]; [done |]).
    by apply elem_of_nil in H.
  - exact I.
  - apply (bytes_exact_intro _ _ 383); vm_compute; reflexivity.
  - vm_compute. discriminate.
Defined.

(** X8: on a store that hands back values, [set] of a new key, neither
    empty nor reserved, into a well-formed cache of two or more entries that
    is full under the count policy, that the byte policy admits the key to,
    and whose byte counter is as the engine leaves it and stays an integer a
    double holds exactly, evicts the least recent entry and no other and
    puts the new entry at the most recent place.  The count stays as it was,
    and the byte counter grows by the new entry's estimate: the count policy
    frees no bytes. *)
Theorem set_new_key_evicts_least_recent (this : LRUCache) (fuel : nat)
    (l : lru) (h hv : string) (st : storage) (k v : string) :
  storage_backend this = Immediate →
  repr (l ++ [(h, hv)]) st → l ≠ [] → user_key k →
  k ∉ (l ++ [(h, hv)]).*1 → chars_fit this st k v →
  bytes_exact st (_getNewNodeEstimatedSize k v) →
  Z.of_nat (length (l ++ [(h, hv)])) + 1 > capacity this →
  ∃ st',
    set this fuel k v st = (Done tt, st') ∧
    repr ((k, v) :: l) st' ∧
    get h st' = (Done None, st') ∧
    size_cell st' = size_cell st ∧
    chars_cell st' = chars_cell st + _getNewNodeEstimatedSize k v.
Proof.
  intros Hsync [_ R] Hl Uk Hk Hfit _ Hfull.
  pose proof (Hsync : Immediate_store this) as HS.
  destruct (lru_snoc _ Hl) as (l0 & p & pv & ->).
  rewrite <- app_assoc in R, Hk, Hfull. cbn [app] in R, Hk, Hfull.
  assert (Hsz : Z.of_nat (length (l0 ++ [(p, pv); (h, hv)])) ≠ 0).
  { rewrite length_app. cbn. lia. }
  destruct (set_new_evict this fuel _ _ _ _ _ _ st k v R Hsz Hk Uk Hfit Hfull)
    as (st' & Hrun & R' & Hch).
  exists st'. split; [exact Hrun |].
  split; [split; [done | resize R'] |].
  split; [| split; [by rewrite (r_size _ _ _ _ R'), (r_size _ _ _ _ R) | done]].
  assert (E : l0 ++ [(p, pv); (h, hv)] = (l0 ++ [(p, pv)]) ++ [(h, hv)])
    by by rewrite <- app_assoc.
  pose proof (r_nodup _ _ _ _ R) as ND. rewrite E in ND.
  apply NoDup_snoc_keys in ND as [Hh _].
  assert (Uh : user_key h).
  { apply (r_user _ _ _ _ R). rewrite E, fmap_app, elem_of_app. right. left. }
  apply (get_miss _ _ _ _ R'); [| apply Uh].
  rewrite fmap_cons, not_elem_of_cons. split; [| done].
  intros ->. apply Hk. rewrite E, fmap_app, elem_of_app. right. left.
Qed.

Lemma set_new_key_evicts_least_recent_witness :
  ∃ st',
    set (mkCache Immediate 2 None) 0 "3" "c"
      (state_after Scenario.three 0 Scenario.two_sets) = (Done tt, st') ∧
    repr [("3", "c"); ("2", "b")] st' ∧
    get "1" st' = (Done None, st') ∧
    size_cell st' = size_cell (state_after Scenario.three 0 Scenario.two_sets) ∧
    chars_cell st'
    = chars_cell (state_after Scenario.three 0 Scenario.two_sets)
      + _getNewNodeEstimatedSize "3" "c".
Proof.
  apply (set_new_key_evicts_least_recent (mkCache Immediate 2 None) 0
           [("2", "b")] "1" "a").
  - reflexivity.
  - apply two_entries_repr.
  - done.
  - apply user_key_intro. vm_compute. reflexivity.
  - vm_compute. intros H. repeat (apply elem_of_cons in H as [H | H]; [done |]).
    by apply elem_of_nil in H.
  - exact I.
  - apply (bytes_exact_intro _ _ 383); vm_compute; reflexivity.
  - vm_compute. reflexivity.
Defined.

(** X9: on a store that hands back values, with a capacity of two or more
    and no byte capacity, every run of [set] and [get] on keys that are
    neither empty nor reserved, started on the empty store, returns what the
    specification returns; the cache never holds more entries than its
    capacity, and a traversal yields the specification's entries in recency
    order. *)
Theorem run_follows_specification (this : LRUCache) (fuel : nat)
    (ops : list op) :
  storage_backend this = Immediate →
  charsCapacity this = None → 2 ≤ capacity this →
  Forall (λ o, user_key (op_key o)) ops →
  (run this fuel ops ∅).1 = Done (spec_run (capacity this) [] ops).1 ∧
  Z.of_nat (length (spec_run (capacity this) [] ops).2) ≤ capacity this ∧
  ((spec_run (capacity this) [] ops).2 ≠ [] →
   entries (length (spec_run (capacity this) [] ops).2)
     (state_after this fuel ops)
   = (Done (entries_of (spec_run (capacity this) [] ops).2),
      state_after this fuel ops)).
Proof.
  intros Hsync Hb Hc Hk.
  pose proof (Hsync : Immediate_store this) as HS.
  destruct (state_after_inv this fuel ops Hb Hc Hk) as [Hres Hinv].
  split; [exact Hres |].
  destruct Hinv as [[-> _] | [[Hl R] Hcap]].
  - split; [cbn; lia | done].
  - split; [exact Hcap |]. intros _.
    apply (entries_spec _ _ _ _ R); [done | lia].
Qed.

Lemma run_follows_specification_witness :
  (run Scenario.three 0
     [OpSet "1" "a"; OpSet "2" "b"; OpSet "3" "c"; OpSet "4" "d"; OpGet "2";
      OpSet "5" "e"; OpGet "1"] ∅).1
  = Done [None; None; None; None; Some "b"; None; None] ∧
  Z.of_nat 3 ≤ 3 ∧
  ([("5", "e"); ("2", "b"); ("4", "d")] ≠ [] →
   entries 3
     (state_after Scenario.three 0
        [OpSet "1" "a"; OpSet "2" "b"; OpSet "3" "c"; OpSet "4" "d";
         OpGet "2"; OpSet "5" "e"; OpGet "1"])
   = (Done [(Some "5", Some "e"); (Some "2", Some "b"); (Some "4", Some "d")],
      state_after Scenario.three 0
        [OpSet "1" "a"; OpSet "2" "b"; OpSet "3" "c"; OpSet "4" "d";
         OpGet "2"; OpSet "5" "e"; OpGet "1"])).
Proof.
  apply (run_follows_specification Scenario.three 0
           [OpSet "1" "a"; OpSet "2" "b"; OpSet "3" "c"; OpSet "4" "d";
            OpGet "2"; OpSet "5" "e"; OpGet "1"]).
  - reflexivity.
  - reflexivity.
  - done.
  - user_keys.
Defined.

Section ReadYourWrite.

Lemma spec_set_head capacity (l : lru) k v :
  ∃ l', Spec.set capacity l k v = (k, v) :: l'.
Proof.
  unfold Spec.set. destruct (Spec.assoc k l); [by eexists |].
  case_bool_decide; by eexists.
Qed.

End ReadYourWrite.



Section BytePolicy.

Lemma reverse_two (l : lru) h hv p pv rest :
  reverse l = (h, hv) :: (p, pv) :: rest →
  l = reverse rest ++ [(p, pv); (h, hv)] ∧
  reverse ((p, pv) :: rest) = reverse rest ++ [(p, pv)].
Proof.
  intros E. split; [| by rewrite reverse_cons].
  rewrite <- (reverse_involutive l), E, !reverse_cons, <- app_assoc. done.
Qed.

(** The loop of [_checkCapacity] does on the store what [evict_for_bytes]
    does on the list. *)
Lemma checkCapacity_loop_spec sz c e cap fuel :
  ∀ ri rc (l : lru) st ri' rc' l',
    repr_at None sz l st →
    evict_for_bytes fuel c e cap ri rc l = Some (ri', rc', l') →
    ∃ st', _checkCapacity_loop fuel c e cap ri rc st = (Done (ri', rc'), st') ∧
           repr_at None sz l' st' ∧
           chars_cell st' = chars_cell st ∧
           (∃ gone, l = l' ++ gone ∧ ri' = ri + Z.of_nat (length gone)) ∧
           c + e - rc' ≤ cap ∧
           (l ≠ [] → l' ≠ []).
Proof.
  induction fuel as [|fuel IH]; intros ri rc l st ri' rc' l' R Hs;
    cbn [evict_for_bytes _checkCapacity_loop] in *;
    case_bool_decide as Hover; try discriminate.
  - injection Hs as <- <- <-. exists st.
    split; [done |]. split; [done |]. split; [done |].
    split; [| split; [lia | done]].
    exists []. by rewrite app_nil_r, Z.add_0_r.
  - destruct (reverse l) as [|[h hv] [|[p pv] rest]] eqn:E; try discriminate.
    destruct (reverse_two _ _ _ _ _ _ E) as [-> Erev]. rewrite Erev in Hs.
    destruct (removeHead_spec _ _ _ _ _ _ _ R) as (st1 & Hrun1 & R1 & Hch1).
    destruct (IH _ _ _ _ _ _ _ R1 Hs)
      as (st2 & Hrun2 & R2 & Hch2 & (gone & Hgone & Hri) & Hfit & Hne).
    exists st2. erewrite run_bind by exact Hrun1.
    split; [exact Hrun2 |]. split; [exact R2 |]. split; [congruence |].
    split; [| split; [exact Hfit |]].
    + exists (gone ++ [(h, hv)]). split.
      * replace (reverse rest ++ [(p, pv); (h, hv)])
          with ((reverse rest ++ [(p, pv)]) ++ [(h, hv)])
          by by rewrite <- app_assoc.
        by rewrite Hgone, <- app_assoc.
      * rewrite length_app. cbn [length]. lia.
    + intros _. apply Hne. by destruct (reverse rest).
  - injection Hs as <- <- <-. exists st.
    split; [done |]. split; [done |]. split; [done |].
    split; [| split; [lia | done]].
    exists []. by rewrite app_nil_r, Z.add_0_r.
Qed.

End BytePolicy.

(** X11: the byte policy, on a store that hands back values.  When [set]
    brings a new key, neither empty nor reserved, to a well-formed cache
    whose byte capacity is enabled and whose byte counter is as the engine
    leaves it and stays, through the sums of the call, an integer a double
    holds exactly, and the eviction loop, as [evict_for_bytes] runs it on
    the list, stops with at least one entry left and room under the count
    policy, then [set] returns; exactly the
    entries the loop dropped from the least recent end are gone, the new
    entry is the most recent one, the count is right, the byte counter has
    lost the sizes of the evicted records and gained the new estimate, and it
    does not exceed the byte capacity. *)
Theorem set_new_key_under_byte_policy (this : LRUCache) (fuel : nat)
    (cap : Z) (l : lru) (st : storage) (k v : string) (ri rc : Z) (l1 : lru) :
  storage_backend this = Immediate →
  repr l st → charsCapacity this = Some cap → cap > 0 →
  user_key k → k ∉ l.*1 →
  bytes_exact st (_getNewNodeEstimatedSize k v) →
  evict_for_bytes fuel (chars_cell st) (_getNewNodeEstimatedSize k v) cap 0 0 l
    = Some (ri, rc, l1) →
  safe_integer (chars_cell st - rc) →
  Z.of_nat (length l1) + 1 ≤ capacity this →
  ∃ st',
    set this fuel k v st = (Done tt, st') ∧
    repr ((k, v) :: l1) st' ∧
    (∃ gone, l = l1 ++ gone ∧ Z.of_nat (length gone) = ri) ∧
    chars_cell st' = chars_cell st - rc + _getNewNodeEstimatedSize k v ∧
    chars_cell st' ≤ cap.
Proof.
  intros Hsync [Hl R] Hcap Hpos Uk Hk _ Hs _ Hroom.
  pose proof (Hsync : Immediate_store this) as HS.
  destruct (checkCapacity_loop_spec _ _ _ _ _ _ _ _ _ _ _ _ R Hs)
    as (st1 & Hrun1 & R1 & Hch1 & (gone & -> & Hri) & Hfit & Hne).
  rewrite Z.add_0_l in Hri.
  destruct (decreaseSize_spec (this := this) _ _ _ _ ri R1)
    as (st2 & Hrun2 & R2 & Hch2).
  destruct (decreaseCharsSize_spec (this := this) _ _ _ _ rc R2)
    as (st3 & Hrun3 & R3 & Hch3).
  assert (Hk1 : k ∉ l1.*1).
  { intros Hin. apply Hk. rewrite fmap_app, elem_of_app. by left. }
  destruct (addNewNode_rest this _ _ _ None None k v R3 (Hne Hl) Hk1 Uk)
    as (st4 & Hrun4 & R4 & Hch4).
  assert (Hlen : Z.of_nat (length (l1 ++ gone)) - ri = Z.of_nat (length l1)).
  { rewrite length_app. lia. }
  rewrite Hlen in *.
  exists st4. split.
  - unfold set.
    erewrite run_bind; [| eapply getNode_spec; [exact R | apply Uk | done] ].
    rewrite nodes_lookup_None by done. unfold _addNewNode.
    erewrite run_bind by (eapply getSize_spec; exact R).
    rewrite bool_decide_false by (destruct l1; [by specialize (Hne Hl) | cbn; lia]).
    erewrite run_bind; [exact Hrun4 |].
    unfold _checkCapacity. rewrite Hcap, bool_decide_true by done.
    erewrite run_bind; cycle 1.
    { erewrite run_bind by apply run_getCharsSize. cbn [key value].
      erewrite run_bind by exact Hrun1. cbn beta iota.
      erewrite run_bind by exact Hrun2.
      erewrite run_bind by exact Hrun3. apply run_ret. }
    erewrite run_bind by (eapply getSize_spec; exact R3).
    by rewrite bool_decide_false by lia.
  - split; [split; [done | resize R4] |].
    split; [by exists gone |].
    assert (E : chars_cell st4
                = chars_cell st - rc + _getNewNodeEstimatedSize k v).
    { rewrite Hch4, Hch3, Hch2, Hch1. lia. }
    split; [exact E | rewrite E; lia].
Qed.

Lemma three_entries_snug :
  repr [("3", "c"); ("2", "b"); ("1", "a")] (state_after snug 5 three_sets).
Proof.
  destruct (run_quiet snug 5 three_sets [] ∅) as (st' & Hrun & Hinv);
    [left; split; [done | apply empty_store_empty]
    | unfold three_sets; user_keys | vm_compute; reflexivity |].
  unfold state_after. rewrite Hrun. cbn [snd].
  by destruct Hinv as [[[=] _] | [R _]].
Qed.

Lemma set_new_key_under_byte_policy_witness :
  ∃ st',
    set snug 5 "4" "d" (state_after snug 5 three_sets) = (Done tt, st') ∧
    repr [("4", "d"); ("3", "c"); ("2", "b")] st' ∧
    (∃ gone, [("3", "c"); ("2", "b"); ("1", "a")]
             = [("3", "c"); ("2", "b")] ++ gone ∧
             Z.of_nat (length gone) = 1) ∧
    chars_cell st'
    = chars_cell (state_after snug 5 three_sets) - 35
      + _getNewNodeEstimatedSize "4" "d" ∧
    chars_cell st' ≤ 440.
Proof.
  apply (set_new_key_under_byte_policy snug 5 440
           [("3", "c"); ("2", "b"); ("1", "a")]
           (state_after snug 5 three_sets) "4" "d" 1 35
           [("3", "c"); ("2", "b")]).
  - reflexivity.
  - apply three_entries_snug.
  - reflexivity.
  - reflexivity.
  - apply user_key_intro. vm_compute. reflexivity.
  - vm_compute. intros H. repeat (apply elem_of_cons in H as [H | H]; [done |]).
    by apply elem_of_nil in H.
  - apply (bytes_exact_intro _ _ 429); vm_compute; reflexivity.
  - vm_compute. reflexivity.
  - apply safe_integer_intro. vm_compute. reflexivity.
  - vm_compute. discriminate.
Defined.

Section EarlierEngine.

Lemma earlier_set_existing this sz (l1 : lru) k v0 v (l2 : lru) st :
  repr_at None sz (l1 ++ (k, v0) :: l2) st →
  ∃ st', Earlier.set this k v st = (Done tt, st') ∧
         repr_at None sz ((k, v) :: l1 ++ l2) st'.
Proof.
  intros R.
  destruct (NoDup_mid_keys _ _ _ _ (r_nodup _ _ _ _ R)) as (Hk1 & Hk2 & ND).
  assert (Uk : user_key k).
  { apply (r_user _ _ _ _ R). rewrite fmap_app, elem_of_app. right. left. }
  unfold Earlier.set.
  erewrite run_bind; [| eapply getNode_spec; [exact R | apply Uk | done] ].
  rewrite nodes_lookup_mid by done. cbn [key value next prev].
  erewrite run_bind by apply run_setNode.
  destruct (get_hit _ _ _ _ _ _ (replace_value _ _ _ _ v _ _ R))
    as (st' & Hrun & R' & _).
  erewrite run_bind by exact Hrun. rewrite run_ret. by exists st'.
Qed.

Lemma earlier_set_first this `{!Immediate_store this} k v st :
  empty_store st → user_key k →
  ∃ st', Earlier.set this k v st = (Done tt, st') ∧
         repr_at None 1 [(k, v)] st'.
Proof.
  intros [Hsz Hemp] [Hk0 Hkr].
  pose proof reserved_distinct as (?&?&?&?&?&?).
  eexists. unfold Earlier.set, _getNode.
  erewrite run_bind;
    [| erewrite run_bind by apply run_storage_get;
       rewrite (Hemp k Hkr); apply run_ret ].
  cbn beta iota zeta.
  erewrite run_bind by apply run_getSize.
  rewrite Hsz, bool_decide_true by done.
  unfold Earlier._initialize. cbn [key].
  erewrite run_bind; cycle 1.
  { erewrite run_bind by apply run_storage_set.
    erewrite run_bind by apply run_storage_set.
    apply run_setNode. }
  unfold _increaseSize.
  erewrite run_bind; cycle 1.
  { erewrite run_bind
      by (apply run_getSize_at; unfold size_cell; lookup_ne; exact Hsz).
    erewrite run_bind by apply run_storage_set. apply run_ret. }
  rewrite run_ret. split; [reflexivity |]. split.
  - cbn. apply NoDup_singleton.
  - intros x. cbn. rewrite list_elem_of_singleton. by intros ->.
  - lookup_ne. by rewrite lookup_insert_eq.
  - lookup_ne. by rewrite lookup_insert_eq.
  - unfold size_cell. by rewrite lookup_insert_eq, Number_of_number.
  - intros x Hx _. cbn [nodes hdk]. lookup_ne.
    destruct (decide (x = k)) as [-> | Hxk].
    { by rewrite !lookup_insert_eq. }
    lookup_ne. by rewrite lookup_empty, Hemp.
Qed.

Lemma earlier_set_new this `{!Immediate_store this} (l : lru) k v st :
  repr l st → user_key k → k ∉ l.*1 →
  ∃ st', Earlier.set this k v st = (Done tt, st') ∧
         repr (if bool_decide (Z.of_nat (length l) + 1 > capacity this)
               then (k, v) :: removelast l else (k, v) :: l) st'.
Proof.
  intros [Hl R] Uk Hk.
  destruct (setTail_spec _ _ _ None None k v (repr_at_weaken (Some k) _ _ _ R)
              Hl Hk Uk) as (st1 & Hrun1 & R1 & _).
  assert (Hsz : Z.of_nat (length l) ≠ 0) by (destruct l; [done | cbn; lia]).
  unfold Earlier.set.
  erewrite run_bind; [| eapply getNode_spec; [exact R | apply Uk | done] ].
  rewrite nodes_lookup_None by done. cbn beta iota zeta.
  erewrite run_bind by (eapply getSize_spec; exact R).
  rewrite bool_decide_false by done.
  erewrite run_bind by exact Hrun1.
  erewrite run_bind by (eapply getSize_spec; exact R1).
  case_bool_decide as Hfull.
  - destruct (lru_snoc _ Hl) as (l' & h & hv & ->).
    destruct (lru_snoc ((k, v) :: l')) as (l0 & p & pv & E); [done |].
    rewrite removelast_last.
    assert (E' : (k, v) :: l' ++ [(h, hv)] = l0 ++ [(p, pv); (h, hv)]).
    { change ((k, v) :: l' ++ [(h, hv)]) with (((k, v) :: l') ++ [(h, hv)]).
      by rewrite E, <- app_assoc. }
    rewrite E' in R1.
    destruct (removeHead_spec _ _ _ _ _ _ _ R1) as (st2 & Hrun2 & R2 & _).
    exists st2. erewrite run_bind by exact Hrun2.
    pose proof (f_equal length E) as EL.
    cbn [length] in EL. rewrite length_app in EL. cbn [length] in EL.
    split; [apply run_ret |]. rewrite E. split; [by destruct l0 |].
    resize R2.
  - destruct (increaseSize_spec (this := this) _ _ _ _ R1)
      as (st2 & Hrun2 & R2 & _).
    exists st2. erewrite run_bind by exact Hrun2.
    split; [apply run_ret |]. split; [done | resize R2].
Qed.

Lemma earlier_exec_refines this `{!Immediate_store this} (l : lru) st o :
  (l = [] ∧ empty_store st) ∨ repr l st → user_key (op_key o) →
  ∃ st', Earlier.exec this o st
         = (Done (spec_exec (capacity this) l o).1, st') ∧
         (((spec_exec (capacity this) l o).2 = [] ∧ empty_store st') ∨
          repr (spec_exec (capacity this) l o).2 st').
Proof.
  intros Hinv Uk. destruct o as [k v | k]; cbn [op_key] in Uk;
    cbn [Earlier.exec spec_exec fst snd].
  - unfold Spec.set. destruct Hinv as [[-> He] | [Hl R]].
    + destruct (earlier_set_first this k v st He Uk) as (st' & Hrun & R).
      exists st'. erewrite run_bind by exact Hrun. split; [done |].
      right. cbn [Spec.assoc removelast]. by case_bool_decide.
    + destruct (Spec.assoc k l) as [v0|] eqn:Ha.
      * destruct (assoc_split _ _ _ Ha (r_nodup _ _ _ _ R))
          as (l1 & l2 & -> & ->).
        destruct (earlier_set_existing this _ _ _ _ v _ _ R)
          as (st' & Hrun & R').
        exists st'. erewrite run_bind by exact Hrun. split; [done |].
        right. split; [done | resize R'].
      * destruct (earlier_set_new this l k v st (conj Hl R) Uk
                    (assoc_None _ _ Ha)) as (st' & Hrun & R').
        exists st'. erewrite run_bind by exact Hrun. split; [done | by right].
  - unfold Spec.get. destruct Hinv as [[-> He] | [Hl R]].
    + exists st. cbn [Spec.assoc fst snd]. split; [| by left].
      apply get_empty; [done | apply Uk].
    + destruct (Spec.assoc k l) as [v0|] eqn:Ha; cbn [fst snd].
      * destruct (assoc_split _ _ _ Ha (r_nodup _ _ _ _ R))
          as (l1 & l2 & -> & ->).
        destruct (get_hit _ _ _ _ _ _ R) as (st' & Hrun & R' & _).
        exists st'. split; [done |]. right. split; [done | resize R'].
      * exists st. split; [| by right].
        apply (get_miss _ _ _ _ R); [by apply assoc_None | apply Uk].
Qed.

Lemma earlier_run_refines this `{!Immediate_store this} ops :
  ∀ (l : lru) st,
    (l = [] ∧ empty_store st) ∨ repr l st →
    Forall (λ o, user_key (op_key o)) ops →
    ∃ st', Earlier.run this ops st
           = (Done (spec_run (capacity this) l ops).1, st') ∧
           (((spec_run (capacity this) l ops).2 = [] ∧ empty_store st') ∨
            repr (spec_run (capacity this) l ops).2 st').
Proof.
  induction ops as [|o ops IH]; intros l st Hinv Hk.
  - exists st. by split.
  - apply Forall_cons in Hk as [Ho Hk].
    destruct (earlier_exec_refines this l st o Hinv Ho)
      as (st1 & Hrun1 & Hinv1).
    cbn [Earlier.run spec_run].
    destruct (spec_exec (capacity this) l o) as [r l1]. cbn [fst snd] in *.
    destruct (IH l1 st1 Hinv1 Hk) as (st2 & Hrun2 & Hinv2).
    destruct (spec_run (capacity this) l1 ops) as [rs l2].
    cbn [fst snd] in *.
    exists st2. erewrite run_bind by exact Hrun1.
    erewrite run_bind by exact Hrun2. by split.
Qed.

End EarlierEngine.

(** X12: the earlier [set] of [src/unnamed/part_000] links the new node in
    before it checks the capacity.  On a store that hands back values, every
    run of [set] and [get] with it on keys that are neither empty nor
    reserved, started on the empty store, returns what the specification
    returns and leaves a store a traversal reads the specification's entries
    from, at every capacity, 1 included. *)
Theorem earlier_run_follows_specification (this : LRUCache) (ops : list op) :
  storage_backend this = Immediate →
  Forall (λ o, user_key (op_key o)) ops →
  ∃ st',
    Earlier.run this ops ∅
    = (Done (spec_run (capacity this) [] ops).1, st') ∧
    ((spec_run (capacity this) [] ops).2 ≠ [] →
     repr (spec_run (capacity this) [] ops).2 st' ∧
     entries (length (spec_run (capacity this) [] ops).2) st'
     = (Done (entries_of (spec_run (capacity this) [] ops).2), st')).
Proof.
  intros Hsync Hk.
  pose proof (Hsync : Immediate_store this) as HS.
  destruct (earlier_run_refines this ops [] ∅) as (st' & Hrun & Hinv);
    [left; split; [done | apply empty_store_empty] | done |].
  exists st'. split; [exact Hrun |]. intros Hl.
  destruct Hinv as [[E _] | R]; [done |]. split; [exact R |].
  destruct R as [_ R]. apply (entries_spec _ _ _ _ R); [done | lia].
Qed.

Lemma earlier_run_follows_specification_witness :
  ∃ st',
    Earlier.run Scenario.one
      [OpSet "1" "a"; OpSet "2" "b"; OpGet "1"; OpGet "2"] ∅
    = (Done [None; None; None; Some "b"], st') ∧
    ([("2", "b")] ≠ [] →
     repr [("2", "b")] st' ∧
     entries 1 st' = (Done [(Some "2", Some "b")], st')).
Proof.
  apply (earlier_run_follows_specification Scenario.one
           [OpSet "1" "a"; OpSet "2" "b"; OpGet "1"; OpGet "2"]).
  - reflexivity.
  - user_keys.
Defined.

(** ** Further properties of the adapter *)

Ltac unfold_adapter :=
  unfold Memoize.memoized, Memoize.memoized_body, Memoize.try_catch,
    Memoize.cache_get, Memoize.cache_set, Memoize.on_cache, Memoize.lift,
    Memoize.emit, Memoize.assign, Memoize.read,
    Earlier.memoized, Earlier.cache_get, Earlier.cache_set, Earlier.on_cache,
    Earlier.invoke, mbind, ST_bind, mret, ST_ret.

(** X13: one call of the earlier wrapper invokes [func] at most once,
    whatever the resolver, the cache and [func] do.  Either [func] was not
    invoked, and a value the call returns is a truthy value; or it was
    invoked once, and a value the call returns is the result of [func]. *)
Theorem earlier_memoized_invokes_func_at_most_once {C : Type}
    (stringify_args : list Memoize.jsval → string)
    (f : Memoize.Func) (kr : option Memoize.KeyResolver)
    (cache : option (@Memoize.CacheGet C * @Memoize.CacheSet C))
    (args : list Memoize.jsval) (w : Memoize.world) :
  (Memoize.trace (Earlier.memoized stringify_args f kr cache args w).2
   = Memoize.trace w ∧
   ∀ v, (Earlier.memoized stringify_args f kr cache args w).1 = Done v →
        Memoize.truthy_val v = true) ∨
  (Memoize.trace (Earlier.memoized stringify_args f kr cache args w).2
   = Memoize.trace w ++ [Memoize.Invoked args] ∧
   ∀ v, (Earlier.memoized stringify_args f kr cache args w).1 = Done v →
        f args = Done v).
Proof.
  unfold_adapter.
  destruct kr as [kr|];
    [destruct (kr args) as [k | e |] | set (k := stringify_args args)];
    try (left; by split).
  all: destruct cache as [[g s]|]; [| left; by split].
  all: destruct (g k (Memoize.cache_state w)) as [[c | e |] c1];
    cbn [Memoize.cache_state Memoize.trace]; try (left; by split).
  all: destruct (Memoize.truthy_val c) eqn:Ht;
    [left; split; [done | by intros v [= <-]] |].
  all: right; destruct (f args) as [r | e |];
    cbn [Memoize.cache_state Memoize.trace]; try by split.
  all: destruct (s k r c1) as [[[] | e |] c2]; by split.
Qed.

(** X14: the earlier wrapper catches nothing.  When the resolver gives a key
    and [cache.get] throws, the call throws that error, and [func] is not
    invoked. *)
Theorem earlier_memoized_cache_failure_reaches_caller {C : Type}
    (stringify_args : list Memoize.jsval → string)
    (f : Memoize.Func) (kr : option Memoize.KeyResolver)
    (g : @Memoize.CacheGet C) (s : @Memoize.CacheSet C)
    (args : list Memoize.jsval) (w : Memoize.world) (k : string) (e : exn)
    (c1 : C) :
  match kr with Some kr => kr args | None => Done (stringify_args args) end
    = Done k →
  g k (Memoize.cache_state w) = (Threw e, c1) →
  Earlier.memoized stringify_args f kr (Some (g, s)) args w
  = (Threw e, Memoize.mkWorld c1 (Memoize.trace w)).
Proof.
  intros Hk Hg. unfold_adapter.
  destruct kr as [kr|]; [rewrite Hk | injection Hk as ->]; by rewrite Hg.
Qed.

Lemma earlier_memoized_cache_failure_reaches_caller_witness :
  Earlier.memoized MemoizeExample.arity_key MemoizeExample.add None
    (Some (AdapterExample.down_get, AdapterExample.down_set))
    [Memoize.VNum 1; Memoize.VNum 2] (Memoize.mkWorld [] [])
  = (Threw AdapterExample.down, Memoize.mkWorld [] []).
Proof.
  apply (earlier_memoized_cache_failure_reaches_caller
           MemoizeExample.arity_key MemoizeExample.add None
           AdapterExample.down_get AdapterExample.down_set
           [Memoize.VNum 1; Memoize.VNum 2] (Memoize.mkWorld [] []) "2");
    reflexivity.
Defined.





(** X17: when [func] returns a falsy value on a miss, the value is cached
    and the wrapper nevertheless reports a second miss and invokes [func] a
    second time; the caller gets what the second call does. *)
Theorem memoized_invokes_func_again_on_falsy_result {C : Type}
    (generateKey : list Memoize.jsval → string)
    (f : Memoize.Func) (kr : option Memoize.KeyResolver)
    (g : @Memoize.CacheGet C) (s : @Memoize.CacheSet C)
    (cu fc : Memoize.Hook) (er : Memoize.ErrorHook)
    (args : list Memoize.jsval) (w : Memoize.world) (k : string)
    (c r : Memoize.jsval) (c1 c2 : C) :
  match kr with Some kr => kr args | None => Done (generateKey args) end
    = Done k →
  g k (Memoize.cache_state w) = (Done c, c1) →
  Memoize.truthy_val c = false →
  fc args = Done tt → f args = Done r → Memoize.truthy_val r = false →
  s k r c1 = (Done tt, c2) →
  Memoize.memoized generateKey f kr (Some (g, s)) cu fc er args w
  = (Done r,
     Memoize.mkWorld c2
       (Memoize.trace w ++ [Memoize.FuncCalled args; Memoize.Invoked args;
                            Memoize.FuncCalled args; Memoize.Invoked args])).
Proof.
  intros Hk Hg Ht Hfc Hf Hr Hs. unfold_adapter.
  destruct kr as [kr|]; [rewrite Hk | injection Hk as ->];
    cbn; rewrite Hg; cbn; rewrite Ht; cbn; rewrite Hfc; cbn; rewrite Hf; cbn;
    rewrite Hs; cbn; rewrite Hr; cbn;
    by rewrite <- !app_assoc.
Qed.

Lemma memoized_invokes_func_again_on_falsy_result_witness :
  Memoize.memoized MemoizeExample.arity_key AdapterExample.zero None
    (Some (MemoizeExample.slot_get, MemoizeExample.slot_set))
    MemoizeExample.quiet MemoizeExample.quiet MemoizeExample.quiet_error
    [Memoize.VNum 1] (Memoize.mkWorld [] [])
  = (Done (Memoize.VNum 0),
     Memoize.mkWorld [("1", Memoize.VNum 0)]
       [Memoize.FuncCalled [Memoize.VNum 1]; Memoize.Invoked [Memoize.VNum 1];
        Memoize.FuncCalled [Memoize.VNum 1]; Memoize.Invoked [Memoize.VNum 1]]).
Proof.
  apply (memoized_invokes_func_again_on_falsy_result
           MemoizeExample.arity_key AdapterExample.zero None
           MemoizeExample.slot_get MemoizeExample.slot_set
           MemoizeExample.quiet MemoizeExample.quiet
           MemoizeExample.quiet_error [Memoize.VNum 1]
           (Memoize.mkWorld [] []) "1" Memoize.VUndefined (Memoize.VNum 0)
           [] [("1", Memoize.VNum 0)]);
    reflexivity.
Defined.



(** X19: a cache that fails never makes the call fail.  When the hooks
    return and [func] returns [r], the call returns, whatever the resolver
    and the cache return or throw, and with a [cache] that is [null] too;
    the value is [r] or a truthy value. *)
Theorem memoized_returns_despite_the_cache {C : Type}
    (generateKey : list Memoize.jsval → string)
    (f : Memoize.Func) (kr : option Memoize.KeyResolver)
    (cache : option (@Memoize.CacheGet C * @Memoize.CacheSet C))
    (cu fc : Memoize.Hook) (er : Memoize.ErrorHook)
    (args : list Memoize.jsval) (w : Memoize.world) (r : Memoize.jsval) :
  cu args = Done tt → fc args = Done tt → (∀ e, er e args = Done tt) →
  f args = Done r →
  match kr with Some kr => kr args ≠ OutOfFuel | None => True end →
  (∀ g s, cache = Some (g, s) →
     ∀ k c, (g k c).1 ≠ OutOfFuel ∧ ∀ v, (s k v c).1 ≠ OutOfFuel) →
  ∃ v w',
    Memoize.memoized generateKey f kr cache cu fc er args w = (Done v, w') ∧
    (v = r ∨ Memoize.truthy_val v = true).
Proof.
  intros Hcu Hfc Her Hf Hkr Hcache. unfold_adapter.
  destruct kr as [kr|];
    [destruct (kr args) as [k | e |]; [| | done]
    | set (k := generateKey args)].
  2: { cbn. rewrite Her. cbn. rewrite Hfc. cbn. rewrite Hf. eauto. }
  all: destruct cache as [[g s]|];
    [| cbn; rewrite Her; cbn; rewrite Hfc; cbn; rewrite Hf; eauto].
  all: destruct (Hcache g s eq_refl k (Memoize.cache_state w)) as [Hg _];
    cbn; destruct (g k (Memoize.cache_state w)) as [[c | e |] c1];
    [| cbn; rewrite Her; cbn; rewrite Hfc; cbn; rewrite Hf; eauto | done].
  all: cbn; destruct (Memoize.truthy_val c) eqn:Ht;
    [cbn; rewrite Hcu; cbn; eauto |].
  all: cbn; rewrite Hfc; cbn; rewrite Hf; cbn.
  all: destruct (Hcache g s eq_refl k c1) as [_ Hs]; specialize (Hs r);
    destruct (s k r c1) as [[[] | e |] c2]; [| | done]; cbn;
    rewrite ?Her; cbn; destruct (Memoize.truthy_val r) eqn:Hr; cbn; eauto.
Qed.

Lemma memoized_returns_despite_the_cache_witness :
  ∃ v w',
    Memoize.memoized MemoizeExample.arity_key MemoizeExample.add None
      (Some (AdapterExample.down_get, AdapterExample.down_set))
      MemoizeExample.quiet MemoizeExample.quiet MemoizeExample.quiet_error
      [Memoize.VNum 1; Memoize.VNum 2] (Memoize.mkWorld [] [])
    = (Done v, w') ∧
    (v = Memoize.VNum 3 ∨ Memoize.truthy_val v = true).
Proof.
  apply (memoized_returns_despite_the_cache MemoizeExample.arity_key
           MemoizeExample.add None
           (Some (AdapterExample.down_get, AdapterExample.down_set))
           MemoizeExample.quiet MemoizeExample.quiet
           MemoizeExample.quiet_error [Memoize.VNum 1; Memoize.VNum 2]
           (Memoize.mkWorld [] []) (Memoize.VNum 3));
    try reflexivity; try done.
  intros g s [= <- <-] k c. by split.
Defined.

Ltac settle_memoize :=
  cbn;
  cbv [Validation.nullish Validation.callable Validation.callable_or_omitted
       orb andb];
  split; intros Hacc; first [discriminate Hacc | solve [eauto]].

(** X20: what [memoize] lets through.  It returns a wrapper exactly when
    [func] is a function, [keyResolver] is a function, [null] or
    [undefined], [cache] is [null], [undefined] or has functions for [get]
    and [set], and [logger] is an object each of whose three hooks is a
    function or left out; otherwise it throws a [TypeError]. *)
Theorem memoize_accepts_exactly {C : Type}
    (generateKey : list Memoize.jsval → string) (m : @Memoize.Memoize C) :
  (Validation.accepted m = true →
   ∃ wrapper, Memoize.memoize generateKey m = Done wrapper) ∧
  (Validation.accepted m = false →
   ∃ msg, Memoize.memoize generateKey m = Threw (TypeError msg)).
Proof.
  unfold Memoize.memoize, Validation.accepted.
  destruct m as [f kr c lg]. cbn [Memoize.func Memoize.keyResolver
    Memoize.cache Memoize.logger].
  destruct lg as [|cu fc er]; destruct f; try settle_memoize;
    destruct kr; try settle_memoize;
    destruct c as [|g s]; try settle_memoize;
    try (destruct g; try settle_memoize; destruct s; try settle_memoize);
    destruct cu; try settle_memoize; destruct fc; try settle_memoize;
    destruct er; settle_memoize.
Qed.

Lemma memoize_accepts_exactly_witness :
  ∃ wrapper,
    Memoize.memoize MemoizeExample.arity_key
      (Memoize.mkMemoize (Memoize.PFunction MemoizeExample.add)
         Memoize.PUndefined
         (Memoize.CacheObject (Memoize.PFunction MemoizeExample.slot_get)
            (Memoize.PFunction MemoizeExample.slot_set))
         (Memoize.LoggerObject Memoize.PUndefined Memoize.PUndefined
            Memoize.PUndefined))
    = Done wrapper.
Proof.
  apply (memoize_accepts_exactly MemoizeExample.arity_key
           (Memoize.mkMemoize (Memoize.PFunction MemoizeExample.add)
              Memoize.PUndefined
              (Memoize.CacheObject (Memoize.PFunction MemoizeExample.slot_get)
                 (Memoize.PFunction MemoizeExample.slot_set))
              (Memoize.LoggerObject Memoize.PUndefined Memoize.PUndefined
                 Memoize.PUndefined))).
  reflexivity.
Defined.

(** X21: [memoize] lets a [cache] that is [null] or [undefined] through.
    With an empty [logger] object and no key resolver, every call of the
    wrapper it returns then meets a [TypeError] at [cache.get], reports it,
    invokes [func] once and hands back what [func] does. *)
Theorem memoize_without_cache_always_invokes_func {C : Type}
    (generateKey : list Memoize.jsval → string) (m : @Memoize.Memoize C)
    (f : Memoize.Func) :
  Memoize.func m = Memoize.PFunction f →
  Validation.nullish (Memoize.keyResolver m) = true →
  Memoize.cache m = Memoize.CacheNullish →
  Memoize.logger m
  = Memoize.LoggerObject Memoize.PUndefined Memoize.PUndefined
      Memoize.PUndefined →
  ∃ wrapper,
    Memoize.memoize generateKey m = Done wrapper ∧
    ∀ args w,
      wrapper args w
      = (f args,
         Memoize.mkWorld (Memoize.cache_state w)
           (Memoize.trace w
            ++ [Memoize.LoggedError
                  (TypeError "Cannot read properties of undefined") args;
                Memoize.FuncCalled args; Memoize.Invoked args])).
Proof.
  destruct m as [fp kr c lg]. cbn [Memoize.func Memoize.keyResolver
    Memoize.cache Memoize.logger]. intros -> Hkr -> ->.
  unfold Memoize.memoize. cbn [Memoize.func Memoize.keyResolver
    Memoize.cache Memoize.logger Memoize.or_default].
  destruct kr; try done; (eexists; split; [reflexivity |]);
    intros args w; unfold_adapter; cbn; rewrite <- !app_assoc;
    by destruct (f args).
Qed.

Lemma memoize_without_cache_always_invokes_func_witness :
  ∃ wrapper,
    Memoize.memoize MemoizeExample.arity_key
      (Memoize.mkMemoize (C := list (string * Memoize.jsval))
         (Memoize.PFunction MemoizeExample.add) Memoize.PNull
         Memoize.CacheNullish
         (Memoize.LoggerObject Memoize.PUndefined Memoize.PUndefined
            Memoize.PUndefined))
    = Done wrapper ∧
    ∀ args w,
      wrapper args w
      = (MemoizeExample.add args,
         Memoize.mkWorld (Memoize.cache_state w)
           (Memoize.trace w
            ++ [Memoize.LoggedError
                  (TypeError "Cannot read properties of undefined") args;
                Memoize.FuncCalled args; Memoize.Invoked args])).
Proof.
  apply (memoize_without_cache_always_invokes_func MemoizeExample.arity_key
           (Memoize.mkMemoize (Memoize.PFunction MemoizeExample.add)
              Memoize.PNull Memoize.CacheNullish
              (Memoize.LoggerObject Memoize.PUndefined Memoize.PUndefined
                 Memoize.PUndefined)));
    reflexivity.
Defined.

(** ** Further properties of the capacity policies *)

Section ByteCapacityOff.

Lemma checkCapacity_not_positive b c n fuel newNode st :
  n ≤ 0 →
  _checkCapacity (mkCache b c (Some n)) fuel newNode st
  = _checkCapacity (mkCache b c None) fuel newNode st.
Proof.
  intros Hn. unfold _checkCapacity. cbn [charsCapacity capacity].
  by rewrite bool_decide_false by lia.
Qed.

Lemma set_not_positive b c n fuel k v st :
  n ≤ 0 →
  set (mkCache b c (Some n)) fuel k v st = set (mkCache b c None) fuel k v st.
Proof.
  intros Hn. unfold set, _addNewNode, mbind, ST_bind.
  destruct (_getNode k st) as [[[cn|] | e |] st1]; try done.
  change (_getSize (mkCache b c (Some n)) st1)
    with (_getSize (mkCache b c None) st1).
  destruct (_getSize (mkCache b c None) st1) as [[sz | e |] st2]; try done.
  case_bool_decide; [done |]. by rewrite checkCapacity_not_positive.
Qed.

End ByteCapacityOff.

(** X22: a byte capacity of zero or less turns the byte policy off: on
    either kind of store every run of [set] and [get], from every store,
    goes as it does on a cache constructed without a byte capacity. *)
Theorem byte_capacity_off_when_not_positive (b : backend) (c n : Z)
    (fuel : nat) (ops : list op) (st : storage) :
  n ≤ 0 →
  run (mkCache b c (Some n)) fuel ops st = run (mkCache b c None) fuel ops st.
Proof.
  intros Hn. revert st. induction ops as [|o ops IH]; intros st; [done |].
  cbn [run]. unfold mbind, ST_bind.
  assert (E : exec (mkCache b c (Some n)) fuel o st
              = exec (mkCache b c None) fuel o st).
  { destruct o as [k v | k]; [| done]. cbn [exec]. unfold mbind, ST_bind.
    by rewrite set_not_positive. }
  rewrite E. destruct (exec (mkCache b c None) fuel o st) as [[r | e |] st1];
    try done.
  by rewrite IH.
Qed.

Lemma byte_capacity_off_when_not_positive_witness :
  run (mkCache Immediate 2 (Some 0)) 0 three_sets ∅
  = run (mkCache Immediate 2 None) 0 three_sets ∅ ∧
  run (mkCache Promising 2 (Some (-5))) 0 three_sets ∅
  = run (mkCache Promising 2 None) 0 three_sets ∅.
Proof. split; apply byte_capacity_off_when_not_positive; lia. Defined.

(** X23: on a well-formed cache of two or more entries [_removeHead] takes
    out the least recent entry and no other and hands back its record; the
    entry before it becomes the head.  The count cell and the byte counter
    are left as they were, for the caller to adjust. *)
Theorem removeHead_drops_least_recent (l : lru) (h hv : string)
    (st : storage) :
  repr (l ++ [(h, hv)]) st → l ≠ [] →
  ∃ st' n,
    _removeHead st = (Done (Some n), st') ∧
    key n = h ∧ value n = hv ∧
    repr_at None (size_cell st) l st' ∧
    st' !! h = None ∧
    chars_cell st' = chars_cell st ∧
    reverseEntries (length l) st' = (Done (reverse (entries_of l)), st').
Proof.
  intros [_ R] Hl. destruct (lru_snoc _ Hl) as (l0 & p & pv & ->).
  rewrite <- app_assoc in R. cbn [app] in R.
  destruct (removeHead_spec _ _ _ _ _ _ _ R) as (st' & Hrun & R' & Hch).
  assert (ND : NoDup ((l0 ++ [(p, pv)]) ++ [(h, hv)]).*1).
  { rewrite <- app_assoc. apply (r_nodup _ _ _ _ R). }
  apply NoDup_snoc_keys in ND as [Hh _].
  assert (Uh : user_key h).
  { apply (r_user _ _ _ _ R). rewrite fmap_app, elem_of_app. right.
    cbn. right. left. }
  exists st', (mkNode None (Some p) hv h).
  split; [exact Hrun |]. split; [done |]. split; [done |].
  split; [by rewrite (r_size _ _ _ _ R) |].
  split.
  { rewrite (r_nodes _ _ _ _ R') by (done || apply Uh).
    by rewrite nodes_lookup_None. }
  split; [exact Hch |].
  rewrite (reverseEntries_spec _ _ _ _ R') by (done || lia).
  unfold entries_of. by rewrite fmap_reverse.
Qed.

Lemma removeHead_drops_least_recent_witness :
  ∃ st' n,
    _removeHead (state_after Scenario.three 0 Scenario.two_sets)
    = (Done (Some n), st') ∧
    key n = "1" ∧ value n = "a" ∧
    repr_at None (size_cell (state_after Scenario.three 0 Scenario.two_sets))
      [("2", "b")] st' ∧
    st' !! "1" = None ∧
    chars_cell st'
    = chars_cell (state_after Scenario.three 0 Scenario.two_sets) ∧
    reverseEntries 1 st' = (Done [(Some "2", Some "b")], st').
Proof.
  apply (removeHead_drops_least_recent [("2", "b")] "1" "a").
  - apply two_entries_repr.
  - done.
Defined.

(** ** The empty key *)

Section EmptyKey.

(** The store after [set "" v] on the empty store. *)
Lemma set_empty_key this `{!Immediate_store this} fuel v :
  set this fuel "" v ∅
  = (Done tt,
     <[__charsSizeKey := JSON.of_number (291 + _getNewNodeEstimatedSize "" v)]>
       (<[__sizeKey := JSON.of_number 1]>
          (<["" := JSON.stringify (mkNode None None v "")]>
             (<[__charsSizeKey := JSON.of_number 291]>
                (<[__headKeyPointer := ""]>
                   (<[__tailKeyPointer := ""]> ∅)))))).
Proof.
  pose proof reserved_distinct as (?&?&?&?&?&?).
  unfold set, _getNode.
  erewrite run_bind;
    [| erewrite run_bind by apply run_storage_get;
       rewrite lookup_empty; apply run_ret ].
  unfold _addNewNode.
  erewrite run_bind by (by apply run_getSize_at).
  rewrite bool_decide_true by done.
  unfold _initialize. cbn [key].
  erewrite run_bind; cycle 1.
  { erewrite run_bind by apply run_storage_set.
    erewrite run_bind by apply run_storage_set.
    erewrite run_bind by apply run_storage_set.
    apply run_setNode. }
  rewrite metadata_size.
  unfold _increaseSize.
  erewrite run_bind; cycle 1.
  { erewrite run_bind
      by (apply run_getSize_at; unfold size_cell; lookup_ne;
          by rewrite lookup_empty).
    erewrite run_bind by apply run_storage_set. apply run_ret. }
  unfold _increaseCharsSize.
  erewrite run_bind; cycle 1.
  { erewrite run_bind
      by (apply run_getCharsSize_at; unfold chars_cell; lookup_ne;
          by rewrite lookup_insert_eq, Number_of_number).
    erewrite run_bind by apply run_storage_set. apply run_ret. }
  by rewrite run_ret.
Qed.

Lemma entries_no_tail fuel st :
  deref_key (st !! __tailKeyPointer) = None →
  entries fuel st = (Done [(None, None)], st).
Proof.
  intros Ht. unfold entries, _getTail.
  erewrite run_bind;
    [| erewrite run_bind by apply run_storage_get; rewrite Ht; apply run_ret ].
  by destruct fuel.
Qed.

Lemma removeHead_no_head st :
  deref_key (st !! __headKeyPointer) = None →
  _removeHead st = (Done None, st).
Proof.
  intros Hh. unfold _removeHead, _getHead.
  erewrite run_bind;
    [| erewrite run_bind by apply run_storage_get; rewrite Hh; apply run_ret ].
  reflexivity.
Qed.

Lemma setTail_no_tail n st :
  deref_key (st !! __tailKeyPointer) = None →
  _setTail n st = (Done tt, st).
Proof.
  intros Ht. unfold _setTail, _getTail.
  erewrite run_bind;
    [| erewrite run_bind by apply run_storage_get; rewrite Ht; apply run_ret ].
  reflexivity.
Qed.

(** A new key on a store whose anchors hold the empty key: only the two
    counters are written. *)
Lemma set_on_empty_anchors this `{!Immediate_store this} fuel k w st :
  charsCapacity this = None →
  st !! k = None → size_cell st ≠ 0 →
  st !! __tailKeyPointer = Some "" → st !! __headKeyPointer = Some "" →
  ∃ ch,
    set this fuel k w st
    = (Done tt,
       <[__charsSizeKey := ch]>
         (<[__sizeKey :=
              JSON.of_number
                ((if bool_decide (size_cell st + 1 > capacity this)
                  then size_cell st - 1 else size_cell st) + 1)]> st)).
Proof.
  intros Hb Hk Hsz Ht Hh.
  pose proof reserved_distinct as (?&?&?&?&?&?).
  unfold set, _getNode.
  erewrite run_bind;
    [| erewrite run_bind by apply run_storage_get; rewrite Hk; apply run_ret ].
  unfold _addNewNode. cbn beta iota zeta.
  erewrite run_bind by apply run_getSize.
  rewrite bool_decide_false by done.
  unfold _checkCapacity. rewrite Hb.
  assert (Hinc : ∀ z st0, size_cell st0 = z →
    st0 !! __tailKeyPointer = Some "" →
    ∃ ch,
      (_setTail (mkNode None None w k);;
       _increaseSize this;;
       _increaseCharsSize this (_getNewNodeEstimatedSize k w);;
       mret tt) st0
      = (Done tt,
         <[__charsSizeKey := ch]>
           (<[__sizeKey := JSON.of_number (z + 1)]> st0))).
  { intros z st0 Hz Ht0.
    erewrite run_bind by (apply setTail_no_tail; by rewrite Ht0).
    unfold _increaseSize.
    erewrite run_bind; cycle 1.
    { erewrite run_bind by (apply run_getSize_at; exact Hz).
      erewrite run_bind by apply run_storage_set. apply run_ret. }
    unfold _increaseCharsSize.
    erewrite run_bind; cycle 1.
    { erewrite run_bind by apply run_getCharsSize.
      erewrite run_bind by apply run_storage_set. apply run_ret. }
    rewrite run_ret. eauto. }
  destruct (bool_decide (size_cell st + 1 > capacity this)) eqn:Hfull.
  - erewrite run_bind; cycle 1.
    { erewrite run_bind by apply run_ret.
      erewrite run_bind by apply run_getSize. rewrite Hfull.
      erewrite run_bind by (apply removeHead_no_head; by rewrite Hh).
      unfold _decreaseSize.
      erewrite run_bind; cycle 1.
      { erewrite run_bind by apply run_getSize.
        erewrite run_bind by apply run_storage_set. apply run_ret. }
      apply run_ret. }
    destruct (Hinc (size_cell st - 1)
                (<[__sizeKey := JSON.of_number (size_cell st - 1)]> st))
      as [ch Hrun].
    { unfold size_cell at 1. by rewrite lookup_insert_eq, Number_of_number. }
    { by rewrite lookup_insert_ne. }
    rewrite Hrun, insert_insert_eq. eauto.
  - erewrite run_bind; cycle 1.
    { erewrite run_bind by apply run_ret.
      erewrite run_bind by apply run_getSize. rewrite Hfull.
      apply run_ret. }
    destruct (Hinc (size_cell st) st eq_refl Ht) as [ch Hrun].
    rewrite Hrun. eauto.
Qed.

End EmptyKey.

(** X24: the empty string as the first key, on a store that hands back
    values and without a byte capacity.  [set] stores the entry and [get]
    finds it, but the anchors then hold a key that tests as absent: a
    traversal yields one pair of [undefined], and a key, neither empty nor
    reserved, that is set afterwards is never stored, at every capacity:
    [get] returns [undefined] for it and the traversal is as before.  The
    count goes to 2 all the same where the capacity admits two entries, and
    stays 1 at a capacity below 2. *)
Theorem empty_key_breaks_the_cache (this : LRUCache) (fuel : nat)
    (v k w : string) :
  storage_backend this = Immediate →
  charsCapacity this = None → user_key k →
  ∃ st1 st2,
    set this fuel "" v ∅ = (Done tt, st1) ∧
    get "" st1 = (Done (Some v), st1) ∧
    entries fuel st1 = (Done [(None, None)], st1) ∧
    size_cell st1 = 1 ∧
    set this fuel k w st1 = (Done tt, st2) ∧
    st2 !! k = None ∧
    get k st2 = (Done None, st2) ∧
    entries fuel st2 = (Done [(None, None)], st2) ∧
    size_cell st2 = if bool_decide (2 ≤ capacity this) then 2 else 1.
Proof.
  intros Hsync Hb [Hk0 Hkr].
  pose proof (Hsync : Immediate_store this) as HS.
  pose proof reserved_distinct as (?&?&?&?&?&?).
  assert (Hkh : k ≠ __headKeyPointer) by (intros ->; eauto with lru).
  assert (Hkt : k ≠ __tailKeyPointer) by (intros ->; eauto with lru).
  assert (Hkc : k ≠ __charsSizeKey) by (intros ->; eauto with lru).
  assert (Hks : k ≠ __sizeKey) by (intros ->; eauto with lru).
  pose proof (set_empty_key this fuel v) as Hset1.
  set (st1 := <[__charsSizeKey := _]> _) in Hset1.
  assert (Ht1 : st1 !! __tailKeyPointer = Some "").
  { unfold st1. rewrite !lookup_insert_ne by discriminate.
    by rewrite lookup_insert_eq. }
  assert (Hh1 : st1 !! __headKeyPointer = Some "").
  { unfold st1. rewrite !lookup_insert_ne by discriminate.
    by rewrite lookup_insert_eq. }
  assert (Hn1 : st1 !! "" = Some (JSON.stringify (mkNode None None v ""))).
  { unfold st1. rewrite !lookup_insert_ne by discriminate.
    by rewrite lookup_insert_eq. }
  assert (Hk1 : st1 !! k = None).
  { unfold st1. by rewrite !lookup_insert_ne by done. }
  assert (Hs1 : size_cell st1 = 1).
  { unfold size_cell, st1. rewrite !lookup_insert_ne by discriminate.
    by rewrite lookup_insert_eq, Number_of_number. }
  destruct (set_on_empty_anchors this fuel k w st1 Hb Hk1) as (ch & Hset2);
    [by rewrite Hs1 | exact Ht1 | exact Hh1 |].
  rewrite Hs1 in Hset2.
  eexists st1, _.
  split; [exact Hset1 |]. split.
  { unfold get, _getNode.
    erewrite run_bind; cycle 1.
    { erewrite run_bind by apply run_storage_get.
      rewrite Hn1, stringify_truthy, parse_stringify. apply run_ret. }
    cbn beta iota.
    erewrite run_bind by apply run_storage_get.
    rewrite Ht1. cbn [key]. by rewrite bool_decide_false by (by intros []). }
  split; [apply entries_no_tail; by rewrite Ht1 |].
  split; [exact Hs1 |].
  split; [exact Hset2 |].
  assert (Hk2 : <[__charsSizeKey := ch]>
                  (<[__sizeKey :=
                       JSON.of_number
                         ((if bool_decide (1 + 1 > capacity this)
                           then 1 - 1 else 1) + 1)]> st1) !! k = None).
  { by rewrite !lookup_insert_ne, Hk1 by done. }
  split; [exact Hk2 |]. split.
  { unfold get, _getNode.
    erewrite run_bind; cycle 1.
    { erewrite run_bind by apply run_storage_get.
      rewrite Hk2. apply run_ret. }
    reflexivity. }
  split.
  { apply entries_no_tail. rewrite !lookup_insert_ne by discriminate.
    by rewrite Ht1. }
  unfold size_cell. rewrite lookup_insert_ne by discriminate.
  rewrite lookup_insert_eq, Number_of_number. cbn [or_zero default].
  unfold id. repeat case_bool_decide; lia.
Qed.

Lemma empty_key_breaks_the_cache_witness :
  ∃ st1 st2,
    set Scenario.three 0 "" "a" ∅ = (Done tt, st1) ∧
    get "" st1 = (Done (Some "a"), st1) ∧
    entries 0 st1 = (Done [(None, None)], st1) ∧
    size_cell st1 = 1 ∧
    set Scenario.three 0 "2" "b" st1 = (Done tt, st2) ∧
    st2 !! "2" = None ∧
    get "2" st2 = (Done None, st2) ∧
    entries 0 st2 = (Done [(None, None)], st2) ∧
    size_cell st2 = 2.
Proof.
  apply (empty_key_breaks_the_cache Scenario.three 0 "a" "2" "b").
  - reflexivity.
  - reflexivity.
  - apply user_key_intro. vm_compute. reflexivity.
Defined.

(** ** The two versions of the engine *)

Section Versions.

Lemma get_by_list (l : lru) st k :
  (l = [] ∧ empty_store st) ∨ repr l st → user_key k →
  (get k st).1 = Done (Spec.assoc k l).
Proof.
  intros [[-> He] | [_ R]] [_ Hkr].
  - by rewrite (get_empty k st He Hkr).
  - destruct (Spec.assoc k l) as [v|] eqn:Ha.
    + destruct (assoc_split _ _ _ Ha (r_nodup _ _ _ _ R))
        as (l1 & l2 & -> & _).
      destruct (get_hit _ _ _ _ _ _ R) as (st' & Hrun & _).
      by rewrite Hrun.
    + by rewrite (get_miss _ _ _ _ R (assoc_None _ _ Ha) Hkr).
Qed.

(** *** Over a store of promises *)

Lemma linked_empty : linked ∅.
Proof.
  split; [| split]; [intros y | intros y | intros x s _];
    by rewrite lookup_empty.
Qed.

Lemma same_but_chars_refl st : same_but_chars st st.
Proof. by intros x _. Qed.

Lemma same_but_chars_insert st st' x v :
  same_but_chars st st' → same_but_chars (<[x := v]> st) (<[x := v]> st').
Proof.
  intros S y Hy. destruct (decide (x = y)) as [-> | Hxy].
  - by rewrite !lookup_insert_eq.
  - rewrite !lookup_insert_ne by done. by apply S.
Qed.

Lemma same_but_chars_insert_chars st st' v :
  same_but_chars st st' → same_but_chars (<[__charsSizeKey := v]> st) st'.
Proof. intros S y Hy. rewrite lookup_insert_ne by done. by apply S. Qed.

Lemma not_reserved_chars x : ¬ reserved x → x ≠ __charsSizeKey.
Proof. intros Hx ->. eauto with lru. Qed.

Lemma linked_insert_node st x n :
  linked st → ¬ reserved x → node_ok n →
  linked (<[x := JSON.stringify n]> st).
Proof.
  intros (Lt & Lh & Ln) Hx Hn. split; [| split].
  - rewrite lookup_insert_ne by solve_ne. exact Lt.
  - rewrite lookup_insert_ne by solve_ne. exact Lh.
  - intros y s Hy. destruct (decide (x = y)) as [-> | Hxy].
    + rewrite lookup_insert_eq. intros [= <-]. by exists n.
    + rewrite lookup_insert_ne by done. by apply Ln.
Qed.

Lemma linked_insert_tail st k :
  linked st → ¬ reserved k → linked (<[__tailKeyPointer := k]> st).
Proof.
  intros (Lt & Lh & Ln) Hk.
  pose proof reserved_distinct as (?&?&?&?&?&?). split; [| split].
  - rewrite lookup_insert_eq. by intros y [= <-].
  - by rewrite lookup_insert_ne.
  - intros y s Hy. rewrite lookup_insert_ne by solve_ne. by apply Ln.
Qed.

Lemma linked_insert_head st k :
  linked st → ¬ reserved k → linked (<[__headKeyPointer := k]> st).
Proof.
  intros (Lt & Lh & Ln) Hk.
  pose proof reserved_distinct as (?&?&?&?&?&?). split; [| split].
  - by rewrite lookup_insert_ne.
  - rewrite lookup_insert_eq. by intros y [= <-].
  - intros y s Hy. rewrite lookup_insert_ne by solve_ne. by apply Ln.
Qed.

Lemma linked_insert_counter st c v :
  linked st → c = __sizeKey ∨ c = __charsSizeKey → linked (<[c := v]> st).
Proof.
  intros (Lt & Lh & Ln) Hc.
  pose proof reserved_distinct as (?&?&?&?&?&?). split; [| split].
  - destruct Hc as [-> | ->]; by rewrite lookup_insert_ne.
  - destruct Hc as [-> | ->]; by rewrite lookup_insert_ne.
  - intros y s Hy.
    destruct Hc as [-> | ->]; rewrite lookup_insert_ne by solve_ne;
      by apply Ln.
Qed.

Lemma sim_ret {A} (a : A) (Q : A → Prop) : Q a → sim (mret a) (mret a) Q.
Proof. intros HQ st st' L S. by exists a, st, st'. Qed.

Lemma sim_bind {A B} (m m' : M A) (f f' : A → M B) (Q : A → Prop)
    (R : B → Prop) :
  sim m m' Q → (∀ a, Q a → sim (f a) (f' a) R) →
  sim (m ≫= f) (m' ≫= f') R.
Proof.
  intros Hm Hf st st' L S.
  destruct (Hm st st' L S) as (a & st1 & st1' & E & E' & L1 & S1 & HQ).
  destruct (Hf a HQ st1 st1' L1 S1) as (b & st2 & st2' & F & F' & L2 & S2 & HR).
  exists b, st2, st2'.
  by rewrite (run_bind _ _ _ _ _ E), (run_bind _ _ _ _ _ E').
Qed.

Lemma sim_weaken {A} (m m' : M A) (Q Q' : A → Prop) :
  sim m m' Q → (∀ a, Q a → Q' a) → sim m m' Q'.
Proof.
  intros Hm HQ st st' L S.
  destruct (Hm st st' L S) as (a & st1 & st1' & E & E' & L1 & S1 & Ha).
  exists a, st1, st1'. eauto 10.
Qed.

Lemma sim_get_tail :
  sim (storage_get __tailKeyPointer) (storage_get __tailKeyPointer) link_ok.
Proof.
  intros st st' L S. exists (st !! __tailKeyPointer), st, st'.
  split; [done |]. split; [| split; [done | split; [done | apply L]]].
  unfold storage_get. by rewrite (S __tailKeyPointer) by discriminate.
Qed.

Lemma sim_getNode x :
  ¬ reserved x →
  sim (_getNode x) (_getNode x) (λ o, ∀ n, o = Some n → node_ok n).
Proof.
  intros Hx st st' L S. unfold _getNode.
  rewrite !(run_bind _ _ _ _ _ (run_storage_get _ _)).
  rewrite <- (S x (not_reserved_chars x Hx)).
  destruct (st !! x) as [s|] eqn:E.
  - pose proof L as (Lt & Lh & Ln).
    destruct (Ln x s Hx E) as (n & -> & Hn).
    rewrite stringify_truthy, parse_stringify.
    exists (Some n), st, st'.
    split; [done |]. split; [done |]. split; [done |]. split; [done |].
    by intros ? [= <-].
  - exists None, st, st'.
    split; [done |]. split; [done |]. split; [done |]. by split.
Qed.

Lemma sim_setNode x n :
  ¬ reserved x → node_ok n → sim (_setNode x n) (_setNode x n) (λ _, True).
Proof.
  intros Hx Hn st st' L S.
  exists tt, (<[x := JSON.stringify n]> st), (<[x := JSON.stringify n]> st').
  split; [done |]. split; [done |].
  split; [by apply linked_insert_node |].
  split; [by apply same_but_chars_insert | done].
Qed.

Lemma sim_set_tail k :
  ¬ reserved k →
  sim (storage_set __tailKeyPointer k) (storage_set __tailKeyPointer k)
    (λ _, True).
Proof.
  intros Hk st st' L S.
  exists tt, (<[__tailKeyPointer := k]> st), (<[__tailKeyPointer := k]> st').
  split; [done |]. split; [done |].
  split; [by apply linked_insert_tail |].
  split; [by apply same_but_chars_insert | done].
Qed.

Lemma sim_set_head k :
  ¬ reserved k →
  sim (storage_set __headKeyPointer k) (storage_set __headKeyPointer k)
    (λ _, True).
Proof.
  intros Hk st st' L S.
  exists tt, (<[__headKeyPointer := k]> st), (<[__headKeyPointer := k]> st').
  split; [done |]. split; [done |].
  split; [by apply linked_insert_head |].
  split; [by apply same_but_chars_insert | done].
Qed.

Lemma sim_deref (o : option string) :
  link_ok o →
  sim (match deref_key o with Some k => _getNode k | None => mret None end)
      (match deref_key o with Some k => _getNode k | None => mret None end)
      (λ r, ∀ n, r = Some n → node_ok n).
Proof.
  intros Ho. destruct o as [k|]; cbn [deref_key]; [| by apply sim_ret].
  destruct (truthy_string k); [| by apply sim_ret].
  by apply sim_getNode, Ho.
Qed.

Lemma sim_getTail :
  sim _getTail _getTail (λ r, ∀ n, r = Some n → node_ok n).
Proof.
  unfold _getTail. eapply sim_bind; [apply sim_get_tail |].
  intros o Ho. by apply sim_deref.
Qed.

Lemma sim_setTail n :
  node_ok n → sim (_setTail n) (_setTail n) (λ _, True).
Proof.
  intros (Hk & Hnx & Hpv). unfold _setTail.
  eapply sim_bind; [apply sim_getTail |].
  intros [cur|] Hcur; [| by apply sim_ret].
  destruct (Hcur cur eq_refl) as (Hck & Hcn & Hcp).
  case_bool_decide; [| by apply sim_ret].
  eapply sim_bind.
  { apply sim_setNode; [done |]. split; [done |]. split; [done |].
    by intros y [= <-]. }
  intros _ _. eapply sim_bind.
  { apply sim_setNode; [done |]. split; [done |]. split; [| done].
    by intros y [= <-]. }
  intros _ _. by apply sim_set_tail.
Qed.

Lemma sim_setAsTop n :
  node_ok n → sim (__setAsTop n) (__setAsTop n) (λ _, True).
Proof.
  intros Hn. pose proof Hn as (Hk & Hnx & Hpv). unfold __setAsTop.
  eapply sim_bind; [by apply sim_deref |]. intros pn Hpn.
  eapply sim_bind; [by apply sim_deref |]. intros nn Hnn.
  eapply sim_bind.
  { instantiate (1 := λ _, True). destruct pn as [pn|]; [| by apply sim_ret].
    destruct (Hpn pn eq_refl) as (? & ? & ?).
    apply sim_setNode; [done |]. by repeat split. }
  intros _ _. eapply sim_bind.
  { instantiate (1 := λ _, True). destruct nn as [nn|]; [| by apply sim_ret].
    destruct (Hnn nn eq_refl) as (? & ? & ?).
    apply sim_setNode; [done |]. by repeat split. }
  intros _ _. eapply sim_bind.
  { instantiate (1 := λ _, True).
    destruct nn as [nn|]; [by apply sim_ret |].
    destruct pn as [pn|]; [| by apply sim_ret].
    destruct (Hpn pn eq_refl) as (? & ? & ?). by apply sim_set_head. }
  intros _ _. by apply sim_setTail.
Qed.

Lemma sim_get k : ¬ reserved k → sim (get k) (get k) (λ _, True).
Proof.
  intros Hk. unfold get. eapply sim_bind; [by apply sim_getNode |].
  intros [n|] Hn; [| by apply sim_ret].
  eapply sim_bind; [apply sim_get_tail |]. intros tailKey _.
  eapply sim_bind; [| intros _ _; by apply sim_ret].
  instantiate (1 := λ _, True).
  case_bool_decide; [| by apply sim_ret]. by apply sim_setAsTop, Hn.
Qed.

(** A new key over a store of promises: the count reads 0, so both
    versions start the list afresh. *)
Lemma sim_new this fuel k v :
  storage_backend this = Promising → ¬ reserved k →
  sim (_addNewNode this fuel k v)
      (let newNode := mkNode None None v k in
       size ← _getSize this;
       let isFirstElement := bool_decide (size = 0) in
       if isFirstElement then
         Earlier._initialize newNode;; _increaseSize this;; mret tt
       else
         _setTail newNode;;
         storageSize ← _getSize this;
         if bool_decide (storageSize + 1 > capacity this) then
           _removeHead;; mret tt
         else _increaseSize this;; mret tt)
      (λ _, True).
Proof.
  intros Hp Hk st st' L S.
  assert (Hnode : node_ok (mkNode None None v k)) by by repeat split.
  eexists tt, _, _. split; [| split].
  - unfold _addNewNode.
    erewrite run_bind by (by apply run_getSize_promising).
    rewrite bool_decide_true by done.
    unfold _initialize. cbn [key].
    erewrite run_bind; cycle 1.
    { erewrite run_bind by apply run_storage_set.
      erewrite run_bind by apply run_storage_set.
      erewrite run_bind by apply run_storage_set.
      apply run_setNode. }
    unfold _increaseSize.
    erewrite run_bind; cycle 1.
    { erewrite run_bind by (by apply run_getSize_promising).
      erewrite run_bind by apply run_storage_set. apply run_ret. }
    unfold _increaseCharsSize.
    erewrite run_bind; cycle 1.
    { erewrite run_bind by (by apply run_getCharsSize_promising).
      erewrite run_bind by apply run_storage_set. apply run_ret. }
    apply run_ret.
  - cbn zeta.
    erewrite run_bind by (by apply run_getSize_promising).
    rewrite bool_decide_true by done.
    unfold Earlier._initialize. cbn [key].
    erewrite run_bind; cycle 1.
    { erewrite run_bind by apply run_storage_set.
      erewrite run_bind by apply run_storage_set.
      apply run_setNode. }
    unfold _increaseSize.
    erewrite run_bind; cycle 1.
    { erewrite run_bind by (by apply run_getSize_promising).
      erewrite run_bind by apply run_storage_set. apply run_ret. }
    apply run_ret.
  - split; [| split; [| done]].
    + apply linked_insert_counter; [| by right].
      apply linked_insert_counter; [| by left].
      apply linked_insert_node; [| done | done].
      apply linked_insert_counter; [| by right].
      apply linked_insert_head; [| done].
      by apply linked_insert_tail.
    + apply same_but_chars_insert_chars, same_but_chars_insert,
        same_but_chars_insert, same_but_chars_insert_chars,
        same_but_chars_insert, same_but_chars_insert, S.
Qed.

Lemma sim_set this fuel k v :
  storage_backend this = Promising → ¬ reserved k →
  sim (set this fuel k v) (Earlier.set this k v) (λ _, True).
Proof.
  intros Hp Hk. unfold set, Earlier.set.
  eapply sim_bind; [by apply sim_getNode |].
  intros [cn|] Hcn; [| by apply sim_new].
  destruct (Hcn cn eq_refl) as (? & ? & ?).
  eapply sim_bind.
  { apply sim_setNode; [done |]. by repeat split. }
  intros _ _. eapply sim_bind; [by apply sim_get |].
  intros _ _. by apply sim_ret.
Qed.

Lemma sim_run this fuel ops :
  storage_backend this = Promising →
  Forall (λ o, user_key (op_key o)) ops →
  sim (run this fuel ops) (Earlier.run this ops) (λ _, True).
Proof.
  intros Hp. induction ops as [|o ops IH]; intros Hk; [by apply sim_ret |].
  apply Forall_cons in Hk as [[_ Ho] Hk]. cbn [run Earlier.run].
  eapply sim_bind.
  { instantiate (1 := λ _, True). destruct o as [k v | k]; cbn [op_key] in Ho;
      cbn [exec Earlier.exec]; [| by apply sim_get].
    eapply sim_bind; [by apply sim_set |]. intros _ _. by apply sim_ret. }
  intros r _. eapply sim_bind; [by apply IH |].
  intros rs _. by apply sim_ret.
Qed.

End Versions.

(** X25: moving the capacity check before the linking kept the behaviour
    where the present engine is right.  With a capacity of two or more and
    no byte capacity, a run of [set] and [get] on keys that are neither
    empty nor reserved, started on the empty store, returns the same results
    on the engine of [src/index.ts] and on the earlier one, and afterwards
    [get] answers alike on the two stores.  This holds on either kind of
    store: neither version awaits the count. *)
Theorem versions_agree (this : LRUCache) (fuel : nat) (ops : list op) :
  charsCapacity this = None → 2 ≤ capacity this →
  Forall (λ o, user_key (op_key o)) ops →
  (run this fuel ops ∅).1 = (Earlier.run this ops ∅).1 ∧
  ∀ k, user_key k →
    (get k (run this fuel ops ∅).2).1
    = (get k (Earlier.run this ops ∅).2).1.
Proof.
  intros Hb Hc Hk. destruct (storage_backend this) eqn:Hkind.
  - pose proof (Hkind : Immediate_store this) as HS.
    destruct (state_after_inv this fuel ops Hb Hc Hk) as [Hres Hinv].
    destruct (earlier_run_refines this ops [] ∅)
      as (st' & Hrun & Hinv');
      [left; split; [done | apply empty_store_empty] | done |].
    unfold state_after in Hinv. rewrite Hres, Hrun. split; [done |].
    intros k Uk. cbn [snd].
    rewrite (get_by_list _ _ _ Hinv' Uk). apply get_by_list; [| done].
    destruct Hinv as [He | [R _]]; [by left | by right].
  - destruct (sim_run this fuel ops Hkind Hk ∅ ∅ linked_empty
                (same_but_chars_refl ∅))
      as (rs & st1 & st1' & E & E' & L1 & S1 & _).
    rewrite E, E'. split; [done |]. intros k [_ Hkr]. cbn [snd].
    destruct (sim_get k Hkr st1 st1' L1 S1)
      as (r & st2 & st2' & G & G' & _).
    by rewrite G, G'.
Qed.

Lemma versions_agree_witness :
  ((run Scenario.three 0 Scenario.three_ops ∅).1
   = (Earlier.run Scenario.three Scenario.three_ops ∅).1 ∧
   ∀ k, user_key k →
     (get k (run Scenario.three 0 Scenario.three_ops ∅).2).1
     = (get k (Earlier.run Scenario.three Scenario.three_ops ∅).2).1) ∧
  ((run Scenario.promising_three 0 Scenario.three_ops ∅).1
   = (Earlier.run Scenario.promising_three Scenario.three_ops ∅).1 ∧
   ∀ k, user_key k →
     (get k (run Scenario.promising_three 0 Scenario.three_ops ∅).2).1
     = (get k
          (Earlier.run Scenario.promising_three Scenario.three_ops ∅).2).1).
Proof.
  split.
  - apply (versions_agree Scenario.three 0 Scenario.three_ops).
    + reflexivity.
    + done.
    + unfold Scenario.three_ops. user_keys.
  - apply (versions_agree Scenario.promising_three 0 Scenario.three_ops).
    + reflexivity.
    + done.
    + unfold Scenario.three_ops. user_keys.
Defined.

(** ** The byte estimate where it is right, and the store of promises *)

(** X26: on a store that hands back values, in a run from the empty store
    on keys that are neither empty nor reserved, that evicts nothing and
    overwrites nothing and leaves at least one entry, the tracked estimate
    is the fixed metadata overhead, 291, plus the sum of the estimates of the
    live entries, with or without a byte capacity; an entry's estimate is
    computed from its key and value alone. *)
Theorem byte_estimate_of_quiet_run (this : LRUCache) (fuel : nat)
    (ops : list op) :
  storage_backend this = Immediate →
  Forall (λ o, user_key (op_key o)) ops →
  quiet this [] ops = true →
  (spec_run (capacity this) [] ops).2 ≠ [] →
  repr (spec_run (capacity this) [] ops).2 (state_after this fuel ops) ∧
  chars_cell (state_after this fuel ops)
  = 291 + estimates (spec_run (capacity this) [] ops).2.
Proof.
  intros Hsync Hk Hq Hl.
  pose proof (Hsync : Immediate_store this) as HS.
  destruct (run_quiet this fuel ops [] ∅) as (st' & Hrun & Hinv);
    [left; split; [done | apply empty_store_empty] | done | done |].
  unfold state_after. rewrite Hrun. cbn [snd].
  destruct Hinv as [[E _] | [R Hch]]; [done |].
  split; [done |]. by rewrite Hch, metadata_size.
Qed.

Lemma byte_estimate_of_quiet_run_witness :
  repr [("1", "a"); ("2", "b")]
    (state_after Scenario.roomy 0 Scenario.three_ops) ∧
  chars_cell (state_after Scenario.roomy 0 Scenario.three_ops)
  = 291 + estimates [("1", "a"); ("2", "b")].
Proof.
  apply (byte_estimate_of_quiet_run Scenario.roomy 0 Scenario.three_ops).
  - reflexivity.
  - unfold Scenario.three_ops. user_keys.
  - vm_compute. reflexivity.
  - vm_compute. discriminate.
Defined.

(** X28: over a store whose [get] hands back promises the count always
    reads 0, so [set] of a key without a record, neither empty nor reserved,
    starts the list afresh whatever the cache holds and whatever its
    capacities: both anchors name the new key, the count is 1, the byte
    counter is the estimate of the new entry alone, and a traversal yields
    the new entry only.  The records of the other entries stay in the store,
    out of reach, and nothing is evicted. *)
Theorem set_on_promising_store_starts_afresh (this : LRUCache) (fuel : nat)
    (k v : string) (st : storage) :
  storage_backend this = Promising → user_key k → st !! k = None →
  ∃ st',
    set this fuel k v st = (Done tt, st') ∧
    st' !! __tailKeyPointer = Some k ∧
    st' !! __headKeyPointer = Some k ∧
    st' !! k = Some (JSON.stringify (mkNode None None v k)) ∧
    size_cell st' = 1 ∧
    chars_cell st' = _getNewNodeEstimatedSize k v ∧
    (∀ x, ¬ reserved x → x ≠ k → st' !! x = st !! x) ∧
    ∀ fuel', entries fuel' st' = (Done [(Some k, Some v)], st').
Proof.
  intros Hp [Hk0 Hkr] Hk.
  pose proof reserved_distinct as (?&?&?&?&?&?).
  assert (Hkh : k ≠ __headKeyPointer) by (intros ->; eauto with lru).
  assert (Hkt : k ≠ __tailKeyPointer) by (intros ->; eauto with lru).
  assert (Hkc : k ≠ __charsSizeKey) by (intros ->; eauto with lru).
  assert (Hks : k ≠ __sizeKey) by (intros ->; eauto with lru).
  eexists. split.
  { unfold set, _getNode.
    erewrite run_bind;
      [| erewrite run_bind by apply run_storage_get; rewrite Hk;
         apply run_ret ].
    unfold _addNewNode.
    erewrite run_bind by (by apply run_getSize_promising).
    rewrite bool_decide_true by done.
    unfold _initialize. cbn [key].
    erewrite run_bind; cycle 1.
    { erewrite run_bind by apply run_storage_set.
      erewrite run_bind by apply run_storage_set.
      erewrite run_bind by apply run_storage_set.
      apply run_setNode. }
    unfold _increaseSize.
    erewrite run_bind; cycle 1.
    { erewrite run_bind by (by apply run_getSize_promising).
      erewrite run_bind by apply run_storage_set. apply run_ret. }
    unfold _increaseCharsSize.
    erewrite run_bind; cycle 1.
    { erewrite run_bind by (by apply run_getCharsSize_promising).
      erewrite run_bind by apply run_storage_set. apply run_ret. }
    apply run_ret. }
  assert (Ht : ∀ s1 s2 s3 (st0 : storage),
            <[__charsSizeKey := s1]>
              (<[__sizeKey := s2]>
                 (<[k := s3]> st0)) !! __tailKeyPointer
            = st0 !! __tailKeyPointer).
  { intros. by rewrite !lookup_insert_ne. }
  split.
  { rewrite Ht, !lookup_insert_ne by done. by rewrite lookup_insert_eq. }
  split.
  { rewrite !lookup_insert_ne by done. by rewrite lookup_insert_eq. }
  split.
  { rewrite !lookup_insert_ne by done. by rewrite lookup_insert_eq. }
  split.
  { unfold size_cell. rewrite lookup_insert_ne by done.
    by rewrite lookup_insert_eq, Number_of_number. }
  split.
  { unfold chars_cell. by rewrite lookup_insert_eq, Number_of_number. }
  split.
  { intros x Hx Hxk. rewrite !lookup_insert_ne; [done | ..];
      try done; intros <-; eauto with lru. }
  intros fuel'. unfold entries, _getTail.
  erewrite run_bind; cycle 1.
  { erewrite run_bind by apply run_storage_get.
    rewrite Ht, !lookup_insert_ne by done. rewrite lookup_insert_eq.
    replace (deref_key (Some k)) with (Some k) by by destruct k.
    unfold _getNode. erewrite run_bind by apply run_storage_get.
    rewrite !lookup_insert_ne by done. rewrite lookup_insert_eq.
    by rewrite stringify_truthy, parse_stringify. }
  by destruct fuel'.
Qed.

Lemma set_on_promising_store_starts_afresh_witness :
  let st := state_after Scenario.promising_three 0 Scenario.two_sets in
  ∃ st',
    set Scenario.promising_three 0 "3" "c" st = (Done tt, st') ∧
    st' !! __tailKeyPointer = Some "3" ∧
    st' !! __headKeyPointer = Some "3" ∧
    st' !! "3" = Some (JSON.stringify (mkNode None None "c" "3")) ∧
    size_cell st' = 1 ∧
    chars_cell st' = _getNewNodeEstimatedSize "3" "c" ∧
    (∀ x, ¬ reserved x → x ≠ "3" → st' !! x = st !! x) ∧
    ∀ fuel', entries fuel' st' = (Done [(Some "3", Some "c")], st').
Proof.
  apply (set_on_promising_store_starts_afresh Scenario.promising_three 0
           "3" "c" (state_after Scenario.promising_three 0 Scenario.two_sets)).
  - reflexivity.
  - apply user_key_intro. vm_compute. reflexivity.
  - vm_compute. reflexivity.
Defined.
